(** * Identity Resolution Lab: the resolution pipeline, embedded and verified

    The development follows the TypeScript sources:
    - [services/geminiService.ts]: [summarizeTranscript], [mergeWithFlash],
      [mergeWithProStream], [consolidateResults];
    - [App.tsx]: [exportData], [executeItemProcessing], [handleRetry],
      [processQueue], the queue controls, [filteredQueue], the panes of
      the history list, and the effects that save and load the state;
    - [components/LogTerminal.tsx] and [components/DataCard.tsx].

    Conventions of the embedding.
    - A JavaScript string is the sequence of its UTF-16 code units; a Rocq
      [string] stands for a string whose code units are all below 256.
    - A JavaScript [number] is an IEEE 754 binary64 value: Rocq's [float].
    - Values are well typed for the TypeScript declarations, [T | null] and
      optional fields being [option T], with one exception: what
      [JSON.parse] returns where a [MergedProfile] is expected. That is a
      truthy value, taken to be an object with the declared fields, or one
      of the falsy values [null], [false], [0] and the empty string, which
      a model may answer as well. The code reads a payload through [&&],
      [||], [!] and [?.], which do not tell the falsy values apart: all of
      them are [None].
    - The remote model endpoints, the clock and the order in which pending
      promises settle are inputs of the functions that depend on them; a
      remote call is taken to settle (it answers or it fails).
    - A handler reads the React state of the latest render: renders are
      flushed between two events, so that is the current state. A closure
      that survives an [await] or a timer keeps what it captured. *)

From Stdlib Require Import String Ascii List Bool Arith Lia Floats.
From Stdlib Require Import Permutation Sorted.
Import ListNotations.
Open Scope string_scope.

(** ** Data model ([types.ts], as documented in API_DOCUMENTATION.md and as
    the object literals of [App.tsx] build it) *)

Definition number := float.

Inductive Sentiment := Positive | Neutral | Negative.

Definition Sentiment_str (s : Sentiment) : string :=
  match s with
  | Positive => "Positive"
  | Neutral => "Neutral"
  | Negative => "Negative"
  end.

Module CustomerRecord.
Record t := mk {
  customer_id : string;
  name : string;
  email : string;
  phone : option string;
  current_tier : string;
  last_updated : string
}.
End CustomerRecord.

Module MergedProfile.
Record t := mk {
  customer_id : string;
  name : string;
  email : string;
  phone : string;
  current_tier : string;
  latest_sentiment : Sentiment;
  identified_intent : string;
  updates_applied : list string;
  confidence_score : number;
  reasoning_insight : option string
}.
End MergedProfile.

Module InputData.
Record t := mk {
  id : string;
  customerRecord : CustomerRecord.t;
  chatTranscript : string;
  timestamp : number
}.
End InputData.

Inductive Status := pending | processing | completed | error.

(** A result payload: a truthy value, which is a profile object ([Some]),
    or [null] and the other falsy values a parsed answer can be ([None]). *)
Definition Payload := option MergedProfile.t.

Module ModelResolution.
Record t := mk {
  output : Payload;
  logs : list string;
  durationMs : number;
  status : Status;
  thinkingText : option string
}.

(** The object spreads [{ ...r, field: v }] of [App.tsx]. *)
Definition withThinkingText (r : t) (text : string) : t :=
  mk (output r) (logs r) (durationMs r) (status r) (Some text).

Definition withCompleted (r : t) (json : Payload) (duration : number)
    (line : string) : t :=
  mk json [line] duration completed (thinkingText r).

Definition withError (r : t) (err : string) : t :=
  mk (output r) [err] (durationMs r) error (thinkingText r).

Definition withReset (r : t) : t :=
  mk (output r) [] (durationMs r) processing (Some "").
End ModelResolution.

Module ProcessedResult.
Record t := mk {
  id : string;
  input : InputData.t;
  flash : ModelResolution.t;
  pro : ModelResolution.t;
  consolidated : option ModelResolution.t;
  summary : option string
}.

Definition withSummary (h : t) (s : string) : t :=
  mk (id h) (input h) (flash h) (pro h) (consolidated h) (Some s).

Definition withFlash (h : t) (r : ModelResolution.t) : t :=
  mk (id h) (input h) r (pro h) (consolidated h) (summary h).

Definition withPro (h : t) (r : ModelResolution.t) : t :=
  mk (id h) (input h) (flash h) r (consolidated h) (summary h).

Definition withConsolidated (h : t) (c : option ModelResolution.t) : t :=
  mk (id h) (input h) (flash h) (pro h) c (summary h).
End ProcessedResult.

Inductive ProcessingMode := Flash | Pro | Both.

Definition runsFlash (mode : ProcessingMode) : bool :=
  match mode with Flash | Both => true | Pro => false end.

Definition runsPro (mode : ProcessingMode) : bool :=
  match mode with Pro | Both => true | Flash => false end.

(** ** String helpers of the JavaScript runtime *)

(** [s.replace(/pat/g, '')] for a literal pattern: every occurrence, found
    left to right without overlap, is dropped. [skip] counts the code units
    of the current occurrence still to drop. *)
Fixpoint removeAll (pat : string) (skip : nat) (s : string) : string :=
  match s with
  | EmptyString => EmptyString
  | String c rest =>
      match skip with
      | S k => removeAll pat k rest
      | O =>
          if String.prefix pat s
          then removeAll pat (String.length pat - 1) rest
          else String c (removeAll pat 0 rest)
      end
  end.

(** White space and line terminators below code unit 256. *)
Definition isWhiteSpace (c : ascii) : bool :=
  match nat_of_ascii c with
  | 9 | 10 | 11 | 12 | 13 | 32 | 160 => true
  | _ => false
  end.

Fixpoint trimStart (s : string) : string :=
  match s with
  | EmptyString => EmptyString
  | String c rest => if isWhiteSpace c then trimStart rest else s
  end.

Fixpoint trimEnd (s : string) : string :=
  match s with
  | EmptyString => EmptyString
  | String c rest =>
      let rest' := trimEnd rest in
      if isWhiteSpace c && (rest' =? "") then "" else String c rest'
  end.

Definition trim (s : string) : string := trimEnd (trimStart s).

(** The clean-up before every [JSON.parse]:
    [text.replace(/```json/g, '').replace(/```/g, '').trim()]. *)
Definition cleaned (text : string) : string :=
  trim (removeAll "```" 0 (removeAll "```json" 0 text)).

(** Truthiness of a string, and [a || b] on strings. *)
Definition truthy (s : string) : bool := negb (s =? "").

Definition orElse (a b : string) : string := if truthy a then a else b.

(** ** Thrown values and callback traces *)

(** What a [catch] clause can tell about the value it caught:
    [e instanceof Error ? e.message : ...]. *)
Inductive thrown :=
| ErrorObj (message : string)
| NonError.

(** The three callbacks handed to the streaming calls. *)
Inductive Call :=
| OnUpdate (text : string)
| OnComplete (json : Payload)
| OnError (err : string).

Definition terminal (c : Call) : bool :=
  match c with
  | OnUpdate _ => false
  | OnComplete _ | OnError _ => true
  end.

(** A computation records the callbacks it invoked, in order, and either
    returns or throws. *)
Definition Comp (A : Type) : Type := (list Call * (thrown + A))%type.

Definition ret {A} (a : A) : Comp A := ([], inr a).

Definition throw {A} (e : thrown) : Comp A := ([], inl e).

Definition bind {A B} (m : Comp A) (k : A -> Comp B) : Comp B :=
  match m with
  | (tr, inl e) => (tr, inl e)
  | (tr, inr a) => let '(tr', r) := k a in ((tr ++ tr')%list, r)
  end.

Definition tryCatch {A} (m : Comp A) (handler : thrown -> Comp A) : Comp A :=
  match m with
  | (tr, inl e) => let '(tr', r) := handler e in ((tr ++ tr')%list, r)
  | (tr, inr a) => (tr, inr a)
  end.

Definition lift {A} (r : thrown + A) : Comp A := ([], r).

Declare Scope comp_scope.
Delimit Scope comp_scope with comp.
Notation "x <- m ;; k" := (bind m (fun x => k))
  (at level 61, m at next level, right associativity) : comp_scope.
Notation "m ;;; k" := (bind m (fun _ => k))
  (at level 61, right associativity) : comp_scope.

(** A callback is called with its argument; the caller's callback may
    itself throw, which [throws] decides. *)
Definition invoke (throws : Call -> option thrown) (c : Call) : Comp unit :=
  ([c], match throws c with Some e => inl e | None => inr tt end).

Definition messageOr (e : thrown) (other : string) : string :=
  match e with
  | ErrorObj m => m
  | NonError => other
  end.

(** ** The remote endpoints, as the gateway sees them

    A request (model, prompt, configuration) is built from the item and does
    not influence the control flow of the caller; what the remote answers
    to it is the input of the functions below. *)

(** A streaming request: the configured key, then either a rejected request
    or the chunks' [text] (possibly undefined) and how the iteration ends. *)
Record StreamRemote := {
  stream_API_KEY : option string;
  generateContentStream : thrown + (list (option string) * option thrown)
}.

(** A single-response request: the key, then a rejection or the response's
    [text] (possibly undefined). *)
Record UnaryRemote := {
  unary_API_KEY : option string;
  generateContent : thrown + option string
}.

(** [getClient]: throws when [process.env.API_KEY] is falsy. *)
Definition getClient (API_KEY : option string) : thrown + unit :=
  match API_KEY with
  | Some k =>
      if truthy k then inr tt
      else inl (ErrorObj "API Key not found. Please ensure your environment is configured.")
  | None => inl (ErrorObj "API Key not found. Please ensure your environment is configured.")
  end.

(** Reading a property of [undefined] throws a [TypeError]. *)
Definition TypeError_undefined (prop : string) : thrown :=
  ErrorObj ("Cannot read properties of undefined (reading '" ++ prop ++ "')").

Section Gateway.

(** [JSON.parse] where a [MergedProfile] is expected: the message of the
    [SyntaxError] it throws, or the value the text denotes, a truthy one
    (a profile object) or a falsy one ([null], [false], [0], the empty
    string). *)
Variable JSON_parse : string -> string + Payload.

Definition parseProfile (text : string) : thrown + Payload :=
  match JSON_parse text with
  | inl msg => inl (ErrorObj msg)
  | inr json => inr json
  end.

(** [summarizeTranscript]: every fault is caught and replaced. *)
Definition summarizeTranscript (remote : UnaryRemote) : string :=
  match getClient (unary_API_KEY remote) with
  | inl _ => "Summary generation failed."
  | inr _ =>
      match generateContent remote with
      | inl _ => "Summary generation failed."
      | inr None => "Summary generation failed."
      | inr (Some text) => orElse (trim text) "No summary available."
      end
  end.

(** The [for await] loop: a chunk with truthy [text] extends [fullText]
    and reports the cumulative text. *)
Fixpoint consume (throws : Call -> option thrown) (fullText : string)
    (chunks : list (option string)) : Comp string :=
  match chunks with
  | [] => ret fullText
  | chunk :: rest =>
      match chunk with
      | Some text =>
          if truthy text
          then (invoke throws (OnUpdate (fullText ++ text)) ;;;
                consume throws (fullText ++ text) rest)%comp
          else consume throws fullText rest
      | None => consume throws fullText rest
      end
  end.

Definition readStream (throws : Call -> option thrown)
    (remote : StreamRemote) : Comp string :=
  (_ <- lift (getClient (stream_API_KEY remote)) ;;
   stream <- lift (generateContentStream remote) ;;
   fullText <- consume throws "" (fst stream) ;;
   match snd stream with
   | Some e => throw e
   | None => ret fullText
   end)%comp.

(** The shared body of the two streaming calls; they differ in the three
    message texts only. *)
Definition streamingMerge (parseMsg faultPrefix faultOther : string)
    (remote : StreamRemote) (throws : Call -> option thrown) : Comp unit :=
  tryCatch
    (fullText <- readStream throws remote ;;
     tryCatch
       (json <- lift (parseProfile (cleaned fullText)) ;;
        invoke throws (OnComplete json))
       (fun e => invoke throws (OnError (parseMsg ++ messageOr e ""))))%comp
    (fun err =>
       invoke throws
         (OnError match err with
                  | ErrorObj m => faultPrefix ++ m
                  | NonError => faultOther
                  end)).

Definition mergeWithFlash : StreamRemote -> (Call -> option thrown) -> Comp unit :=
  streamingMerge "Parse Error: Output was not valid JSON. "
                 "API Error: " "Unknown network error occurred.".

Definition mergeWithProStream : StreamRemote -> (Call -> option thrown) -> Comp unit :=
  streamingMerge "Structure Error: Deep reasoning failed to produce expected schema. "
                 "Pro Engine Fault: "
                 "An unexpected error occurred in the reasoning phase.".

(** [consolidateResults]: no [try]; every fault reaches the caller. *)
Definition consolidateResults (remote : UnaryRemote) : thrown + Payload :=
  match getClient (unary_API_KEY remote) with
  | inl e => inl e
  | inr _ =>
      match generateContent remote with
      | inl e => inl e
      | inr None => inl (TypeError_undefined "replace")
      | inr (Some text) => parseProfile (cleaned text)
      end
  end.

End Gateway.

(** ** The history store: every [setHistory] call of [App.tsx] *)

(** [prev.map(h => h.id === id ? f(h) : h)]. *)
Definition mapRecord (id : string) (f : ProcessedResult.t -> ProcessedResult.t)
    (prev : list ProcessedResult.t) : list ProcessedResult.t :=
  map (fun h => if ProcessedResult.id h =? id then f h else h) prev.

Inductive Mutation :=
| Append (newEntry : ProcessedResult.t)
| SetSummary (id summary : string)
| FlashThinking (id text : string)
| FlashCompleted (id : string) (json : Payload) (duration : number)
| FlashFailed (id err : string)
| ProThinking (id text : string)
| ProCompleted (id : string) (json : Payload) (duration : number)
| ProFailed (id err : string)
| ConsolidationStarted (id : string)
| ConsolidationCompleted (id : string) (json : Payload) (duration : number)
| ConsolidationFailed (id message : string)
| RetryReset (id : string) (selectedMode : ProcessingMode)
| Clear.

(** The record a retry leaves behind, for the mode selected at that time. *)
Definition resetFor (selectedMode : ProcessingMode) (h : ProcessedResult.t)
    : ProcessedResult.t :=
  ProcessedResult.mk
    (ProcessedResult.id h)
    (ProcessedResult.input h)
    (if runsFlash selectedMode
     then ModelResolution.withReset (ProcessedResult.flash h)
     else ProcessedResult.flash h)
    (if runsPro selectedMode
     then ModelResolution.withReset (ProcessedResult.pro h)
     else ProcessedResult.pro h)
    None
    (ProcessedResult.summary h).

(** What a mutation does to the record it matches. *)
Definition onRecord (m : Mutation) (h : ProcessedResult.t) : ProcessedResult.t :=
  match m with
  | Append _ | Clear => h
  | SetSummary _ summary => ProcessedResult.withSummary h summary
  | FlashThinking _ text =>
      ProcessedResult.withFlash h
        (ModelResolution.withThinkingText (ProcessedResult.flash h) text)
  | FlashCompleted _ json duration =>
      ProcessedResult.withFlash h
        (ModelResolution.withCompleted (ProcessedResult.flash h) json duration
           "Flash: Rapid Merge Complete.")
  | FlashFailed _ err =>
      ProcessedResult.withFlash h
        (ModelResolution.withError (ProcessedResult.flash h) err)
  | ProThinking _ text =>
      ProcessedResult.withPro h
        (ModelResolution.withThinkingText (ProcessedResult.pro h) text)
  | ProCompleted _ json duration =>
      ProcessedResult.withPro h
        (ModelResolution.withCompleted (ProcessedResult.pro h) json duration
           "Pro: Deep reasoning complete.")
  | ProFailed _ err =>
      ProcessedResult.withPro h
        (ModelResolution.withError (ProcessedResult.pro h) err)
  | ConsolidationStarted _ =>
      ProcessedResult.withConsolidated h
        (Some (ModelResolution.mk None ["Initiating synthesis..."] 0%float
                 processing None))
  | ConsolidationCompleted _ json duration =>
      ProcessedResult.withConsolidated h
        (Some (ModelResolution.mk json
                 ["Consolidation complete: Golden Record established."]
                 duration completed None))
  | ConsolidationFailed _ message =>
      ProcessedResult.withConsolidated h
        (Some (ModelResolution.mk None [message] 0%float error None))
  | RetryReset _ selectedMode => resetFor selectedMode h
  end.

(** The record id a mutation addresses, when it addresses one. *)
Definition target (m : Mutation) : option string :=
  match m with
  | Append _ | Clear => None
  | SetSummary id _ | FlashThinking id _ | FlashCompleted id _ _
  | FlashFailed id _ | ProThinking id _ | ProCompleted id _ _
  | ProFailed id _ | ConsolidationStarted id
  | ConsolidationCompleted id _ _ | ConsolidationFailed id _
  | RetryReset id _ => Some id
  end.

Definition applyMutation (m : Mutation) (prev : list ProcessedResult.t)
    : list ProcessedResult.t :=
  match m with
  | Append newEntry => (prev ++ [newEntry])%list
  | Clear => []
  | _ =>
      match target m with
      | Some id => mapRecord id (onRecord m) prev
      | None => prev
      end
  end.

(** The updates the callbacks of [executeItemProcessing] make. *)
Definition orchestratorMutation (m : Mutation) : bool :=
  match m with
  | Append _ | Clear | RetryReset _ _ => false
  | _ => true
  end.

(** ** Per-item orchestration: [executeItemProcessing] *)

(** What one run does that others can see: store updates and the call of
    [consolidateResults]. *)
Inductive Event :=
| SetHistory (m : Mutation)
| CallConsolidate (item : InputData.t) (flashRes proRes : MergedProfile.t).

Definition applyEvent (e : Event) (prev : list ProcessedResult.t)
    : list ProcessedResult.t :=
  match e with
  | SetHistory m => applyMutation m prev
  | CallConsolidate _ _ _ => prev
  end.

Definition applyEvents (es : list Event) (prev : list ProcessedResult.t)
    : list ProcessedResult.t :=
  fold_left (fun hist e => applyEvent e hist) es prev.

Definition isConsolidateCall (e : Event) : bool :=
  match e with
  | CallConsolidate _ _ _ => true
  | SetHistory _ => false
  end.

Definition consolidationAttempts (es : list Event) : nat :=
  length (filter isConsolidateCall es).

(** The callbacks of the orchestrator only update the store and a local
    variable: they never throw. *)
Definition neverThrows (c : Call) : option thrown := None.

Definition flashCallback (id : string) (duration : number) (c : Call) : Event :=
  SetHistory match c with
             | OnUpdate text => FlashThinking id text
             | OnComplete json => FlashCompleted id json duration
             | OnError err => FlashFailed id err
             end.

Definition proCallback (id : string) (duration : number) (c : Call) : Event :=
  SetHistory match c with
             | OnUpdate text => ProThinking id text
             | OnComplete json => ProCompleted id json duration
             | OnError err => ProFailed id err
             end.

(** The local [flashRes] / [proRes]: [null] at first, assigned by each
    [onComplete] the value it was called with. *)
Definition lastCompleted (calls : list Call) : Payload :=
  fold_left
    (fun res c => match c with OnComplete json => json | _ => res end)
    calls None.

(** Two pending paths: [order] tells whose callback fires next
    ([true]: the flash path); each path keeps its own order. *)
Fixpoint interleave {A} (order : list bool) (l1 l2 : list A) : list A :=
  match order with
  | [] => (l1 ++ l2)%list
  | b :: order' =>
      if b
      then match l1 with
           | [] => l2
           | x :: l1' => x :: interleave order' l1' l2
           end
      else match l2 with
           | [] => l1
           | y :: l2' => y :: interleave order' l1 l2'
           end
  end.

Definition insertAt {A} (n : nat) (x : A) (l : list A) : list A :=
  (firstn n l ++ x :: skipn n l)%list.

(** What the environment decides during one run. *)
Record RunEnv := {
  summaryRemote : UnaryRemote;
  flashRemote : StreamRemote;
  flashDuration : number;
  proRemote : StreamRemote;
  proDuration : number;
  arbiterRemote : UnaryRemote;
  conDuration : number;
  pathOrder : list bool;
  summaryAt : nat
}.

Section Orchestrator.

Variable JSON_parse : string -> string + Payload.

Definition flashCalls (env : RunEnv) (mode : ProcessingMode) : list Call :=
  if runsFlash mode
  then fst (mergeWithFlash JSON_parse (flashRemote env) neverThrows)
  else [].

Definition proCalls (env : RunEnv) (mode : ProcessingMode) : list Call :=
  if runsPro mode
  then fst (mergeWithProStream JSON_parse (proRemote env) neverThrows)
  else [].

Definition flashEvents (env : RunEnv) (item : InputData.t)
    (mode : ProcessingMode) : list Event :=
  map (flashCallback (InputData.id item) (flashDuration env)) (flashCalls env mode).

Definition proEvents (env : RunEnv) (item : InputData.t)
    (mode : ProcessingMode) : list Event :=
  map (proCallback (InputData.id item) (proDuration env)) (proCalls env mode).

(** The two paths until [Promise.all] resolves. *)
Definition pathEvents (env : RunEnv) (item : InputData.t)
    (mode : ProcessingMode) : list Event :=
  interleave (pathOrder env) (flashEvents env item mode) (proEvents env item mode).

(** [if (mode === 'Both' && flashRes && proRes) { ... }]: the guard tests
    the truthiness of the two payloads. *)
Definition consolidationEvents (env : RunEnv) (item : InputData.t)
    (mode : ProcessingMode) : list Event :=
  match mode, lastCompleted (flashCalls env mode), lastCompleted (proCalls env mode) with
  | Both, Some flashRes, Some proRes =>
      [ SetHistory (ConsolidationStarted (InputData.id item));
        CallConsolidate item flashRes proRes;
        SetHistory
          match consolidateResults JSON_parse (arbiterRemote env) with
          | inr finalJson =>
              ConsolidationCompleted (InputData.id item) finalJson (conDuration env)
          | inl err =>
              ConsolidationFailed (InputData.id item)
                ("Consolidation Error: " ++ messageOr err "Arbiter failed.")
          end ]
  | _, _, _ => []
  end.

(** The run without its summary side channel. *)
Definition mainEvents (env : RunEnv) (item : InputData.t)
    (mode : ProcessingMode) : list Event :=
  (pathEvents env item mode ++ consolidationEvents env item mode)%list.

(** The summary is requested first and never awaited: its write lands
    after [summaryAt env] of the run's other events. *)
Definition summaryEvent (env : RunEnv) (item : InputData.t) : Event :=
  SetHistory (SetSummary (InputData.id item)
                (summarizeTranscript (summaryRemote env))).

Definition executeItemProcessing (env : RunEnv) (item : InputData.t)
    (mode : ProcessingMode) : list Event :=
  insertAt (summaryAt env) (summaryEvent env item) (mainEvents env item mode).

End Orchestrator.

(** ** The application state and its handlers *)

(** A suspended [processNext], closed over the [selectedMode] of the render
    in which [processQueue] ran. *)
Inductive Task :=
| AwaitOrchestrator (mode : ProcessingMode) (item : InputData.t)
| Timer (mode : ProcessingMode).

Record App := {
  queue : list InputData.t;
  history : list ProcessedResult.t;
  isProcessing : bool;
  selectedMode : ProcessingMode;
  queueRef : list InputData.t;
  tasks : list Task
}.

Definition setQueues (s : App) (q : list InputData.t) : App :=
  Build_App q (history s) (isProcessing s) (selectedMode s) q (tasks s).

Definition setHistory (s : App) (m : Mutation) : App :=
  Build_App (queue s) (applyMutation m (history s)) (isProcessing s)
    (selectedMode s) (queueRef s) (tasks s).

Definition setIsProcessing (s : App) (b : bool) : App :=
  Build_App (queue s) (history s) b (selectedMode s) (queueRef s) (tasks s).

Definition setSelectedMode (s : App) (mode : ProcessingMode) : App :=
  Build_App (queue s) (history s) (isProcessing s) mode (queueRef s) (tasks s).

Definition setTasks (s : App) (ts : list Task) : App :=
  Build_App (queue s) (history s) (isProcessing s) (selectedMode s) (queueRef s) ts.

(** What the drain loop does that the outside can see, in order. *)
Inductive Observation :=
| DrainStarted (mode : ProcessingMode)
| Appended (newEntry : ProcessedResult.t)
| Invoked (item : InputData.t) (mode : ProcessingMode)
| Settled (item : InputData.t)
| TimerSet (ms : nat)
| TimerElapsed
| DrainStopped
| RetryInvoked (item : InputData.t) (mode : ProcessingMode).

Definition initialRes (status : Status) : ModelResolution.t :=
  ModelResolution.mk None [] 0%float status (Some "").

Definition newEntry (selectedMode : ProcessingMode) (item : InputData.t)
    : ProcessedResult.t :=
  ProcessedResult.mk
    (InputData.id item)
    item
    (initialRes match selectedMode with Pro => pending | _ => processing end)
    (initialRes match selectedMode with Flash => pending | _ => processing end)
    None
    None.

Definition addToQueue (s : App) (newData : list InputData.t) : App :=
  setQueues s (queue s ++ newData)%list.

Definition addManualToQueue (s : App) (newItem : InputData.t) : App :=
  setQueues s (queue s ++ [newItem])%list.

Definition clearQueue (s : App) : App := setQueues s [].

Definition clearHistory (s : App) : App := setHistory s Clear.

(** [handleRetry]: the reset, and the orchestrator call it ends with. *)
Definition handleRetry (s : App) (id : string)
    : App * option (InputData.t * ProcessingMode) :=
  match find (fun h => ProcessedResult.id h =? id) (history s) with
  | None => (s, None)
  | Some itemEntry =>
      (setHistory s (RetryReset id (selectedMode s)),
       Some (ProcessedResult.input itemEntry, selectedMode s))
  end.

(** [processNext], up to its [await]. *)
Definition processNext (mode : ProcessingMode) (s : App)
    : App * list Observation :=
  match queueRef s with
  | [] => (setIsProcessing s false, [DrainStopped])
  | item :: rest =>
      let s1 := setQueues s rest in
      let s2 := setHistory s1 (Append (newEntry mode item)) in
      (setTasks s2 (tasks s2 ++ [AwaitOrchestrator mode item])%list,
       [Appended (newEntry mode item); Invoked item mode])
  end.

(** [processNext], from its [await] to its end. *)
Definition afterOrchestrator (mode : ProcessingMode) (item : InputData.t)
    (s : App) : App * list Observation :=
  if (0 <? length (queueRef s))%nat
  then (setTasks s (tasks s ++ [Timer mode])%list, [Settled item; TimerSet 1500])
  else (setIsProcessing s false, [Settled item; DrainStopped]).

Definition processQueue (s : App) : App * list Observation :=
  if isProcessing s || (length (queueRef s) =? 0)%nat
  then (s, [])
  else
    let '(s', obs) := processNext (selectedMode s) (setIsProcessing s true) in
    (s', DrainStarted (selectedMode s) :: obs).

(** What can happen next: a control is used, a pending continuation of the
    drain loop resumes, or a callback of a run in flight updates the store. *)
Inductive Action :=
| AddToQueue (newData : list InputData.t)
| AddManualToQueue (newItem : InputData.t)
| ClearQueue
| ClearHistory
| SelectMode (mode : ProcessingMode)
| ProcessQueue
| HandleRetry (id : string)
| OrchestratorSettled (n : nat)
| TimerFired (n : nat)
| Callback (m : Mutation).

Definition removeNth {A} (n : nat) (l : list A) : list A :=
  (firstn n l ++ skipn (S n) l)%list.

Definition step (s : App) (a : Action) : App * list Observation :=
  match a with
  | AddToQueue newData => (addToQueue s newData, [])
  | AddManualToQueue newItem => (addManualToQueue s newItem, [])
  | ClearQueue => (clearQueue s, [])
  | ClearHistory => (clearHistory s, [])
  | SelectMode mode => (setSelectedMode s mode, [])
  | ProcessQueue => processQueue s
  | HandleRetry id =>
      match handleRetry s id with
      | (s', Some (item, mode)) => (s', [RetryInvoked item mode])
      | (s', None) => (s', [])
      end
  | OrchestratorSettled n =>
      match nth_error (tasks s) n with
      | Some (AwaitOrchestrator mode item) =>
          afterOrchestrator mode item (setTasks s (removeNth n (tasks s)))
      | _ => (s, [])
      end
  | TimerFired n =>
      match nth_error (tasks s) n with
      | Some (Timer mode) =>
          let '(s', obs) := processNext mode (setTasks s (removeNth n (tasks s))) in
          (s', TimerElapsed :: obs)
      | _ => (s, [])
      end
  | Callback m =>
      if orchestratorMutation m then (setHistory s m, []) else (s, [])
  end.

Fixpoint run (s : App) (actions : list Action) : App * list Observation :=
  match actions with
  | [] => (s, [])
  | a :: rest =>
      let '(s1, obs1) := step s a in
      let '(s2, obs2) := run s1 rest in
      (s2, (obs1 ++ obs2)%list)
  end.

(** The state after the load effect: nothing is draining. *)
Definition loaded (s : App) : Prop :=
  isProcessing s = false /\ tasks s = [] /\ queueRef s = queue s.

Definition initialApp : App := Build_App [] [] false Both [] [].

(** The items the controls added during a run of actions. *)
Definition enqueued (actions : list Action) : list InputData.t :=
  flat_map
    (fun a =>
       match a with
       | AddToQueue newData => newData
       | AddManualToQueue newItem => [newItem]
       | _ => []
       end)
    actions.

Definition clears (a : Action) : bool :=
  match a with
  | ClearQueue | ClearHistory => true
  | _ => false
  end.

(** Where the drain loop stands, as its observations tell. *)
Inductive Phase :=
| Idle
| Fresh (mode : ProcessingMode)
| Popped (mode : ProcessingMode) (item : InputData.t)
| Running (mode : ProcessingMode) (item : InputData.t)
| Done (mode : ProcessingMode)
| Cooling (mode : ProcessingMode)
| Resumed (mode : ProcessingMode).

(** One drain at a time, one item at a time: the record is appended, then
    the orchestrator is invoked with the mode of the drain, then it settles,
    then the loop either sets its timer or stops. Retries are not part of
    the loop and may be invoked whenever the loop is suspended. *)
Inductive follows : Phase -> Observation -> Phase -> Prop :=
| f_start m : follows Idle (DrainStarted m) (Fresh m)
| f_pop_first m item : follows (Fresh m) (Appended (newEntry m item)) (Popped m item)
| f_pop_next m item : follows (Resumed m) (Appended (newEntry m item)) (Popped m item)
| f_invoke m item : follows (Popped m item) (Invoked item m) (Running m item)
| f_settle m item : follows (Running m item) (Settled item) (Done m)
| f_timer m : follows (Done m) (TimerSet 1500) (Cooling m)
| f_elapsed m : follows (Cooling m) TimerElapsed (Resumed m)
| f_stop_done m : follows (Done m) DrainStopped Idle
| f_stop_empty m : follows (Resumed m) DrainStopped Idle
| f_retry_idle item m : follows Idle (RetryInvoked item m) Idle
| f_retry_running m item item' m' :
    follows (Running m item) (RetryInvoked item' m') (Running m item)
| f_retry_cooling m item' m' :
    follows (Cooling m) (RetryInvoked item' m') (Cooling m).

Inductive serial : Phase -> list Observation -> Phase -> Prop :=
| serial_nil q : serial q [] q
| serial_cons q o q' obs q'' :
    follows q o q' -> serial q' obs q'' -> serial q (o :: obs) q''.

(** ** Export: the CSV branch of [exportData] *)

(** [a || b] on optional values. *)
Definition firstSome {A} (a b : option A) : option A :=
  match a with
  | Some _ => a
  | None => b
  end.

(** [h.consolidated?.output || h.pro.output || h.flash.output]. *)
Definition effectiveOutput (h : ProcessedResult.t) : option MergedProfile.t :=
  firstSome
    (firstSome
       match ProcessedResult.consolidated h with
       | Some c => ModelResolution.output c
       | None => None
       end
       (ModelResolution.output (ProcessedResult.pro h)))
    (ModelResolution.output (ProcessedResult.flash h)).

(** Truthiness of a number: neither a zero nor NaN. *)
Definition numTruthy (x : number) : bool :=
  negb (PrimFloat.eqb x 0%float || PrimFloat.is_nan x).

Inductive Cell :=
| Str (s : string)
| Num (x : number).

(** [out?.field || fallback] for a string field. *)
Definition fieldOr (out : option MergedProfile.t)
    (field : MergedProfile.t -> string) (fallback : string) : string :=
  match out with
  | Some p => orElse (field p) fallback
  | None => fallback
  end.

(** The array a record is flattened to. *)
Definition csvCells (h : ProcessedResult.t) : list Cell :=
  let out := effectiveOutput h in
  [ Str (ProcessedResult.id h);
    Str (fieldOr out MergedProfile.name
           (CustomerRecord.name (InputData.customerRecord (ProcessedResult.input h))));
    Str (fieldOr out (fun p => Sentiment_str (MergedProfile.latest_sentiment p)) "N/A");
    Str (fieldOr out MergedProfile.identified_intent "N/A");
    Num match out with
        | Some p =>
            if numTruthy (MergedProfile.confidence_score p)
            then MergedProfile.confidence_score p
            else 0%float
        | None => 0%float
        end;
    Str (fieldOr out MergedProfile.current_tier "N/A") ].

(** The [format] argument of [exportData]: ['json'] or ['csv']. *)
Inductive Format := JsonFormat | CsvFormat.

Definition headers : list string :=
  ["ID"; "Customer"; "Sentiment"; "Intent"; "Confidence"; "Tier"].

Definition newline : string := String (ascii_of_nat 10) "".

(** The number of fields a reader that splits a line at its commas sees. *)
Fixpoint commas (s : string) : nat :=
  match s with
  | EmptyString => 0
  | String c rest => (if Ascii.eqb c ","%char then 1 else 0) + commas rest
  end.

Definition columns (line : string) : nat := S (commas line).

Section CsvExport.

(** [Number.prototype.toString], which [Array.prototype.join] applies to
    the confidence. *)
Variable Number_toString : number -> string.

Definition cellText (c : Cell) : string :=
  match c with
  | Str s => s
  | Num x => Number_toString x
  end.

Definition csvRow (h : ProcessedResult.t) : string :=
  String.concat "," (map cellText (csvCells h)).

Definition csvContent (dataToExport : list ProcessedResult.t) : string :=
  String.concat newline (String.concat "," headers :: map csvRow dataToExport).

(** [JSON.stringify(dataToExport, null, 2)], the content of the JSON file. *)
Variable JSON_stringify : list ProcessedResult.t -> string.

(** [exportData(format, historyId)]: the file offered for download (name,
    media type, content), or nothing when no record is selected. *)
Definition exportData (history : list ProcessedResult.t) (format : Format)
    (historyId : option string) : option (string * string * string) :=
  let selected :=
    match historyId with
    | Some id => if truthy id then Some id else None
    | None => None
    end in
  let dataToExport :=
    match selected with
    | Some id => filter (fun h => ProcessedResult.id h =? id) history
    | None => history
    end in
  match dataToExport with
  | [] => None
  | _ =>
      let stem :=
        "resolution_lab_export_"
          ++ match selected with Some id => id | None => "all" end in
      Some match format with
           | JsonFormat => (stem ++ ".json", "application/json", JSON_stringify dataToExport)
           | CsvFormat => (stem ++ ".csv", "text/csv", csvContent dataToExport)
           end
  end.

End CsvExport.


(** ** Reading a run record by record *)

(** Events that rewrite records in place (everything but an append or a
    clear). *)
Definition inPlace (e : Event) : bool :=
  match e with
  | SetHistory (Append _) | SetHistory Clear => false
  | _ => true
  end.

(** What an in-place event does to one record of the history. *)
Definition eventOnRecord (e : Event) (h : ProcessedResult.t) : ProcessedResult.t :=
  match e with
  | SetHistory m =>
      match target m with
      | Some id => if ProcessedResult.id h =? id then onRecord m h else h
      | None => h
      end
  | CallConsolidate _ _ _ => h
  end.

Definition recordAfter (es : list Event) (h : ProcessedResult.t) : ProcessedResult.t :=
  fold_left (fun h e => eventOnRecord e h) es h.

(** The part of the record an event writes. *)
Inductive Part := FlashPart | ProPart | ConsolidatedPart | SummaryPart | NoPart.

Definition partOf (e : Event) : Part :=
  match e with
  | SetHistory m =>
      match m with
      | FlashThinking _ _ | FlashCompleted _ _ _ | FlashFailed _ _ => FlashPart
      | ProThinking _ _ | ProCompleted _ _ _ | ProFailed _ _ => ProPart
      | ConsolidationStarted _ | ConsolidationCompleted _ _ _
      | ConsolidationFailed _ _ => ConsolidatedPart
      | SetSummary _ _ => SummaryPart
      | _ => NoPart
      end
  | CallConsolidate _ _ _ => NoPart
  end.

Definition writesFlash (e : Event) : bool :=
  match partOf e with FlashPart => true | _ => false end.

Definition writesPro (e : Event) : bool :=
  match partOf e with ProPart => true | _ => false end.

Definition writesConsolidated (e : Event) : bool :=
  match partOf e with ConsolidatedPart => true | _ => false end.

Definition writesSummary (e : Event) : bool :=
  match partOf e with SummaryPart => true | _ => false end.


Definition endedFailed (calls : list Call) : Prop :=
  exists err, In (OnError err) calls.

(** Events a run of [executeItemProcessing] can make. *)
Definition fromRun (e : Event) : bool :=
  match e with
  | SetHistory m => orchestratorMutation m
  | CallConsolidate _ _ _ => true
  end.

(** The summary request faults: no key, a rejected request, or a response
    without text. *)
Definition summaryFaults (remote : UnaryRemote) : bool :=
  match getClient (unary_API_KEY remote), generateContent remote with
  | inl _, _ => true
  | inr _, inl _ => true
  | inr _, inr None => true
  | inr _, inr (Some _) => false
  end.

(** The fields of a record other than its summary. *)
Definition sameButSummary (a b : ProcessedResult.t) : Prop :=
  ProcessedResult.id a = ProcessedResult.id b
  /\ ProcessedResult.input a = ProcessedResult.input b
  /\ ProcessedResult.flash a = ProcessedResult.flash b
  /\ ProcessedResult.pro a = ProcessedResult.pro b
  /\ ProcessedResult.consolidated a = ProcessedResult.consolidated b.

(** ** Sample data *)

Definition adaRecord : CustomerRecord.t :=
  CustomerRecord.mk "CUST-001" "Ada Spade" "ada@example.com" None "Silver" "2024-01-15".

Definition adaItem : InputData.t :=
  InputData.mk "A1" adaRecord "Please move me to the Gold tier." 1700000000000%float.

Definition benItem : InputData.t :=
  InputData.mk "B2"
    (CustomerRecord.mk "CUST-002" "Heart, Ben" "ben@example.com" (Some "555-0100")
       "Gold" "2024-02-01")
    "My email changed." 1700000000500%float.

Definition cyItem : InputData.t :=
  InputData.mk "C3"
    (CustomerRecord.mk "CUST-003" "Cy Club" "cy@example.com" None "Bronze" "2024-03-09")
    "Cancel my plan." 1700000001000%float.

Definition adaProfile : MergedProfile.t :=
  MergedProfile.mk "CUST-001" "Ada Spade" "ada@example.com" "" "Gold" Positive
    "Upgrade tier" ["current_tier"] 0.75%float None.

(** A profile whose name came back empty. *)
Definition namelessProfile : MergedProfile.t :=
  MergedProfile.mk "CUST-001" "" "ada@example.com" "" "Gold" Positive
    "Upgrade tier" ["current_tier"] 0.75%float None.

Definition dq : string := String (ascii_of_nat 34) "".

Definition member (key value : string) : string := dq ++ key ++ dq ++ ":" ++ value.

Definition quoted (s : string) : string := dq ++ s ++ dq.

(** The JSON text of [adaProfile]. *)
Definition adaDocument : string :=
  "{" ++ member "customer_id" (quoted "CUST-001") ++ ","
      ++ member "name" (quoted "Ada Spade") ++ ","
      ++ member "email" (quoted "ada@example.com") ++ ","
      ++ member "phone" (quoted "") ++ ","
      ++ member "current_tier" (quoted "Gold") ++ ","
      ++ member "latest_sentiment" (quoted "Positive") ++ ","
      ++ member "identified_intent" (quoted "Upgrade tier") ++ ","
      ++ member "updates_applied" ("[" ++ quoted "current_tier" ++ "]") ++ ","
      ++ member "confidence_score" "0.75" ++ "}".

(** [JSON.parse] on the documents of the examples: [adaDocument] and
    [null] parse, any other text used below is not JSON. *)
Definition parseSample (text : string) : string + Payload :=
  if text =? adaDocument then inr (Some adaProfile)
  else if text =? "null" then inr None
  else inl "Unexpected token in JSON".

Definition noKey : StreamRemote := Build_StreamRemote None (inr ([], None)).

(** The model answers in two chunks, wrapped in a code fence. *)
Definition adaStream : StreamRemote :=
  Build_StreamRemote (Some "key")
    (inr ([Some "```json"; None; Some adaDocument; Some "```"], None)).

Definition truncatedStream : StreamRemote :=
  Build_StreamRemote (Some "key") (inr ([Some "{"; Some (dq ++ "name")], None)).

Definition brokenSummary : UnaryRemote :=
  Build_UnaryRemote (Some "key") (inl (ErrorObj "503 Service Unavailable")).

Definition adaArbiter : UnaryRemote :=
  Build_UnaryRemote (Some "key") (inr (Some adaDocument)).

(** A run in which both paths complete and the summary request fails. *)
Definition sampleEnv : RunEnv :=
  Build_RunEnv brokenSummary adaStream 120%float adaStream 900%float
    adaArbiter 300%float [true; false; true] 2.

Definition sampleApp : App :=
  Build_App [] [newEntry Both adaItem; newEntry Both benItem] false Flash [] [].

(** The export claim in its plain reading: whenever a profile is present,
    the five fields of the row are that profile's fields. *)
Definition sourcedFromProfile (h : ProcessedResult.t) : Prop :=
  forall p,
    effectiveOutput h = Some p ->
    csvCells h
    = [ Str (ProcessedResult.id h);
        Str (MergedProfile.name p);
        Str (Sentiment_str (MergedProfile.latest_sentiment p));
        Str (MergedProfile.identified_intent p);
        Num (MergedProfile.confidence_score p);
        Str (MergedProfile.current_tier p) ].

(** A record whose only result is a fast profile with an empty name. *)
Definition namelessRecord : ProcessedResult.t :=
  ProcessedResult.mk "A1" adaItem
    (ModelResolution.mk (Some namelessProfile) ["Flash: Rapid Merge Complete."]
       120%float completed (Some ""))
    (initialRes pending) None None.

(** A record with a fast result only. *)
Definition fastOnlyRecord : ProcessedResult.t :=
  ProcessedResult.mk "A1" adaItem
    (ModelResolution.mk (Some adaProfile) ["Flash: Rapid Merge Complete."]
       120%float completed (Some ""))
    (initialRes pending) None None.

(** ** Reading the drain loop *)

(** The phases in which the loop is suspended, and what the state holds
    in each. *)
Definition inPhase (s : App) (q : Phase) : Prop :=
  queueRef s = queue s
  /\ match q with
     | Idle => isProcessing s = false /\ tasks s = []
     | Running m item =>
         isProcessing s = true /\ tasks s = [AwaitOrchestrator m item]
     | Cooling m => isProcessing s = true /\ tasks s = [Timer m]
     | _ => False
     end.

(** The mode of the drain a phase belongs to. *)
Definition phaseMode (q : Phase) : option ProcessingMode :=
  match q with
  | Idle => None
  | Fresh m | Popped m _ | Running m _ | Done m | Cooling m | Resumed m => Some m
  end.

(** The mode announced by the most recent [DrainStarted]. *)
Fixpoint drainMode (current : option ProcessingMode) (obs : list Observation)
    : option ProcessingMode :=
  match obs with
  | [] => current
  | DrainStarted m :: rest => drainMode (Some m) rest
  | _ :: rest => drainMode current rest
  end.

(** The 1500 ms timer was set and, after that, it elapsed. *)
Definition delayed (mid : list Observation) : Prop :=
  exists before after,
    mid = (before ++ TimerSet 1500 :: after)%list /\ In TimerElapsed after.

(** The drain stopped and, after that, another one was started. *)
Definition restarted (mid : list Observation) : Prop :=
  exists before after m,
    mid = (before ++ DrainStopped :: after)%list /\ In (DrainStarted m) after.

(** The delay of the loop has passed, or a later drain was started. *)
Definition separated (mid : list Observation) : Prop :=
  delayed mid \/ restarted mid.

(** The run of [item] settled and what follows separates it from the next
    invocation. *)
Definition settledThenSeparated (item : InputData.t) (mid : list Observation) : Prop :=
  exists before after,
    mid = (before ++ Settled item :: after)%list /\ separated after.

(** What must be observed before the orchestrator is invoked again. *)
Definition owes (q : Phase) (mid : list Observation) : Prop :=
  match q with
  | Running _ item => settledThenSeparated item mid
  | Done _ => separated mid
  | Cooling _ => In TimerElapsed mid
  | Idle => exists m, In (DrainStarted m) mid
  | _ => True
  end.

Definition ids (hist : list ProcessedResult.t) : list string :=
  map ProcessedResult.id hist.

Definition itemIds (q : list InputData.t) : list string :=
  map InputData.id q.

(** ** The payload of a path and its state *)

Definition payloadIffCompleted (r : ModelResolution.t) : Prop :=
  ModelResolution.output r <> None <-> ModelResolution.status r = completed.

Definition completedHasPayload (r : ModelResolution.t) : Prop :=
  ModelResolution.status r = completed -> ModelResolution.output r <> None.

Definition onBothPaths (P : ModelResolution.t -> Prop) (h : ProcessedResult.t) : Prop :=
  P (ProcessedResult.flash h) /\ P (ProcessedResult.pro h).

(** A failure callback that lands on a path already Completed. *)
Definition failsCompletedPath (m : Mutation) (h : ProcessedResult.t) : Prop :=
  match m with
  | FlashFailed _ _ => ModelResolution.status (ProcessedResult.flash h) = completed
  | ProFailed _ _ => ModelResolution.status (ProcessedResult.pro h) = completed
  | _ => False
  end.

(** One item is resolved on the fast path, then retried. *)
Definition retryAfterSuccess : list Action :=
  [ AddManualToQueue adaItem; SelectMode Flash; ProcessQueue;
    Callback (FlashThinking "A1" adaDocument);
    Callback (FlashCompleted "A1" (Some adaProfile) 120%float);
    OrchestratorSettled 0;
    HandleRetry "A1" ].

(** Three items are drained under [Both]; the mode is switched to [Flash]
    while the first is in flight. *)
Definition drainThree : list Action :=
  [ AddToQueue [adaItem; benItem; cyItem]; ProcessQueue;
    SelectMode Flash;
    Callback (FlashFailed "A1" "API Error: 503");
    OrchestratorSettled 0; TimerFired 0;
    OrchestratorSettled 0; TimerFired 0;
    OrchestratorSettled 0 ].

(** A run whose fast path returns a truncated document. *)
Definition malformedFastEnv : RunEnv :=
  Build_RunEnv brokenSummary truncatedStream 80%float adaStream 900%float
    adaArbiter 300%float [false; true] 0.

(** Every record is filed under the id of the item it was created for. *)
Definition keyedByItem (h : ProcessedResult.t) : Prop :=
  ProcessedResult.id h = InputData.id (ProcessedResult.input h).

(** ** Further readings of the gateway *)

(** [hay.includes(needle)]. *)
Fixpoint includes (needle hay : string) : bool :=
  match hay with
  | EmptyString => String.prefix needle EmptyString
  | String _ rest => String.prefix needle hay || includes needle rest
  end.

(** The texts of the chunks that count: those whose [text] is truthy. *)
Definition chunkTexts (chunks : list (option string)) : list string :=
  flat_map
    (fun chunk =>
       match chunk with
       | Some text => if truthy text then [text] else []
       | None => []
       end)
    chunks.

(** The running concatenations of [texts] after [fullText]. *)
Fixpoint cumulative (fullText : string) (texts : list string) : list string :=
  match texts with
  | [] => []
  | text :: rest => (fullText ++ text) :: cumulative (fullText ++ text) rest
  end.

(** Each text properly extends the one before. *)
Fixpoint growing (texts : list string) : Prop :=
  match texts with
  | a :: (b :: _) as rest =>
      (String.prefix a b = true /\ String.length a < String.length b) /\ growing rest
  | _ => True
  end.

Definition isOnError (c : Call) : bool :=
  match c with
  | OnError _ => true
  | _ => false
  end.

(** The texts handed to [onUpdate], in order. *)
Definition updateTexts (calls : list Call) : list string :=
  flat_map (fun c => match c with OnUpdate text => [text] | _ => [] end) calls.

(** The stream was opened and read to its end without a fault. *)
Definition streamed (remote : StreamRemote) (chunks : list (option string)) : Prop :=
  getClient (stream_API_KEY remote) = inr tt
  /\ generateContentStream remote = inr (chunks, None).

Fixpoint allWhiteSpace (s : string) : bool :=
  match s with
  | EmptyString => true
  | String c rest => isWhiteSpace c && allWhiteSpace rest
  end.

Fixpoint noBacktick (s : string) : bool :=
  match s with
  | EmptyString => true
  | String c rest => negb (Ascii.eqb c "`"%char) && noBacktick rest
  end.

(** [onUpdate] throws on its second call; the other callbacks return. *)
Definition secondUpdateThrows (c : Call) : option thrown :=
  match c with
  | OnUpdate text =>
      if (String.length "```json" <? String.length text)%nat
      then Some (ErrorObj "render failed")
      else None
  | _ => None
  end.

(** The text accumulated by [fullText += chunk.text]. *)
Definition concatTexts (texts : list string) : string :=
  fold_right String.append EmptyString texts.

(** The message of the outer [catch] of a streaming call. *)
Definition faultMessage (faultPrefix faultOther : string) (e : thrown) : string :=
  match e with
  | ErrorObj m => faultPrefix ++ m
  | NonError => faultOther
  end.

(** The number of backticks a text starts with. *)
Fixpoint ticks (s : string) : nat :=
  match s with
  | EmptyString => 0
  | String c rest => if Ascii.eqb c "`"%char then S (ticks rest) else 0
  end.

(** ** Further readings of a run *)

(** The same run with its callbacks firing in another order. *)
Definition reschedule (env : RunEnv) (order : list bool) (at_ : nat) : RunEnv :=
  Build_RunEnv (summaryRemote env) (flashRemote env) (flashDuration env)
    (proRemote env) (proDuration env) (arbiterRemote env) (conDuration env)
    order at_.

(** A path has ended: Completed or Failed. *)
Definition ended (r : ModelResolution.t) : Prop :=
  ModelResolution.status r = completed \/ ModelResolution.status r = error.

(** One record with a payload from an earlier fast run. *)
Definition resolvedApp : App :=
  Build_App [] [fastOnlyRecord] false Flash [] [].

(** A fast run that fails for want of a key. *)
Definition keylessEnv : RunEnv :=
  Build_RunEnv brokenSummary noKey 5%float adaStream 900%float
    adaArbiter 300%float [] 1.

(** ** [LogTerminal] (components/LogTerminal.tsx) *)

(** The [type] prop: ['flash'] or ['thinking']. *)
Inductive TerminalType := flashType | thinkingType.

(** [text.replace(/<[^>]*>?/gm, '')]: from every [<] up to and including
    the next [>], or to the end of the text, is dropped. [inTag] tells
    whether the scan is inside such a match. *)
Fixpoint stripTags (inTag : bool) (s : string) : string :=
  match s with
  | EmptyString => EmptyString
  | String c rest =>
      if inTag
      then stripTags (negb (Ascii.eqb c ">"%char)) rest
      else if Ascii.eqb c "<"%char
           then stripTags true rest
           else String c (stripTags false rest)
  end.

Inductive TerminalBody :=
| StreamBody (text : string)
| LogBody (lines : list string).

(** What the terminal shows: its title, whether the dot pulses, its body,
    and whether the idle marker is displayed. *)
Record TerminalView := {
  title : string;
  pulsing : bool;
  body : TerminalBody;
  idle : bool
}.

Definition LogTerminal (logs : list string) (type : TerminalType)
    (streamText : option string) : TerminalView :=
  let isThinking := match type with thinkingType => true | flashType => false end in
  let hasStream := match streamText with Some text => truthy text | None => false end in
  Build_TerminalView
    (if hasStream
     then (if isThinking then "Pro Reasoning Stream" else "Flash Reasoning Stream")
     else (if isThinking then "CoT Reasoning" else "Event Log"))
    hasStream
    match streamText with
    | Some text => if truthy text then StreamBody (stripTags false text) else LogBody logs
    | None => LogBody logs
    end
    ((length logs =? 0)%nat && negb hasStream).

(** The terminal of a record's fast path, as [App.tsx] mounts it. *)
Definition flashTerminal (h : ProcessedResult.t) : TerminalView :=
  LogTerminal (ModelResolution.logs (ProcessedResult.flash h)) flashType
    (ModelResolution.thinkingText (ProcessedResult.flash h)).

Definition proTerminal (h : ProcessedResult.t) : TerminalView :=
  LogTerminal (ModelResolution.logs (ProcessedResult.pro h)) thinkingType
    (ModelResolution.thinkingText (ProcessedResult.pro h)).

(** ** Schedules of the drain loop *)

(** The continuations of a drain that still has [n] items to settle,
    resumed one after the other with nothing in between. *)
Fixpoint settleAll (n : nat) : list Action :=
  match n with
  | 0 => []
  | S n' =>
      match n' with
      | 0 => [OrchestratorSettled 0]
      | S _ => OrchestratorSettled 0 :: TimerFired 0 :: settleAll n'
      end
  end.

(** The orchestrator invocations of the drain loop, in order. *)
Definition invocations (obs : list Observation) : list (InputData.t * ProcessingMode) :=
  flat_map
    (fun o =>
       match o with
       | Invoked item mode => [(item, mode)]
       | _ => []
       end)
    obs.

(** The records the drain loop appended, in order. *)
Definition appended (obs : list Observation) : list ProcessedResult.t :=
  flat_map
    (fun o =>
       match o with
       | Appended newEntry => [newEntry]
       | _ => []
       end)
    obs.

(** The action that resumes a suspended continuation of the loop. *)
Definition resumption (t : Task) : Action :=
  match t with
  | AwaitOrchestrator _ _ => OrchestratorSettled 0
  | Timer _ => TimerFired 0
  end.

(** Actions that neither add to the queue nor resume the loop. *)
Definition quiet (a : Action) : bool :=
  match a with
  | AddToQueue _ | AddManualToQueue _ | OrchestratorSettled _ | TimerFired _ => false
  | _ => true
  end.

(** ** [DataCard] (components/DataCard.tsx) *)

(** [String.prototype.toLowerCase] on one code unit below 256: the letters
    A to Z and the capital letters of Latin-1 (U+00C0 to U+00DE, the
    multiplication sign U+00D7 apart) move up by 32. *)
Definition lowerUnit (c : ascii) : ascii :=
  let n := nat_of_ascii c in
  if ((65 <=? n) && (n <=? 90)
      || (192 <=? n) && (n <=? 222) && negb (n =? 215))%nat
  then ascii_of_nat (n + 32)
  else c.

Fixpoint toLowerCase (s : string) : string :=
  match s with
  | EmptyString => EmptyString
  | String c rest => String (lowerUnit c) (toLowerCase rest)
  end.

(** [data.updates_applied.some(f => f.toLowerCase().includes(field.toLowerCase()))]. *)
Definition isUpdated (data : MergedProfile.t) (field : string) : bool :=
  existsb (fun f => includes (toLowerCase field) (toLowerCase f))
    (MergedProfile.updates_applied data).

(** The footer of the card. *)
Inductive ChangeIndicator :=
| DeltasResolved (count : nat) (plural : bool)
| NoStateChanges.

Record IdentityView := {
  shown : MergedProfile.t;
  statusLit : bool;
  namePatched : bool;
  emailPatched : bool;
  phonePatched : bool;
  phoneRecord : string;
  indicator : ChangeIndicator
}.

Inductive CardView :=
| Synthesizing
| AwaitingIdentity
| IdentityCard (view : IdentityView).

Definition identityView (data : MergedProfile.t) : IdentityView :=
  Build_IdentityView data
    (isUpdated data "")
    (isUpdated data "name")
    (isUpdated data "email")
    (isUpdated data "phone")
    (orElse (MergedProfile.phone data) "None")
    (let n := length (MergedProfile.updates_applied data) in
     if (0 <? n)%nat then DeltasResolved n (1 <? n)%nat else NoStateChanges).

Definition DataCard (data : option MergedProfile.t) (loading : bool) : CardView :=
  if loading then Synthesizing
  else match data with
       | None => AwaitingIdentity
       | Some d => IdentityCard (identityView d)
       end.

(** ** The panes of a record (the history list of [App.tsx]) *)

Definition Status_eqb (a b : Status) : bool :=
  match a, b with
  | pending, pending | processing, processing
  | completed, completed | error, error => true
  | _, _ => false
  end.

(** The body of a path's pane: the error panel with the first log line and
    the retry button, or the card. *)
Inductive PaneBody :=
| ErrorPanel (message : option string)
| CardPanel (card : CardView).

Record Pane := {
  hiddenPane : bool;
  paneBody : PaneBody
}.

(** [showFlash]/[showPro] and the ternary on [status === 'error']. *)
Definition modelPane (r : ModelResolution.t) : Pane :=
  Build_Pane
    (Status_eqb (ModelResolution.status r) pending)
    (if Status_eqb (ModelResolution.status r) error
     then ErrorPanel (hd_error (ModelResolution.logs r))
     else CardPanel (DataCard (ModelResolution.output r)
                       (Status_eqb (ModelResolution.status r) processing))).

Definition flashPane (h : ProcessedResult.t) : Pane := modelPane (ProcessedResult.flash h).




(** A profile of the samples with two updates. *)
Definition patchedProfile : MergedProfile.t :=
  MergedProfile.mk "C-1" "Ada" "ada@new.example" "" "Gold" Positive "update"
    ["Email_Address"; "Username"] 0.75%float None.

(** ** [filteredQueue] *)

Inductive SortField := byName | byId | byTimestamp.

Inductive SortOrder := sortAsc | sortDesc.

(** [valA] and [valB]: two lower-cased names, two ids or two timestamps. *)
Inductive SortKey :=
| TextKey (s : string)
| NumberKey (x : number).

Definition sortKey (sortField : SortField) (a : InputData.t) : SortKey :=
  match sortField with
  | byName => TextKey (toLowerCase (CustomerRecord.name (InputData.customerRecord a)))
  | byId => TextKey (InputData.id a)
  | byTimestamp => NumberKey (InputData.timestamp a)
  end.

(** [valA < valB]: strings are compared code unit by code unit, numbers as
    IEEE 754 values. [valA > valB] is [valB < valA]. *)
Definition keyLt (valA valB : SortKey) : bool :=
  match valA, valB with
  | TextKey x, TextKey y => String.ltb x y
  | NumberKey x, NumberKey y => PrimFloat.ltb x y
  | _, _ => false
  end.

(** The comparator handed to [sort]; [Lt], [Eq] and [Gt] stand for its
    results -1, 0 and 1. *)
Definition comparator (sortField : SortField) (sortOrder : SortOrder)
    (a b : InputData.t) : comparison :=
  let valA := sortKey sortField a in
  let valB := sortKey sortField b in
  if keyLt valA valB then match sortOrder with sortAsc => Lt | sortDesc => Gt end
  else if keyLt valB valA then match sortOrder with sortAsc => Gt | sortDesc => Lt end
  else Eq.

(** [Array.prototype.sort] is stable (ECMAScript 2019). The comparator
    above is consistent on strings and on numbers other than NaN (the
    timestamps are those of [Date.now()]); the result is then the one
    arrangement in comparator order in which elements that compare equal
    keep their order. It is computed here by insertion: an element goes
    before the first element it does not compare greater than. *)
Fixpoint insertSorted {A} (cmp : A -> A -> comparison) (x : A) (l : list A) : list A :=
  match l with
  | [] => [x]
  | y :: rest =>
      match cmp x y with
      | Gt => y :: insertSorted cmp x rest
      | _ => x :: l
      end
  end.

Definition Array_sort {A} (cmp : A -> A -> comparison) (l : list A) : list A :=
  fold_right (insertSorted cmp) [] l.

Definition tierShown (filterTier : string) (item : InputData.t) : bool :=
  (filterTier =? "All")
  || (CustomerRecord.current_tier (InputData.customerRecord item) =? filterTier).

Definition filteredQueue (queue : list InputData.t) (filterTier : string)
    (sortField : SortField) (sortOrder : SortOrder) : list InputData.t :=
  Array_sort (comparator sortField sortOrder) (filter (tierShown filterTier) queue).

(** In order for the comparator: no element compares greater than the one
    that follows it. *)
Definition inOrder (sortField : SortField) (sortOrder : SortOrder)
    (a b : InputData.t) : Prop :=
  comparator sortField sortOrder a b <> Gt.

(** [!apiKey]: the key is undefined or empty. *)
Definition keyMissing (API_KEY : option string) : bool :=
  match API_KEY with
  | Some k => negb (truthy k)
  | None => true
  end.

(** Two items are queued and nothing is running. *)
Definition twoQueued : App :=
  Build_App [adaItem; benItem] [] false Both [adaItem; benItem] [].

(** The first of three items is in flight. *)
Definition midDrain : App :=
  Build_App [benItem; cyItem] [newEntry Both adaItem] true Both
    [benItem; cyItem] [AwaitOrchestrator Both adaItem].

(** ** Payloads that are not objects *)



(** A completion callback that carries no payload. *)
Definition completesWithoutPayload (m : Mutation) : bool :=
  match m with
  | FlashCompleted _ None _ | ProCompleted _ None _ => true
  | _ => false
  end.

Definition deliversPayloads (a : Action) : bool :=
  match a with
  | Callback m => negb (completesWithoutPayload m)
  | _ => true
  end.

(** The model answers with the JSON text [null]. *)
Definition nullStream : StreamRemote :=
  Build_StreamRemote (Some "key") (inr ([Some "null"], None)).

(** A run whose fast answer is [null] and whose deep answer is a profile. *)
Definition nullFastEnv : RunEnv :=
  Build_RunEnv brokenSummary nullStream 80%float adaStream 900%float
    adaArbiter 300%float [true; false] 0.

(** One item is resolved on the fast path, retried, and resolved again. *)
Definition retryThenSuccess : list Action :=
  (retryAfterSuccess
   ++ [ Callback (FlashThinking "A1" adaDocument);
        Callback (FlashCompleted "A1" (Some namelessProfile) 95%float) ])%list.

(** A record resolved on both paths and consolidated, with its logs, its
    streamed texts and its summary. *)
Definition goldenRecord : ProcessedResult.t :=
  ProcessedResult.mk "A1" adaItem
    (ModelResolution.mk (Some adaProfile) ["Flash: Rapid Merge Complete."]
       120%float completed (Some adaDocument))
    (ModelResolution.mk (Some namelessProfile) ["Pro: Deep reasoning complete."]
       900%float completed (Some ("```json" ++ adaDocument)))
    (Some (ModelResolution.mk (Some adaProfile)
             ["Consolidation complete: Golden Record established."]
             300%float completed None))
    (Some "Ada asks for the Gold tier.").

(** The resolved record, followed by a fresh one; [Flash] is selected. *)
Definition settledApp : App :=
  Build_App [] [goldenRecord; newEntry Both benItem] false Flash [] [].

(** ** Persistence: the saved state and [JSON] *)

(** A JavaScript value, as far as [JSON] tells values apart. A property
    list holds each key once, in the order of the object's keys. *)
#[warnings="-register-all"] Inductive JSValue :=
| JSUndefined
| JSNull
| JSBoolean (b : bool)
| JSNumber (x : number)
| JSString (s : string)
| JSArray (elements : list JSValue)
| JSObject (properties : list (string * JSValue)).

(** A JSON text, by its syntax tree. The text is the tree written out, a
    string literal as [QuoteJSONString] writes it and a number literal as
    [Number::toString] writes it; [JSON.parse] reads a string literal back
    to the string and the literal of a finite number back to that number. *)
#[warnings="-register-all"] Inductive JsonText :=
| JsonNull
| JsonBoolean (b : bool)
| JsonNumber (x : number)
| JsonString (s : string)
| JsonArray (elements : list JsonText)
| JsonObject (members : list (string * JsonText)).

Module JSON.

(** [JSON.stringify(value)] without replacer: [undefined] has no text, is
    written [null] inside an array, and a property that holds it is left
    out; a number that is not finite is written [null]; negative zero is
    written [0]. *)
Fixpoint stringify (value : JSValue) : option JsonText :=
  match value with
  | JSUndefined => None
  | JSNull => Some JsonNull
  | JSBoolean b => Some (JsonBoolean b)
  | JSNumber x =>
      Some (if PrimFloat.is_finite x
            then JsonNumber (if PrimFloat.Leibniz.eqb x PrimFloat.neg_zero
                             then PrimFloat.zero else x)
            else JsonNull)
  | JSString s => Some (JsonString s)
  | JSArray elements =>
      Some (JsonArray
              (map (fun element =>
                      match stringify element with
                      | Some text => text
                      | None => JsonNull
                      end)
                 elements))
  | JSObject properties =>
      Some (JsonObject
              (flat_map (fun property =>
                           match stringify (snd property) with
                           | Some text => [(fst property, text)]
                           | None => []
                           end)
                 properties))
  end.

(** [JSON.parse(text)] without reviver. *)
Fixpoint parse (text : JsonText) : JSValue :=
  match text with
  | JsonNull => JSNull
  | JsonBoolean b => JSBoolean b
  | JsonNumber x => JSNumber x
  | JsonString s => JSString s
  | JsonArray elements => JSArray (map parse elements)
  | JsonObject members =>
      JSObject (map (fun member => (fst member, parse (snd member))) members)
  end.

End JSON.

(** [value[key]] where an object is expected: [undefined] for a missing
    property. *)
Definition property (key : string) (value : JSValue) : JSValue :=
  match value with
  | JSObject properties =>
      match find (fun p => fst p =? key) properties with
      | Some p => snd p
      | None => JSUndefined
      end
  | _ => JSUndefined
  end.

(** *** The state as the objects [App.tsx] builds *)

(** An optional property that is not set. *)
Definition optionalProperty (key : string) (value : option JSValue)
    : list (string * JSValue) :=
  match value with
  | Some v => [(key, v)]
  | None => []
  end.

Definition ofNullableString (s : option string) : JSValue :=
  match s with
  | Some text => JSString text
  | None => JSNull
  end.

Definition ofStrings (l : list string) : JSValue := JSArray (map JSString l).

Definition Status_str (s : Status) : string :=
  match s with
  | pending => "pending"
  | processing => "processing"
  | completed => "completed"
  | error => "error"
  end.

Definition ofCustomerRecord (c : CustomerRecord.t) : JSValue :=
  JSObject
    [ ("customer_id", JSString (CustomerRecord.customer_id c));
      ("name", JSString (CustomerRecord.name c));
      ("email", JSString (CustomerRecord.email c));
      ("phone", ofNullableString (CustomerRecord.phone c));
      ("current_tier", JSString (CustomerRecord.current_tier c));
      ("last_updated", JSString (CustomerRecord.last_updated c)) ].

Definition ofInputData (item : InputData.t) : JSValue :=
  JSObject
    [ ("id", JSString (InputData.id item));
      ("customerRecord", ofCustomerRecord (InputData.customerRecord item));
      ("chatTranscript", JSString (InputData.chatTranscript item));
      ("timestamp", JSNumber (InputData.timestamp item)) ].

Definition ofMergedProfile (p : MergedProfile.t) : JSValue :=
  JSObject
    ([ ("customer_id", JSString (MergedProfile.customer_id p));
       ("name", JSString (MergedProfile.name p));
       ("email", JSString (MergedProfile.email p));
       ("phone", JSString (MergedProfile.phone p));
       ("current_tier", JSString (MergedProfile.current_tier p));
       ("latest_sentiment", JSString (Sentiment_str (MergedProfile.latest_sentiment p)));
       ("identified_intent", JSString (MergedProfile.identified_intent p));
       ("updates_applied", ofStrings (MergedProfile.updates_applied p));
       ("confidence_score", JSNumber (MergedProfile.confidence_score p)) ]
     ++ optionalProperty "reasoning_insight"
          (option_map JSString (MergedProfile.reasoning_insight p)))%list.

(** A payload without an object is held as [null]. *)
Definition ofPayload (output : Payload) : JSValue :=
  match output with
  | Some p => ofMergedProfile p
  | None => JSNull
  end.

Definition ofModelResolution (r : ModelResolution.t) : JSValue :=
  JSObject
    ([ ("output", ofPayload (ModelResolution.output r));
       ("logs", ofStrings (ModelResolution.logs r));
       ("durationMs", JSNumber (ModelResolution.durationMs r));
       ("status", JSString (Status_str (ModelResolution.status r))) ]
     ++ optionalProperty "thinkingText"
          (option_map JSString (ModelResolution.thinkingText r)))%list.

(** [consolidated] that is not set is written as [handleRetry] leaves it, a
    property holding [undefined]; [summary] that is not set is missing, as
    in a new entry. The code reads both kinds alike. *)
Definition ofProcessedResult (h : ProcessedResult.t) : JSValue :=
  JSObject
    ([ ("id", JSString (ProcessedResult.id h));
       ("input", ofInputData (ProcessedResult.input h));
       ("flash", ofModelResolution (ProcessedResult.flash h));
       ("pro", ofModelResolution (ProcessedResult.pro h));
       ("consolidated",
        match ProcessedResult.consolidated h with
        | Some c => ofModelResolution c
        | None => JSUndefined
        end) ]
     ++ optionalProperty "summary"
          (option_map JSString (ProcessedResult.summary h)))%list.

(** [{ queue, history }]. *)
Definition ofState (queue : list InputData.t) (history : list ProcessedResult.t)
    : JSValue :=
  JSObject
    [ ("queue", JSArray (map ofInputData queue));
      ("history", JSArray (map ofProcessedResult history)) ].

(** *** Reading a value at its declared type *)

Definition andThen {A B} (a : option A) (k : A -> option B) : option B :=
  match a with
  | Some x => k x
  | None => None
  end.

Declare Scope read_scope.
Delimit Scope read_scope with read.
Notation "x <-- a ;; k" := (andThen a (fun x => k))
  (at level 61, a at next level, right associativity) : read_scope.

Definition readString (v : JSValue) : option string :=
  match v with
  | JSString s => Some s
  | _ => None
  end.

Definition readNumber (v : JSValue) : option number :=
  match v with
  | JSNumber x => Some x
  | _ => None
  end.

(** [T | null]. *)
Definition readNullable {A} (read : JSValue -> option A) (v : JSValue)
    : option (option A) :=
  match v with
  | JSNull => Some None
  | _ => option_map Some (read v)
  end.

(** An optional property: missing or [undefined], or a [T]. *)
Definition readOptional {A} (read : JSValue -> option A) (v : JSValue)
    : option (option A) :=
  match v with
  | JSUndefined => Some None
  | _ => option_map Some (read v)
  end.

Fixpoint readAll {A} (read : JSValue -> option A) (elements : list JSValue)
    : option (list A) :=
  match elements with
  | [] => Some []
  | e :: rest =>
      (x <-- read e ;; xs <-- readAll read rest ;; Some (x :: xs))%read
  end.

Definition readArray {A} (read : JSValue -> option A) (v : JSValue)
    : option (list A) :=
  match v with
  | JSArray elements => readAll read elements
  | _ => None
  end.

Definition readSentiment (v : JSValue) : option Sentiment :=
  (s <-- readString v ;;
   if s =? "Positive" then Some Positive
   else if s =? "Neutral" then Some Neutral
   else if s =? "Negative" then Some Negative
   else None)%read.

Definition readStatus (v : JSValue) : option Status :=
  (s <-- readString v ;;
   if s =? "pending" then Some pending
   else if s =? "processing" then Some processing
   else if s =? "completed" then Some completed
   else if s =? "error" then Some error
   else None)%read.

Definition readCustomerRecord (v : JSValue) : option CustomerRecord.t :=
  (customer_id <-- readString (property "customer_id" v) ;;
   name <-- readString (property "name" v) ;;
   email <-- readString (property "email" v) ;;
   phone <-- readNullable readString (property "phone" v) ;;
   current_tier <-- readString (property "current_tier" v) ;;
   last_updated <-- readString (property "last_updated" v) ;;
   Some (CustomerRecord.mk customer_id name email phone current_tier last_updated))%read.

Definition readInputData (v : JSValue) : option InputData.t :=
  (id <-- readString (property "id" v) ;;
   customerRecord <-- readCustomerRecord (property "customerRecord" v) ;;
   chatTranscript <-- readString (property "chatTranscript" v) ;;
   timestamp <-- readNumber (property "timestamp" v) ;;
   Some (InputData.mk id customerRecord chatTranscript timestamp))%read.

Definition readMergedProfile (v : JSValue) : option MergedProfile.t :=
  (customer_id <-- readString (property "customer_id" v) ;;
   name <-- readString (property "name" v) ;;
   email <-- readString (property "email" v) ;;
   phone <-- readString (property "phone" v) ;;
   current_tier <-- readString (property "current_tier" v) ;;
   latest_sentiment <-- readSentiment (property "latest_sentiment" v) ;;
   identified_intent <-- readString (property "identified_intent" v) ;;
   updates_applied <-- readArray readString (property "updates_applied" v) ;;
   confidence_score <-- readNumber (property "confidence_score" v) ;;
   reasoning_insight <-- readOptional readString (property "reasoning_insight" v) ;;
   Some (MergedProfile.mk customer_id name email phone current_tier latest_sentiment
           identified_intent updates_applied confidence_score reasoning_insight))%read.

Definition readModelResolution (v : JSValue) : option ModelResolution.t :=
  (output <-- readNullable readMergedProfile (property "output" v) ;;
   logs <-- readArray readString (property "logs" v) ;;
   durationMs <-- readNumber (property "durationMs" v) ;;
   status <-- readStatus (property "status" v) ;;
   thinkingText <-- readOptional readString (property "thinkingText" v) ;;
   Some (ModelResolution.mk output logs durationMs status thinkingText))%read.

Definition readProcessedResult (v : JSValue) : option ProcessedResult.t :=
  (id <-- readString (property "id" v) ;;
   input <-- readInputData (property "input" v) ;;
   flash <-- readModelResolution (property "flash" v) ;;
   pro <-- readModelResolution (property "pro" v) ;;
   consolidated <-- readOptional readModelResolution (property "consolidated" v) ;;
   summary <-- readOptional readString (property "summary" v) ;;
   Some (ProcessedResult.mk id input flash pro consolidated summary))%read.

(** A value after it was written and read back:
    [JSON.parse(JSON.stringify(value))]. *)
Definition reread (value : JSValue) : JSValue :=
  match JSON.stringify value with
  | Some text => JSON.parse text
  | None => JSUndefined
  end.

(** *** The two effects *)

(** The save effect: [JSON.stringify({ queue, history })]. *)
Definition savedState (queue : list InputData.t) (history : list ProcessedResult.t)
    : option JsonText :=
  JSON.stringify (ofState queue history).

(** The load effect: [const { queue, history } = JSON.parse(saved)], and
    what the two values are at the types of the state. *)
Definition loadedState (saved : JsonText)
    : option (list InputData.t * list ProcessedResult.t) :=
  let parsed := JSON.parse saved in
  (queue <-- readArray readInputData (property "queue" parsed) ;;
   history <-- readArray readProcessedResult (property "history" parsed) ;;
   Some (queue, history))%read.

(** Numbers that [JSON] writes and reads back: finite, and not negative
    zero. *)
Definition survives (x : number) : bool :=
  PrimFloat.is_finite x && negb (PrimFloat.Leibniz.eqb x PrimFloat.neg_zero).

Definition payloadSurvives (output : Payload) : bool :=
  match output with
  | Some p => survives (MergedProfile.confidence_score p)
  | None => true
  end.

Definition resolutionSurvives (r : ModelResolution.t) : bool :=
  payloadSurvives (ModelResolution.output r) && survives (ModelResolution.durationMs r).

Definition itemSurvives (item : InputData.t) : bool :=
  survives (InputData.timestamp item).

Definition recordSurvives (h : ProcessedResult.t) : bool :=
  itemSurvives (ProcessedResult.input h)
  && resolutionSurvives (ProcessedResult.flash h)
  && resolutionSurvives (ProcessedResult.pro h)
  && match ProcessedResult.consolidated h with
     | Some c => resolutionSurvives c
     | None => true
     end.

(** A profile whose confidence was answered as [1e999], which [JSON.parse]
    reads as infinity, and a record that holds it. *)
Definition overconfidentProfile : MergedProfile.t :=
  MergedProfile.mk "CUST-001" "Ada Spade" "ada@example.com" "" "Gold" Positive
    "Upgrade tier" ["current_tier"] PrimFloat.infinity None.

Definition overconfidentRecord : ProcessedResult.t :=
  ProcessedResult.mk "A1" adaItem
    (ModelResolution.mk (Some overconfidentProfile) ["Flash: Rapid Merge Complete."]
       120%float completed (Some ""))
    (initialRes pending) None None.
(** * Properties *)

(** ** The gateway: one terminal callback per streaming call *)

Section GatewayFacts.

Variable JSON_parse : string -> string + Payload.
Variable throws : Call -> option thrown.
Hypothesis callbacks_return : forall c, throws c = None.

Lemma invoke_returns (c : Call) : invoke throws c = ([c], inr tt).
Proof. unfold invoke. now rewrite callbacks_return. Qed.

Lemma consume_returns (chunks : list (option string)) :
  forall fullText,
    exists texts final,
      consume throws fullText chunks = (map OnUpdate texts, inr final).
Proof.
  induction chunks as [|chunk rest IH]; intros fullText; cbn [consume].
  - now exists [], fullText.
  - destruct chunk as [text|]; [destruct (truthy text)|]; try apply IH.
    destruct (IH (fullText ++ text)) as (texts & final & E).
    exists ((fullText ++ text) :: texts), final.
    unfold bind. rewrite invoke_returns, E. reflexivity.
Qed.

(** The callbacks a streaming call makes: cumulative texts, then exactly
    one terminal callback; and the call returns. *)
Lemma streamingMerge_shape (parseMsg faultPrefix faultOther : string)
    (remote : StreamRemote) :
  exists texts last,
    streamingMerge JSON_parse parseMsg faultPrefix faultOther remote throws
      = ((map OnUpdate texts ++ [last])%list, inr tt)
    /\ terminal last = true.
Proof.
  unfold streamingMerge, readStream, lift, throw, ret.
  destruct (getClient (stream_API_KEY remote)) as [e|[]]; cbn [bind tryCatch].
  { rewrite invoke_returns. exists []. eexists. split; reflexivity. }
  destruct (generateContentStream remote) as [e|[chunks ending]];
    cbn [bind tryCatch fst snd app].
  { rewrite invoke_returns. exists []. eexists. split; reflexivity. }
  destruct (consume_returns chunks "") as (texts & final & E). rewrite E.
  destruct ending as [e|]; cbn [bind tryCatch fst snd app].
  { rewrite invoke_returns. exists texts. eexists.
    rewrite app_nil_r. split; reflexivity. }
  unfold parseProfile.
  destruct (JSON_parse (cleaned final)) as [msg|json];
    cbn [bind tryCatch fst snd app]; rewrite invoke_returns;
    exists texts; eexists; rewrite ?app_nil_r; split; reflexivity.
Qed.

Lemma terminal_count (texts : list string) (last : Call) :
  terminal last = true ->
  length (filter terminal (map OnUpdate texts ++ [last])) = 1.
Proof.
  intros T. rewrite filter_app. simpl. rewrite T.
  replace (filter terminal (map OnUpdate texts)) with (@nil Call); [reflexivity|].
  induction texts; simpl; auto.
Qed.

End GatewayFacts.

(** C6. Provided the supplied callbacks return normally, [mergeWithFlash]
    and [mergeWithProStream] each invoke exactly one terminal callback
    ([onComplete] or [onError]) exactly once, and the call itself returns
    (its promise is never rejected). *)
Theorem streaming_calls_fire_one_terminal_callback
    (JSON_parse : string -> string + Payload)
    (throws : Call -> option thrown) (remote : StreamRemote) :
  (forall c, throws c = None) ->
  (snd (mergeWithFlash JSON_parse remote throws) = inr tt
   /\ length (filter terminal (fst (mergeWithFlash JSON_parse remote throws))) = 1)
  /\
  (snd (mergeWithProStream JSON_parse remote throws) = inr tt
   /\ length (filter terminal (fst (mergeWithProStream JSON_parse remote throws))) = 1).
Proof.
  intros H. unfold mergeWithFlash, mergeWithProStream. split.
  - destruct (streamingMerge_shape JSON_parse throws H
                "Parse Error: Output was not valid JSON. "
                "API Error: " "Unknown network error occurred." remote)
      as (texts & last & E & T).
    rewrite E. simpl. split; [reflexivity|]. now apply terminal_count.
  - destruct (streamingMerge_shape JSON_parse throws H
                "Structure Error: Deep reasoning failed to produce expected schema. "
                "Pro Engine Fault: "
                "An unexpected error occurred in the reasoning phase." remote)
      as (texts & last & E & T).
    rewrite E. simpl. split; [reflexivity|]. now apply terminal_count.
Qed.

(** C6 witness: the fenced two-chunk answer, with callbacks that return. *)
Lemma streaming_calls_fire_one_terminal_callback_witness :
  (snd (mergeWithFlash parseSample adaStream neverThrows) = inr tt
   /\ length (filter terminal (fst (mergeWithFlash parseSample adaStream neverThrows))) = 1)
  /\
  (snd (mergeWithProStream parseSample adaStream neverThrows) = inr tt
   /\ length (filter terminal (fst (mergeWithProStream parseSample adaStream neverThrows))) = 1).
Proof.
  apply (streaming_calls_fire_one_terminal_callback parseSample neverThrows adaStream).
  intros c. reflexivity.
Defined.

(** The fenced answer is cleaned and parsed: two cumulative updates, then
    [onComplete]. *)
Example fenced_answer_completes :
  fst (mergeWithFlash parseSample adaStream neverThrows)
  = [ OnUpdate "```json"; OnUpdate ("```json" ++ adaDocument);
      OnUpdate ("```json" ++ adaDocument ++ "```"); OnComplete (Some adaProfile) ].
Proof. vm_compute. reflexivity. Qed.

(** A truncated answer ends in [onError] with the "Parse Error" prefix; a
    missing key ends in [onError] with the "API Error" prefix. *)
Example truncated_answer_fails :
  map (fun c => match c with OnError err => String.prefix "Parse Error" err | _ => false end)
    (fst (mergeWithFlash parseSample truncatedStream neverThrows))
  = [false; false; true]
  /\ fst (mergeWithFlash parseSample noKey neverThrows)
     = [OnError "API Error: API Key not found. Please ensure your environment is configured."].
Proof. split; vm_compute; reflexivity. Qed.

(** Without the proviso the contract is lost: when [onComplete] itself
    throws, the inner [catch] also calls [onError]. *)
Example throwing_onComplete_fires_both :
  length
    (filter terminal
       (fst (mergeWithFlash parseSample adaStream
               (fun c => match c with
                         | OnComplete _ => Some (ErrorObj "render failed")
                         | _ => None
                         end))))
  = 2.
Proof. vm_compute. reflexivity. Qed.

(** ** Lists: interleaving and insertion *)

Lemma in_interleave {A} (order : list bool) :
  forall (l1 l2 : list A) (x : A),
    In x (interleave order l1 l2) -> In x l1 \/ In x l2.
Proof.
  induction order as [|b order IH]; intros l1 l2 x; simpl.
  - intros H. apply in_app_or in H. exact H.
  - destruct b.
    + destruct l1 as [|y l1]; [now right|].
      intros [->|H]; [left; now left|].
      destruct (IH _ _ _ H); [left; now right|now right].
    + destruct l2 as [|y l2]; [now left|].
      intros [->|H]; [right; now left|].
      destruct (IH _ _ _ H); [now left|right; now right].
Qed.

Lemma in_insertAt {A} (n : nat) (x y : A) (l : list A) :
  In y (insertAt n x l) -> y = x \/ In y l.
Proof.
  unfold insertAt. intros H. apply in_app_or in H.
  destruct H as [H|[H|H]].
  - right. rewrite <- (firstn_skipn n l). apply in_or_app. now left.
  - now left.
  - right. rewrite <- (firstn_skipn n l). apply in_or_app. now right.
Qed.

Lemma filter_none {A} (p : A -> bool) (l : list A) :
  (forall x, In x l -> p x = false) -> filter p l = [].
Proof.
  induction l as [|a l IH]; simpl; intros H; [reflexivity|].
  rewrite (H a (or_introl eq_refl)). apply IH. intros x Hx. apply H. now right.
Qed.

Lemma filter_all {A} (p : A -> bool) (l : list A) :
  (forall x, In x l -> p x = true) -> filter p l = l.
Proof.
  induction l as [|a l IH]; simpl; intros H; [reflexivity|].
  rewrite (H a (or_introl eq_refl)). f_equal. apply IH. intros x Hx. apply H. now right.
Qed.

Lemma filter_interleave_l {A} (p : A -> bool) (order : list bool) :
  forall l1 l2 : list A,
    (forall x, In x l1 -> p x = true) ->
    (forall x, In x l2 -> p x = false) ->
    filter p (interleave order l1 l2) = l1.
Proof.
  induction order as [|b order IH]; intros l1 l2 H1 H2; simpl.
  - rewrite filter_app, (filter_all p l1 H1), (filter_none p l2 H2).
    apply app_nil_r.
  - destruct b.
    + destruct l1 as [|y l1]; [now apply filter_none|].
      simpl. rewrite (H1 y (or_introl eq_refl)). f_equal.
      apply IH; [intros x Hx; apply H1; now right|exact H2].
    + destruct l2 as [|y l2]; [now apply filter_all|].
      simpl. rewrite (H2 y (or_introl eq_refl)).
      apply IH; [exact H1|intros x Hx; apply H2; now right].
Qed.

Lemma filter_interleave_r {A} (p : A -> bool) (order : list bool) :
  forall l1 l2 : list A,
    (forall x, In x l1 -> p x = false) ->
    (forall x, In x l2 -> p x = true) ->
    filter p (interleave order l1 l2) = l2.
Proof.
  induction order as [|b order IH]; intros l1 l2 H1 H2; simpl.
  - now rewrite filter_app, (filter_none p l1 H1), (filter_all p l2 H2).
  - destruct b.
    + destruct l1 as [|y l1]; [now apply filter_all|].
      simpl. rewrite (H1 y (or_introl eq_refl)).
      apply IH; [intros x Hx; apply H1; now right|exact H2].
    + destruct l2 as [|y l2]; [now apply filter_none|].
      simpl. rewrite (H2 y (or_introl eq_refl)). f_equal.
      apply IH; [exact H1|intros x Hx; apply H2; now right].
Qed.

Lemma filter_insertAt_skip {A} (p : A -> bool) (n : nat) (x : A) (l : list A) :
  p x = false -> filter p (insertAt n x l) = filter p l.
Proof.
  intros H. unfold insertAt. rewrite filter_app. simpl. rewrite H.
  rewrite <- filter_app. now rewrite firstn_skipn.
Qed.

Lemma filter_insertAt_keep {A} (p : A -> bool) (n : nat) (x : A) (l : list A) :
  p x = true -> (forall y, In y l -> p y = false) ->
  filter p (insertAt n x l) = [x].
Proof.
  intros H N. unfold insertAt. rewrite filter_app. simpl. rewrite H.
  rewrite !filter_none; [reflexivity| |].
  - intros y Hy. apply N. rewrite <- (firstn_skipn n l). apply in_or_app. now right.
  - intros y Hy. apply N. rewrite <- (firstn_skipn n l). apply in_or_app. now left.
Qed.

(** ** Records under the events of a run *)

Lemma applyEvent_inPlace (e : Event) (hist : list ProcessedResult.t) :
  inPlace e = true -> applyEvent e hist = map (eventOnRecord e) hist.
Proof.
  destruct e as [m|item f p]; simpl.
  - destruct m; simpl; try discriminate; intros _; reflexivity.
  - intros _. symmetry. apply map_id.
Qed.

Lemma applyEvents_inPlace (es : list Event) :
  forall hist,
    (forall e, In e es -> inPlace e = true) ->
    applyEvents es hist = map (recordAfter es) hist.
Proof.
  unfold applyEvents, recordAfter.
  induction es as [|e es IH]; intros hist H; simpl.
  - symmetry. apply map_id.
  - rewrite IH by (intros x Hx; apply H; now right).
    rewrite (applyEvent_inPlace e) by (apply H; now left).
    now rewrite map_map.
Qed.

Lemma fromRun_inPlace (e : Event) : fromRun e = true -> inPlace e = true.
Proof. destruct e as [m|]; [destruct m|]; simpl; congruence. Qed.

Lemma id_onRecord (m : Mutation) (h : ProcessedResult.t) :
  ProcessedResult.id (onRecord m h) = ProcessedResult.id h.
Proof. destruct m; reflexivity. Qed.

Lemma input_onRecord (m : Mutation) (h : ProcessedResult.t) :
  ProcessedResult.input (onRecord m h) = ProcessedResult.input h.
Proof. destruct m; reflexivity. Qed.

Lemma id_eventOnRecord (e : Event) (h : ProcessedResult.t) :
  ProcessedResult.id (eventOnRecord e h) = ProcessedResult.id h.
Proof.
  destruct e as [m|]; simpl; [|reflexivity].
  destruct (target m); [|reflexivity].
  destruct (ProcessedResult.id h =? s); [apply id_onRecord|reflexivity].
Qed.

Lemma id_recordAfter (es : list Event) :
  forall h, ProcessedResult.id (recordAfter es h) = ProcessedResult.id h.
Proof.
  unfold recordAfter. induction es as [|e es IH]; intros h; simpl; [reflexivity|].
  rewrite IH. apply id_eventOnRecord.
Qed.

Lemma recordAfter_app (es1 es2 : list Event) (h : ProcessedResult.t) :
  recordAfter (es1 ++ es2) h = recordAfter es2 (recordAfter es1 h).
Proof. unfold recordAfter. apply fold_left_app. Qed.

Lemma recordAfter_other (id : string) (es : list Event) :
  forall h,
    (forall e, In e es ->
       match e with
       | SetHistory m => target m = Some id
       | CallConsolidate _ _ _ => True
       end) ->
    (ProcessedResult.id h =? id) = false ->
    recordAfter es h = h.
Proof.
  unfold recordAfter. induction es as [|e es IH]; intros h H N; simpl; [reflexivity|].
  assert (E : eventOnRecord e h = h).
  { specialize (H e (or_introl eq_refl)). destruct e as [m|]; simpl; [|reflexivity].
    rewrite H, N. reflexivity. }
  rewrite E. apply IH; [intros x Hx; apply H; now right|exact N].
Qed.

(** A part of a record depends on the events that write it only. *)
Section PartOfRecord.

Context {X : Type} (proj : ProcessedResult.t -> X) (writes : Event -> bool).

Hypothesis skip :
  forall e h, fromRun e = true -> writes e = false ->
              proj (eventOnRecord e h) = proj h.

Hypothesis cong :
  forall e h1 h2,
    writes e = true ->
    ProcessedResult.id h1 = ProcessedResult.id h2 -> proj h1 = proj h2 ->
    proj (eventOnRecord e h1) = proj (eventOnRecord e h2).

Lemma part_recordAfter (es : list Event) :
  forall h1 h2,
    (forall e, In e es -> fromRun e = true) ->
    ProcessedResult.id h1 = ProcessedResult.id h2 -> proj h1 = proj h2 ->
    proj (recordAfter es h1) = proj (recordAfter (filter writes es) h2).
Proof.
  unfold recordAfter.
  induction es as [|e es IH]; intros h1 h2 R I P; simpl; [exact P|].
  assert (R' : forall x, In x es -> fromRun x = true) by (intros x Hx; apply R; now right).
  destruct (writes e) eqn:W; simpl.
  - apply IH; [exact R'| |].
    + now rewrite !id_eventOnRecord.
    + now apply cong.
  - apply IH; [exact R'| |].
    + now rewrite id_eventOnRecord.
    + rewrite skip; [exact P|apply R; now left|exact W].
Qed.

End PartOfRecord.

Ltac by_event e :=
  destruct e as [[]|]; simpl; try discriminate; try reflexivity.

Lemma flash_skip e h :
  fromRun e = true -> writesFlash e = false ->
  ProcessedResult.flash (eventOnRecord e h) = ProcessedResult.flash h.
Proof.
  by_event e; intros _ _; destruct (ProcessedResult.id h =? id); reflexivity.
Qed.

Lemma flash_cong e h1 h2 :
  writesFlash e = true ->
  ProcessedResult.id h1 = ProcessedResult.id h2 ->
  ProcessedResult.flash h1 = ProcessedResult.flash h2 ->
  ProcessedResult.flash (eventOnRecord e h1) = ProcessedResult.flash (eventOnRecord e h2).
Proof.
  by_event e; intros _ I F; rewrite I;
    destruct (ProcessedResult.id h2 =? id); simpl; congruence.
Qed.

Lemma pro_skip e h :
  fromRun e = true -> writesPro e = false ->
  ProcessedResult.pro (eventOnRecord e h) = ProcessedResult.pro h.
Proof.
  by_event e; intros _ _; destruct (ProcessedResult.id h =? id); reflexivity.
Qed.

Lemma pro_cong e h1 h2 :
  writesPro e = true ->
  ProcessedResult.id h1 = ProcessedResult.id h2 ->
  ProcessedResult.pro h1 = ProcessedResult.pro h2 ->
  ProcessedResult.pro (eventOnRecord e h1) = ProcessedResult.pro (eventOnRecord e h2).
Proof.
  by_event e; intros _ I F; rewrite I;
    destruct (ProcessedResult.id h2 =? id); simpl; congruence.
Qed.

Lemma consolidated_skip e h :
  fromRun e = true -> writesConsolidated e = false ->
  ProcessedResult.consolidated (eventOnRecord e h) = ProcessedResult.consolidated h.
Proof.
  by_event e; intros _ _; destruct (ProcessedResult.id h =? id); reflexivity.
Qed.

Lemma consolidated_cong e h1 h2 :
  writesConsolidated e = true ->
  ProcessedResult.id h1 = ProcessedResult.id h2 ->
  ProcessedResult.consolidated h1 = ProcessedResult.consolidated h2 ->
  ProcessedResult.consolidated (eventOnRecord e h1)
  = ProcessedResult.consolidated (eventOnRecord e h2).
Proof.
  by_event e; intros _ I F; rewrite I;
    destruct (ProcessedResult.id h2 =? id); simpl; congruence.
Qed.

Lemma summary_skip e h :
  fromRun e = true -> writesSummary e = false ->
  ProcessedResult.summary (eventOnRecord e h) = ProcessedResult.summary h.
Proof.
  by_event e; intros _ _; destruct (ProcessedResult.id h =? id); reflexivity.
Qed.

Lemma summary_cong e h1 h2 :
  writesSummary e = true ->
  ProcessedResult.id h1 = ProcessedResult.id h2 ->
  ProcessedResult.summary h1 = ProcessedResult.summary h2 ->
  ProcessedResult.summary (eventOnRecord e h1) = ProcessedResult.summary (eventOnRecord e h2).
Proof.
  by_event e; intros _ I F; rewrite I;
    destruct (ProcessedResult.id h2 =? id); simpl; congruence.
Qed.

(** ** One run of the orchestrator *)



Lemma in_updates_last (texts : list string) (last c : Call) :
  In c (map OnUpdate texts ++ [last]) -> terminal c = true -> c = last.
Proof.
  intros H T. apply in_app_or in H. destruct H as [H|[H|[]]]; [|now symmetry].
  apply in_map_iff in H. destruct H as (t & <- & _). discriminate.
Qed.



Lemma flash_after_path (id : string) (d : number) (texts : list string)
    (last : Call) (h : ProcessedResult.t) :
  ProcessedResult.id h = id -> terminal last = true ->
  ModelResolution.status
    (ProcessedResult.flash
       (recordAfter (map (flashCallback id d) (map OnUpdate texts ++ [last])) h))
  = match last with OnComplete _ => completed | _ => error end.
Proof.
  intros I T. rewrite map_app, recordAfter_app. simpl.
  set (h1 := recordAfter _ h).
  assert (E : (ProcessedResult.id h1 =? id) = true).
  { unfold h1. rewrite id_recordAfter, I. apply String.eqb_refl. }
  destruct last; try discriminate; unfold recordAfter; simpl; rewrite E; reflexivity.
Qed.

Lemma pro_after_path (id : string) (d : number) (texts : list string)
    (last : Call) (h : ProcessedResult.t) :
  ProcessedResult.id h = id -> terminal last = true ->
  ModelResolution.status
    (ProcessedResult.pro
       (recordAfter (map (proCallback id d) (map OnUpdate texts ++ [last])) h))
  = match last with OnComplete _ => completed | _ => error end.
Proof.
  intros I T. rewrite map_app, recordAfter_app. simpl.
  set (h1 := recordAfter _ h).
  assert (E : (ProcessedResult.id h1 =? id) = true).
  { unfold h1. rewrite id_recordAfter, I. apply String.eqb_refl. }
  destruct last; try discriminate; unfold recordAfter; simpl; rewrite E; reflexivity.
Qed.

Section RunFacts.

Variable JSON_parse : string -> string + Payload.
Variable env : RunEnv.
Variable item : InputData.t.

Lemma flashCalls_shape (mode : ProcessingMode) :
  runsFlash mode = true ->
  exists texts last,
    flashCalls JSON_parse env mode = (map OnUpdate texts ++ [last])%list
    /\ terminal last = true.
Proof.
  intros R. unfold flashCalls, mergeWithFlash. rewrite R.
  destruct (streamingMerge_shape JSON_parse neverThrows (fun _ => eq_refl)
              "Parse Error: Output was not valid JSON. "
              "API Error: " "Unknown network error occurred." (flashRemote env))
    as (texts & last & E & T).
  exists texts, last. now rewrite E.
Qed.

Lemma proCalls_shape (mode : ProcessingMode) :
  runsPro mode = true ->
  exists texts last,
    proCalls JSON_parse env mode = (map OnUpdate texts ++ [last])%list
    /\ terminal last = true.
Proof.
  intros R. unfold proCalls, mergeWithProStream. rewrite R.
  destruct (streamingMerge_shape JSON_parse neverThrows (fun _ => eq_refl)
              "Structure Error: Deep reasoning failed to produce expected schema. "
              "Pro Engine Fault: "
              "An unexpected error occurred in the reasoning phase." (proRemote env))
    as (texts & last & E & T).
  exists texts, last. now rewrite E.
Qed.

Lemma in_flashEvents mode e :
  In e (flashEvents JSON_parse env item mode) ->
  partOf e = FlashPart /\ fromRun e = true
  /\ exists m, e = SetHistory m /\ target m = Some (InputData.id item).
Proof.
  unfold flashEvents. intros H. apply in_map_iff in H.
  destruct H as (c & <- & _).
  destruct c; simpl; repeat split; eexists; split; reflexivity.
Qed.

Lemma in_proEvents mode e :
  In e (proEvents JSON_parse env item mode) ->
  partOf e = ProPart /\ fromRun e = true
  /\ exists m, e = SetHistory m /\ target m = Some (InputData.id item).
Proof.
  unfold proEvents. intros H. apply in_map_iff in H.
  destruct H as (c & <- & _).
  destruct c; simpl; repeat split; eexists; split; reflexivity.
Qed.

Lemma in_consolidationEvents mode e :
  In e (consolidationEvents JSON_parse env item mode) ->
  (partOf e = ConsolidatedPart \/ partOf e = NoPart) /\ fromRun e = true
  /\ match e with
     | SetHistory m => target m = Some (InputData.id item)
     | CallConsolidate _ _ _ => True
     end.
Proof.
  unfold consolidationEvents.
  destruct mode; try (intros []).
  destruct (lastCompleted _); [|intros []].
  destruct (lastCompleted _); [|intros []].
  destruct (consolidateResults JSON_parse (arbiterRemote env));
    simpl; intros [<-|[<-|[<-|[]]]]; simpl; auto.
Qed.

(** Every event of a run is an in-place update of the records with the
    item's id, or the call of the arbiter. *)
Lemma in_executeItemProcessing mode e :
  In e (executeItemProcessing JSON_parse env item mode) ->
  fromRun e = true
  /\ match e with
     | SetHistory m => target m = Some (InputData.id item)
     | CallConsolidate _ _ _ => True
     end.
Proof.
  unfold executeItemProcessing, mainEvents, pathEvents. intros H.
  apply in_insertAt in H. destruct H as [->|H]; [now split|].
  apply in_app_or in H. destruct H as [H|H].
  - apply in_interleave in H. destruct H as [H|H].
    + apply in_flashEvents in H. destruct H as (_ & R & m & -> & T). now split.
    + apply in_proEvents in H. destruct H as (_ & R & m & -> & T). now split.
  - apply in_consolidationEvents in H. tauto.
Qed.

Lemma executeItemProcessing_flash mode :
  filter writesFlash (executeItemProcessing JSON_parse env item mode) = flashEvents JSON_parse env item mode.
Proof.
  unfold executeItemProcessing, mainEvents, pathEvents.
  rewrite filter_insertAt_skip by reflexivity.
  rewrite filter_app.
  rewrite filter_interleave_l, (filter_none writesFlash (consolidationEvents _ _ _ _)).
  - apply app_nil_r.
  - intros e H. apply in_consolidationEvents in H. unfold writesFlash.
    destruct H as ([-> | ->] & _); reflexivity.
  - intros e H. apply in_flashEvents in H. unfold writesFlash.
    destruct H as (-> & _). reflexivity.
  - intros e H. apply in_proEvents in H. unfold writesFlash.
    destruct H as (-> & _). reflexivity.
Qed.

Lemma executeItemProcessing_pro mode :
  filter writesPro (executeItemProcessing JSON_parse env item mode) = proEvents JSON_parse env item mode.
Proof.
  unfold executeItemProcessing, mainEvents, pathEvents.
  rewrite filter_insertAt_skip by reflexivity.
  rewrite filter_app.
  rewrite filter_interleave_r, (filter_none writesPro (consolidationEvents _ _ _ _)).
  - apply app_nil_r.
  - intros e H. apply in_consolidationEvents in H. unfold writesPro.
    destruct H as ([-> | ->] & _); reflexivity.
  - intros e H. apply in_flashEvents in H. unfold writesPro.
    destruct H as (-> & _). reflexivity.
  - intros e H. apply in_proEvents in H. unfold writesPro.
    destruct H as (-> & _). reflexivity.
Qed.

Lemma pathEvents_filter (p : Event -> bool) mode :
  (forall e, partOf e = FlashPart \/ partOf e = ProPart -> p e = false) ->
  filter p (pathEvents JSON_parse env item mode) = [].
Proof.
  intros N. apply filter_none. intros e H. unfold pathEvents in H.
  apply in_interleave in H. destruct H as [H|H].
  - apply in_flashEvents in H. apply N. tauto.
  - apply in_proEvents in H. apply N. tauto.
Qed.

Lemma executeItemProcessing_consolidated mode :
  filter writesConsolidated (executeItemProcessing JSON_parse env item mode)
  = filter writesConsolidated (consolidationEvents JSON_parse env item mode).
Proof.
  unfold executeItemProcessing, mainEvents.
  rewrite filter_insertAt_skip by reflexivity.
  rewrite filter_app, pathEvents_filter; [reflexivity|].
  unfold writesConsolidated. intros e [-> | ->]; reflexivity.
Qed.

Lemma executeItemProcessing_attempts mode :
  consolidationAttempts (executeItemProcessing JSON_parse env item mode)
  = consolidationAttempts (consolidationEvents JSON_parse env item mode).
Proof.
  unfold consolidationAttempts, executeItemProcessing, mainEvents.
  rewrite filter_insertAt_skip by reflexivity.
  rewrite filter_app, pathEvents_filter; [reflexivity|].
  intros e H. destruct e; [reflexivity|]. destruct H; discriminate.
Qed.

End RunFacts.






(** ** The summary side channel *)

Lemma summarizeTranscript_fault (remote : UnaryRemote) :
  summaryFaults remote = true ->
  summarizeTranscript remote = "Summary generation failed.".
Proof.
  unfold summaryFaults, summarizeTranscript.
  destruct (getClient (unary_API_KEY remote)); [reflexivity|].
  destruct (generateContent remote) as [e|[text|]]; try reflexivity. discriminate.
Qed.

Lemma summary_commutes (id s : string) (e : Event) (h : ProcessedResult.t) :
  fromRun e = true -> writesSummary e = false ->
  eventOnRecord e (eventOnRecord (SetHistory (SetSummary id s)) h)
  = eventOnRecord (SetHistory (SetSummary id s)) (eventOnRecord e h).
Proof.
  destruct h as [hid hin hf hp hc hs].
  destruct e as [[]|]; simpl; try discriminate; try reflexivity; intros _ _;
    destruct (hid =? id) eqn:E1; simpl; rewrite ?E1;
    destruct (hid =? id0) eqn:E2; simpl; rewrite ?E1, ?E2; reflexivity.
Qed.

Lemma summary_moves_last (id s : string) (es : list Event) :
  forall h,
    (forall e, In e es -> fromRun e = true /\ writesSummary e = false) ->
    recordAfter es (eventOnRecord (SetHistory (SetSummary id s)) h)
    = eventOnRecord (SetHistory (SetSummary id s)) (recordAfter es h).
Proof.
  unfold recordAfter. induction es as [|e es IH]; intros h H; cbn [fold_left];
    [reflexivity|].
  destruct (H e (or_introl eq_refl)) as [R W].
  rewrite summary_commutes by assumption.
  apply IH. intros x Hx. apply H. now right.
Qed.

Lemma in_mainEvents JSON_parse env item mode e :
  In e (mainEvents JSON_parse env item mode) ->
  fromRun e = true /\ writesSummary e = false.
Proof.
  unfold mainEvents, pathEvents, writesSummary. intros H.
  apply in_app_or in H. destruct H as [H|H].
  - apply in_interleave in H. destruct H as [H|H].
    + apply in_flashEvents in H. destruct H as (-> & R & _). now split.
    + apply in_proEvents in H. destruct H as (-> & R & _). now split.
  - apply in_consolidationEvents in H. destruct H as ([-> | ->] & R & _); now split.
Qed.

Lemma recordAfter_insert_summary (id s : string) (n : nat) (es : list Event)
    (h : ProcessedResult.t) :
  (forall e, In e es -> fromRun e = true /\ writesSummary e = false) ->
  recordAfter (insertAt n (SetHistory (SetSummary id s)) es) h
  = eventOnRecord (SetHistory (SetSummary id s)) (recordAfter es h).
Proof.
  intros H. unfold insertAt. rewrite recordAfter_app.
  change (recordAfter (SetHistory (SetSummary id s) :: skipn n es) ?x)
    with (recordAfter (skipn n es) (eventOnRecord (SetHistory (SetSummary id s)) x)).
  rewrite summary_moves_last.
  - now rewrite <- recordAfter_app, firstn_skipn.
  - intros e He. apply H. rewrite <- (firstn_skipn n es). apply in_or_app. now right.
Qed.

(** The final history of a run is the history of the same run without its
    summary request, with the summary written on the item's records. *)
Lemma summary_is_a_separate_write JSON_parse env item mode hist :
  applyEvents (executeItemProcessing JSON_parse env item mode) hist
  = mapRecord (InputData.id item)
      (fun h => ProcessedResult.withSummary h (summarizeTranscript (summaryRemote env)))
      (applyEvents (mainEvents JSON_parse env item mode) hist).
Proof.
  rewrite !applyEvents_inPlace.
  - unfold mapRecord. rewrite map_map. apply map_ext. intros h.
    unfold executeItemProcessing, summaryEvent.
    rewrite recordAfter_insert_summary by apply in_mainEvents. reflexivity.
  - intros e H. apply fromRun_inPlace. now apply in_mainEvents in H.
  - intros e H. apply fromRun_inPlace. now apply in_executeItemProcessing in H.
Qed.

(** C5, as the code has it. When the summary request faults,
    [summarizeTranscript] resolves to the sentinel "Summary generation
    failed." and that sentinel is written to the [summary] field of the
    item's records; every other field of every record is what the run
    gives without its summary request. *)
Theorem summary_fault_writes_the_sentinel
    (JSON_parse : string -> string + Payload)
    (env : RunEnv) (item : InputData.t) (mode : ProcessingMode)
    (hist : list ProcessedResult.t) :
  summaryFaults (summaryRemote env) = true ->
  let after := applyEvents (executeItemProcessing JSON_parse env item mode) hist in
  let unsummarized := applyEvents (mainEvents JSON_parse env item mode) hist in
  summarizeTranscript (summaryRemote env) = "Summary generation failed."
  /\ after
     = mapRecord (InputData.id item)
         (fun h => ProcessedResult.withSummary h "Summary generation failed.")
         unsummarized
  /\ forall n h,
       nth_error after n = Some h ->
       exists h0,
         nth_error unsummarized n = Some h0
         /\ sameButSummary h h0
         /\ (ProcessedResult.id h = InputData.id item ->
             ProcessedResult.summary h = Some "Summary generation failed.")
         /\ (ProcessedResult.id h <> InputData.id item ->
             ProcessedResult.summary h = ProcessedResult.summary h0).
Proof.
  intros F after unsummarized.
  assert (S := summarizeTranscript_fault _ F).
  assert (E : after
              = mapRecord (InputData.id item)
                  (fun h => ProcessedResult.withSummary h "Summary generation failed.")
                  unsummarized).
  { unfold after. rewrite summary_is_a_separate_write, S. reflexivity. }
  split; [exact S|]. split; [exact E|].
  intros n h H. rewrite E in H. unfold mapRecord in H.
  rewrite nth_error_map in H.
  destruct (nth_error unsummarized n) as [h0|]; [|discriminate].
  exists h0. split; [reflexivity|]. simpl in H. injection H as <-.
  destruct (ProcessedResult.id h0 =? InputData.id item) eqn:I.
  - split; [|split].
    + unfold sameButSummary. simpl. tauto.
    + intros _. reflexivity.
    + intros N. apply String.eqb_eq in I. now destruct N.
  - split; [|split].
    + unfold sameButSummary. tauto.
    + intros N. rewrite N, String.eqb_refl in I. discriminate.
    + intros _. reflexivity.
Qed.

(** C5 witness: the sample run, whose summary request is rejected. *)
Lemma summary_fault_writes_the_sentinel_witness :
  summarizeTranscript (summaryRemote sampleEnv) = "Summary generation failed."
  /\ applyEvents (executeItemProcessing parseSample sampleEnv adaItem Both)
       [newEntry Both adaItem]
     = mapRecord (InputData.id adaItem)
         (fun h => ProcessedResult.withSummary h "Summary generation failed.")
         (applyEvents (mainEvents parseSample sampleEnv adaItem Both)
            [newEntry Both adaItem]).
Proof.
  destruct (summary_fault_writes_the_sentinel parseSample sampleEnv adaItem Both
              [newEntry Both adaItem] eq_refl) as (S & E & _).
  split; [exact S|exact E].
Defined.

(** C5 as stated fails: after a faulting summary request the record's
    [summary] field is present (it holds the sentinel), not absent. *)
Lemma summary_fault_leaves_summary_present :
  summaryFaults (summaryRemote sampleEnv) = true
  /\ map ProcessedResult.summary
       (applyEvents (executeItemProcessing parseSample sampleEnv adaItem Both)
          [newEntry Both adaItem])
     = [Some "Summary generation failed."]
  /\ map ProcessedResult.summary
       (applyEvents (executeItemProcessing parseSample sampleEnv adaItem Both)
          [newEntry Both adaItem])
     <> [None].
Proof.
  split; [reflexivity|].
  assert (E : map ProcessedResult.summary
                (applyEvents (executeItemProcessing parseSample sampleEnv adaItem Both)
                   [newEntry Both adaItem])
              = [Some "Summary generation failed."]) by (vm_compute; reflexivity).
  split; [exact E|]. rewrite E. discriminate.
Qed.

(** ** Retry *)

Lemma nth_error_mapRecord id f hist n :
  nth_error (mapRecord id f hist) n
  = option_map (fun h => if ProcessedResult.id h =? id then f h else h)
      (nth_error hist n).
Proof. unfold mapRecord. apply nth_error_map. Qed.

(** A run leaves the records with another id as they are. *)
Lemma run_leaves_other_records JSON_parse env item mode hist n h :
  nth_error hist n = Some h ->
  ProcessedResult.id h <> InputData.id item ->
  nth_error (applyEvents (executeItemProcessing JSON_parse env item mode) hist) n
  = Some h.
Proof.
  intros H N. rewrite applyEvents_inPlace.
  - rewrite nth_error_map, H. simpl. f_equal.
    apply (recordAfter_other (InputData.id item)).
    + intros e He. apply in_executeItemProcessing in He. destruct e; tauto.
    + apply String.eqb_neq. exact N.
  - intros e He. apply fromRun_inPlace. now apply in_executeItemProcessing in He.
Qed.

(** C3. For a record id present in the history, [handleRetry] resets the
    paths of the currently selected mode (state Running, empty log, empty
    streamed text, payload kept), drops the consolidated result, calls the
    orchestrator on the stored input of the record it looked up with the
    selected mode, and leaves every record with another id, and the rest
    of the state, unchanged; the run it starts writes to no record with
    another id than its item's. *)
Theorem retry_resets_selected_paths_only
    (s : App) (recordId : string) (itemEntry : ProcessedResult.t) :
  find (fun h => ProcessedResult.id h =? recordId) (history s) = Some itemEntry ->
  let s' := fst (handleRetry s recordId) in
  let mode := selectedMode s in
  snd (handleRetry s recordId) = Some (ProcessedResult.input itemEntry, mode)
  /\ length (history s') = length (history s)
  /\ (forall n h,
        nth_error (history s) n = Some h ->
        ProcessedResult.id h = recordId ->
        exists h',
          nth_error (history s') n = Some h'
          /\ ProcessedResult.id h' = ProcessedResult.id h
          /\ ProcessedResult.input h' = ProcessedResult.input h
          /\ ProcessedResult.summary h' = ProcessedResult.summary h
          /\ ProcessedResult.consolidated h' = None
          /\ ProcessedResult.flash h'
             = (if runsFlash mode
                then ModelResolution.mk
                       (ModelResolution.output (ProcessedResult.flash h)) []
                       (ModelResolution.durationMs (ProcessedResult.flash h))
                       processing (Some "")
                else ProcessedResult.flash h)
          /\ ProcessedResult.pro h'
             = (if runsPro mode
                then ModelResolution.mk
                       (ModelResolution.output (ProcessedResult.pro h)) []
                       (ModelResolution.durationMs (ProcessedResult.pro h))
                       processing (Some "")
                else ProcessedResult.pro h))
  /\ (forall n h,
        nth_error (history s) n = Some h ->
        ProcessedResult.id h <> recordId ->
        nth_error (history s') n = Some h)
  /\ (queue s' = queue s /\ queueRef s' = queueRef s
      /\ isProcessing s' = isProcessing s /\ selectedMode s' = selectedMode s
      /\ tasks s' = tasks s)
  /\ (forall JSON_parse env hist n h,
        nth_error hist n = Some h ->
        ProcessedResult.id h <> InputData.id (ProcessedResult.input itemEntry) ->
        nth_error
          (applyEvents
             (executeItemProcessing JSON_parse env (ProcessedResult.input itemEntry) mode)
             hist) n
        = Some h).
Proof.
  intros F s' mode. unfold s', handleRetry. rewrite F. simpl.
  split; [reflexivity|]. split; [apply length_map|].
  split; [|split; [|split]].
  - intros n h H I. rewrite nth_error_mapRecord, H. simpl.
    rewrite I, String.eqb_refl. eexists. split; [reflexivity|].
    simpl. repeat split; auto.
  - intros n h H N. rewrite nth_error_mapRecord, H. simpl.
    apply String.eqb_neq in N. now rewrite N.
  - repeat split.
  - intros JSON_parse env hist n h H N. now apply run_leaves_other_records.
Qed.

(** C3 witness: a record resolved on both paths and consolidated is
    retried under mode [Flash]. Its fast path is reset (log and streamed
    text emptied, payload and duration kept), its deep path is as it was,
    its consolidated result is dropped, and the record after it is
    untouched. *)
Lemma retry_resets_selected_paths_only_witness :
  snd (handleRetry settledApp "A1") = Some (adaItem, Flash)
  /\ (exists h',
        nth_error (history (fst (handleRetry settledApp "A1"))) 0 = Some h'
        /\ ProcessedResult.summary h' = Some "Ada asks for the Gold tier."
        /\ ProcessedResult.consolidated h' = None
        /\ ProcessedResult.flash h'
           = ModelResolution.mk (Some adaProfile) [] 120%float processing (Some "")
        /\ ProcessedResult.pro h'
           = ModelResolution.mk (Some namelessProfile) ["Pro: Deep reasoning complete."]
               900%float completed (Some ("```json" ++ adaDocument)))
  /\ nth_error (history (fst (handleRetry settledApp "A1"))) 1
     = Some (newEntry Both benItem).
Proof.
  destruct (retry_resets_selected_paths_only settledApp "A1" goldenRecord eq_refl)
    as (C & _ & R & O & _).
  split; [exact C|]. split.
  - destruct (R 0 goldenRecord eq_refl eq_refl) as (h' & N & _ & _ & S & K & F & P).
    exists h'. split; [exact N|]. split; [exact S|]. split; [exact K|].
    split; [exact F|exact P].
  - apply (O 1 (newEntry Both benItem) eq_refl). discriminate.
Defined.

(** ** Export *)

(** C7, as the code has it. The row is built from the first profile
    present in the order consolidated, deep, fast. Each text field takes
    that profile's value when it is not empty, the confidence when it is
    neither zero nor NaN; an empty field, like a missing profile, falls
    back to the source record's name (Customer), to "N/A" (Sentiment,
    Intent, Tier) or to 0 (Confidence). *)
Theorem csv_fields_follow_the_fallback_chain (h : ProcessedResult.t) :
  let source :=
    CustomerRecord.name (InputData.customerRecord (ProcessedResult.input h)) in
  effectiveOutput h
  = match ProcessedResult.consolidated h with
    | Some (ModelResolution.mk (Some golden) _ _ _ _) => Some golden
    | _ =>
        match ModelResolution.output (ProcessedResult.pro h) with
        | Some deep => Some deep
        | None => ModelResolution.output (ProcessedResult.flash h)
        end
    end
  /\ (forall p,
        effectiveOutput h = Some p ->
        csvCells h
        = [ Str (ProcessedResult.id h);
            Str (if truthy (MergedProfile.name p) then MergedProfile.name p else source);
            Str (Sentiment_str (MergedProfile.latest_sentiment p));
            Str (if truthy (MergedProfile.identified_intent p)
                 then MergedProfile.identified_intent p else "N/A");
            Num (if numTruthy (MergedProfile.confidence_score p)
                 then MergedProfile.confidence_score p else 0%float);
            Str (if truthy (MergedProfile.current_tier p)
                 then MergedProfile.current_tier p else "N/A") ])
  /\ (effectiveOutput h = None ->
      csvCells h
      = [ Str (ProcessedResult.id h); Str source; Str "N/A"; Str "N/A";
          Num 0%float; Str "N/A" ]).
Proof.
  intros source. split; [|split].
  - unfold effectiveOutput, firstSome.
    destruct (ProcessedResult.consolidated h) as [[[golden|] ? ? ? ?]|]; simpl;
      try reflexivity;
      destruct (ModelResolution.output (ProcessedResult.pro h)); reflexivity.
  - intros p E. unfold csvCells. rewrite E. unfold fieldOr, orElse.
    destruct (MergedProfile.latest_sentiment p); reflexivity.
  - intros E. unfold csvCells. rewrite E. reflexivity.
Qed.

(** The scenario of the specification: with a fast result only, the row
    shows the fast profile's name, sentiment, intent, confidence and tier. *)
Example csv_row_of_a_fast_only_record :
  csvCells fastOnlyRecord
  = [Str "A1"; Str "Ada Spade"; Str "Positive"; Str "Upgrade tier";
     Num 0.75%float; Str "Gold"].
Proof. reflexivity. Qed.

(** C7 as stated fails: a profile is present, yet the Customer field is
    the source record's name, because the profile's own name is empty. *)
Lemma csv_customer_not_sourced_from_present_profile :
  effectiveOutput namelessRecord = Some namelessProfile
  /\ nth_error (csvCells namelessRecord) 1 = Some (Str "Ada Spade")
  /\ ~ sourcedFromProfile namelessRecord.
Proof.
  split; [reflexivity|]. split; [reflexivity|].
  intros H. specialize (H namelessProfile eq_refl).
  cbv in H. discriminate H.
Qed.

Lemma commas_app (a b : string) : commas (a ++ b) = commas a + commas b.
Proof.
  induction a as [|c a IH]; simpl; [reflexivity|]. rewrite IH. lia.
Qed.

Lemma commas_sentiment (out : option MergedProfile.t) :
  commas (fieldOr out (fun p => Sentiment_str (MergedProfile.latest_sentiment p)) "N/A")
  = 0.
Proof.
  destruct out as [p|]; [|reflexivity]. simpl.
  destruct (MergedProfile.latest_sentiment p); reflexivity.
Qed.

(** C10. A row is its six values joined by commas, with no quoting or
    escaping: the header has six columns, a row has six columns plus one
    for every comma inside its values, so more than six as soon as the
    effective name, intent or tier contains a comma. *)
Theorem csv_rows_are_joined_without_quoting
    (Number_toString : number -> string) (h : ProcessedResult.t) :
  let out := effectiveOutput h in
  let customer :=
    fieldOr out MergedProfile.name
      (CustomerRecord.name (InputData.customerRecord (ProcessedResult.input h))) in
  let sentiment :=
    fieldOr out (fun p => Sentiment_str (MergedProfile.latest_sentiment p)) "N/A" in
  let intent := fieldOr out MergedProfile.identified_intent "N/A" in
  let confidence :=
    Number_toString
      match out with
      | Some p =>
          if numTruthy (MergedProfile.confidence_score p)
          then MergedProfile.confidence_score p
          else 0%float
      | None => 0%float
      end in
  let tier := fieldOr out MergedProfile.current_tier "N/A" in
  csvRow Number_toString h
  = ProcessedResult.id h ++ "," ++ customer ++ "," ++ sentiment ++ ","
      ++ intent ++ "," ++ confidence ++ "," ++ tier
  /\ columns (String.concat "," headers) = 6
  /\ columns (csvRow Number_toString h)
     = 6 + commas (ProcessedResult.id h) + commas customer + commas intent
       + commas confidence + commas tier
  /\ (0 < commas customer \/ 0 < commas intent \/ 0 < commas tier ->
      6 < columns (csvRow Number_toString h)).
Proof.
  intros out customer sentiment intent confidence tier.
  assert (E : csvRow Number_toString h
              = ProcessedResult.id h ++ "," ++ customer ++ "," ++ sentiment ++ ","
                  ++ intent ++ "," ++ confidence ++ "," ++ tier) by reflexivity.
  assert (C : columns (csvRow Number_toString h)
              = 6 + commas (ProcessedResult.id h) + commas customer + commas intent
                + commas confidence + commas tier).
  { rewrite E. unfold columns. rewrite !commas_app.
    unfold sentiment, out. rewrite commas_sentiment. simpl. lia. }
  split; [exact E|]. split; [reflexivity|]. split; [exact C|].
  intros H. rewrite C. lia.
Qed.

(** A source name with a comma: the row of a record without any profile
    reads as seven columns. *)
Example csv_row_with_a_comma_in_the_name :
  csvRow (fun _ => "0") (newEntry Both benItem) = "B2,Heart, Ben,N/A,N/A,0,N/A"
  /\ columns (csvRow (fun _ => "0") (newEntry Both benItem)) = 7.
Proof. split; reflexivity. Qed.

(** ** The drain loop *)

Lemma serial_app q l1 qm l2 q' :
  serial q l1 qm -> serial qm l2 q' -> serial q (l1 ++ l2) q'.
Proof.
  induction 1 as [|q o q1 obs q2 F S IH]; intros H; simpl; [exact H|].
  econstructor; [exact F|now apply IH].
Qed.

Lemma serial_app_inv l1 :
  forall q l2 q',
    serial q (l1 ++ l2) q' -> exists qm, serial q l1 qm /\ serial qm l2 q'.
Proof.
  induction l1 as [|o l1 IH]; intros q l2 q' H; simpl in H.
  - exists q. split; [constructor|exact H].
  - inversion H as [|? ? q1 ? ? F S]; subst.
    destruct (IH _ _ _ S) as (qm & S1 & S2).
    exists qm. split; [econstructor; eassumption|exact S2].
Qed.

Create HintDb drain.
#[local] Hint Constructors follows serial : drain.

(** Each handler moves the loop from one suspended phase to another along
    the observations it makes. *)
Lemma step_serial (s : App) (q : Phase) (a : Action) :
  inPhase s q ->
  exists q', serial q (snd (step s a)) q' /\ inPhase (fst (step s a)) q'.
Proof.
  destruct s as [qu hist ip sm qr ts]. unfold inPhase. simpl.
  intros [-> P].
  destruct a as [nd|ni| | |m| |rid|n|n|mu]; simpl.
  - exists q. split; [constructor|now split].
  - exists q. split; [constructor|now split].
  - exists q. split; [constructor|now split].
  - exists q. split; [constructor|now split].
  - exists q. split; [constructor|now split].
  - unfold processQueue. simpl.
    destruct q; try contradiction; destruct P as [-> ->]; simpl;
      try (eexists; split; [constructor|now split]).
    destruct qu as [|item rest]; simpl.
    + exists Idle. split; [constructor|now split].
    + exists (Running sm item). split; [eauto 6 with drain|now split].
  - unfold handleRetry. simpl.
    destruct (find _ hist); simpl.
    + destruct q; try contradiction;
        (eexists; split; [eauto with drain|now split]).
    + exists q. split; [constructor|now split].
  - destruct q; try contradiction; destruct P as [-> ->].
    + destruct n; simpl; (exists Idle; split; [constructor|now split]).
    + destruct n as [|n]; simpl.
      * unfold afterOrchestrator. simpl.
        destruct qu as [|next rest]; simpl;
          (eexists; split; [eauto with drain|now split]).
      * destruct n; simpl; (eexists; split; [constructor|now split]).
    + destruct n as [|[|n]]; simpl; (eexists; split; [constructor|now split]).
  - destruct q; try contradiction; destruct P as [-> ->].
    + destruct n; simpl; (exists Idle; split; [constructor|now split]).
    + destruct n as [|[|n]]; simpl; (eexists; split; [constructor|now split]).
    + destruct n as [|n]; simpl.
      * unfold processNext. simpl.
        destruct qu as [|next rest]; simpl;
          (eexists; split; [eauto 6 with drain|now split]).
      * destruct n; simpl; (eexists; split; [constructor|now split]).
  - destruct (orchestratorMutation mu); simpl;
      (exists q; split; [constructor|now split]).
Qed.

Lemma run_serial (actions : list Action) :
  forall s q,
    inPhase s q ->
    exists q', serial q (snd (run s actions)) q' /\ inPhase (fst (run s actions)) q'.
Proof.
  induction actions as [|a rest IH]; intros s q P; simpl.
  - exists q. split; [constructor|exact P].
  - destruct (step_serial s q a P) as (q1 & S1 & P1).
    destruct (step s a) as [s1 obs1]. simpl in S1, P1.
    destruct (IH s1 q1 P1) as (q2 & S2 & P2).
    destruct (run s1 rest) as [s2 obs2]. simpl in S2, P2 |- *.
    exists q2. split; [eapply serial_app; eassumption|exact P2].
Qed.

Lemma loaded_idle (s : App) : loaded s -> inPhase s Idle.
Proof. unfold loaded, inPhase. tauto. Qed.

(** *** What an accepted sequence of observations tells *)

(** An invocation directly follows the append of the item's record. *)
Lemma invoked_after_append pre :
  forall q item m post q',
    serial q (pre ++ Invoked item m :: post) q' ->
    (q = Popped m item /\ pre = [])
    \/ exists pre', pre = (pre' ++ [Appended (newEntry m item)])%list.
Proof.
  induction pre as [|o pre IH]; intros q item m post q' H; simpl in H.
  - inversion H as [|? ? q1 ? ? F S]; subst. inversion F; subst. now left.
  - inversion H as [|? ? q1 ? ? F S]; subst. right.
    destruct (IH _ _ _ _ _ S) as [[-> ->]|(pre' & ->)].
    + inversion F; subst; now exists [].
    + now exists (o :: pre').
Qed.

Lemma settledThenSeparated_cons o item mid :
  settledThenSeparated item mid -> settledThenSeparated item (o :: mid).
Proof.
  intros (before & after & -> & S). now exists (o :: before), after.
Qed.

(** Between the invocation of one item and the next, the first has
    settled and, after that, the timer was set and has elapsed, or the
    drain stopped and a new one was started. *)
Lemma owed_before_invoke mid :
  forall q item m post q',
    serial q (mid ++ Invoked item m :: post) q' -> owes q mid.
Proof.
  induction mid as [|o mid IH]; intros q item m post q' H; simpl in H.
  - inversion H as [|? ? q1 ? ? F S]; subst. inversion F; subst. exact I.
  - inversion H as [|? ? q1 ? ? F S]; subst.
    specialize (IH _ _ _ _ _ S).
    inversion F; subst; cbn [owes] in *; auto.
    + exists m0. now left.
    + now exists [], mid.
    + left. now exists [], mid.
    + now left.
    + right. destruct IH as (m1 & H1). now exists [], mid, m1.
    + destruct IH as (m1 & H1). exists m1. now right.
    + now apply settledThenSeparated_cons.
    + now right.
Qed.

(** The mode of an invocation is the mode its drain started with. *)
Lemma invoked_with_drain_mode pre :
  forall q current item m post q',
    serial q (pre ++ Invoked item m :: post) q' ->
    (forall m0, phaseMode q = Some m0 -> current = Some m0) ->
    drainMode current pre = Some m.
Proof.
  induction pre as [|o pre IH]; intros q current item m post q' H C; simpl in H.
  - inversion H as [|? ? q1 ? ? F S]; subst. inversion F; subst.
    simpl. now apply C.
  - inversion H as [|? ? q1 ? ? F S]; subst.
    inversion F; subst; simpl;
      (eapply IH; [eassumption|]); simpl; intros m1 E;
      try discriminate; try (injection E as <-); auto.
Qed.

(** *** First in, first out *)

Lemma ids_mapRecord id f hist :
  (forall h, ProcessedResult.id (f h) = ProcessedResult.id h) ->
  ids (mapRecord id f hist) = ids hist.
Proof.
  intros H. unfold ids, mapRecord. rewrite map_map. apply map_ext.
  intros h. destruct (ProcessedResult.id h =? id); [apply H|reflexivity].
Qed.

Lemma ids_applyMutation m hist :
  match m with Append _ | Clear => False | _ => True end ->
  ids (applyMutation m hist) = ids hist.
Proof.
  destruct m; simpl; try contradiction; intros _;
    apply ids_mapRecord; intros h; reflexivity.
Qed.

Lemma step_fifo (s : App) (a : Action) :
  queueRef s = queue s -> clears a = false ->
  (ids (history (fst (step s a))) ++ itemIds (queueRef (fst (step s a))))%list
  = (ids (history s) ++ itemIds (queueRef s) ++ itemIds (enqueued [a]))%list.
Proof.
  destruct s as [qu hist ip sm qr ts]. simpl. intros -> C.
  destruct a as [nd|ni| | |m| |rid|n|n|mu]; simpl; try discriminate;
    rewrite ?app_nil_r; try reflexivity.
  - unfold itemIds. now rewrite map_app.
  - unfold itemIds. now rewrite map_app.
  - unfold processQueue. simpl. destruct ip; simpl; [now rewrite ?app_nil_r|].
    destruct qu as [|item rest]; simpl; [reflexivity|].
    unfold ids. rewrite map_app. simpl. now rewrite <- app_assoc.
  - unfold handleRetry. simpl. destruct (find _ hist); simpl; [|reflexivity].
    fold (mapRecord rid (resetFor sm) hist).
    rewrite ids_mapRecord; [reflexivity|intros h; reflexivity].
  - destruct (nth_error ts n) as [[mode item|mode]|]; simpl; try reflexivity.
    unfold afterOrchestrator. simpl. destruct qu; reflexivity.
  - destruct (nth_error ts n) as [[mode item|mode]|]; simpl; try reflexivity.
    unfold processNext. simpl. destruct qu as [|item rest]; simpl; [reflexivity|].
    unfold ids. rewrite map_app. simpl. now rewrite <- app_assoc.
  - destruct (orchestratorMutation mu) eqn:O; simpl; [|reflexivity].
    rewrite ids_applyMutation; [reflexivity|]. destruct mu; try discriminate; exact I.
Qed.

Lemma step_keeps_queues_in_step (s : App) (a : Action) :
  queueRef s = queue s -> queueRef (fst (step s a)) = queue (fst (step s a)).
Proof.
  destruct s as [qu hist ip sm qr ts]. simpl. intros ->.
  destruct a as [nd|ni| | |m| |rid|n|n|mu]; simpl; try reflexivity.
  - unfold processQueue. simpl. destruct ip; simpl; [reflexivity|].
    destruct qu; reflexivity.
  - unfold handleRetry. simpl. destruct (find _ hist); reflexivity.
  - destruct (nth_error ts n) as [[mode item|mode]|]; simpl; try reflexivity.
    unfold afterOrchestrator. simpl. destruct qu; reflexivity.
  - destruct (nth_error ts n) as [[mode item|mode]|]; simpl; try reflexivity.
    unfold processNext. simpl. destruct qu; reflexivity.
  - destruct (orchestratorMutation mu); reflexivity.
Qed.

Lemma run_fifo (actions : list Action) :
  forall s,
    queueRef s = queue s -> forallb (fun a => negb (clears a)) actions = true ->
    (ids (history (fst (run s actions))) ++ itemIds (queueRef (fst (run s actions))))%list
    = (ids (history s) ++ itemIds (queueRef s) ++ itemIds (enqueued actions))%list.
Proof.
  induction actions as [|a rest IH]; intros s Q C; simpl.
  - now rewrite !app_nil_r.
  - simpl in C. apply andb_prop in C. destruct C as [Ca Cr].
    apply negb_true_iff in Ca.
    assert (F := step_fifo s a Q Ca).
    assert (Q1 := step_keeps_queues_in_step s a Q).
    destruct (step s a) as [s1 obs1]. simpl in F, Q1.
    specialize (IH s1 Q1 Cr).
    destruct (run s1 rest) as [s2 obs2]. simpl in IH |- *.
    rewrite IH, app_assoc, F. unfold enqueued, itemIds. simpl.
    rewrite app_nil_r, !map_app, <- !app_assoc. reflexivity.
Qed.

(** C2. From a freshly loaded state, whatever the controls and callbacks
    do: [processQueue] changes nothing while the flag is set or the queue is
    empty, and the flag is set exactly while a continuation of the loop is
    pending (never more than one); every invocation of the orchestrator by
    the loop directly follows the append of that item's record; between two
    invocations the run of the first has settled and, after that, the
    1500 ms timer was set and has elapsed (or the drain stopped and a later
    one was started); and, as long as nothing is cleared, the ids of the
    history followed by those of the queue are the ids first there followed
    by the enqueued ones, in order. *)
Theorem drain_is_serial_and_fifo (s : App) (actions : list Action) :
  loaded s ->
  let s' := fst (run s actions) in
  let obs := snd (run s actions) in
  (forall t, isProcessing t = true \/ queueRef t = [] -> processQueue t = (t, []))
  /\ ((isProcessing s' = true <-> tasks s' <> []) /\ length (tasks s') <= 1)
  /\ (forall pre item m post,
        obs = (pre ++ Invoked item m :: post)%list ->
        exists pre', pre = (pre' ++ [Appended (newEntry m item)])%list)
  /\ (forall pre a ma mid b mb post,
        obs = (pre ++ Invoked a ma :: mid ++ Invoked b mb :: post)%list ->
        exists before after,
          mid = (before ++ Settled a :: after)%list
          /\ ((exists set elapsed,
                 after = (set ++ TimerSet 1500 :: elapsed)%list
                 /\ In TimerElapsed elapsed)
              \/ (exists stop start m,
                    after = (stop ++ DrainStopped :: start)%list
                    /\ In (DrainStarted m) start)))
  /\ (forallb (fun a => negb (clears a)) actions = true ->
      (ids (history s') ++ itemIds (queueRef s'))%list
      = (ids (history s) ++ itemIds (queueRef s) ++ itemIds (enqueued actions))%list).
Proof.
  intros L s' obs.
  destruct (run_serial actions s Idle (loaded_idle s L)) as (q' & S & P).
  fold obs in S. fold s' in P.
  split; [|split; [|split; [|split]]].
  - intros t [H|H]; unfold processQueue; rewrite H; [reflexivity|].
    simpl. now rewrite orb_true_r.
  - destruct P as [_ P].
    destruct q'; try contradiction; destruct P as [-> ->]; simpl;
      (split; [split; [discriminate|]|lia]); intros H; congruence.
  - intros pre item m post E. rewrite E in S.
    destruct (invoked_after_append _ _ _ _ _ _ S) as [[Q _]|H];
      [discriminate|exact H].
  - intros pre a ma mid b mb post E. rewrite E in S.
    apply serial_app_inv in S. destruct S as (qm & _ & S).
    inversion S as [|? ? q1 ? ? F S']; subst.
    inversion F; subst.
    exact (owed_before_invoke _ _ _ _ _ _ S').
  - intros C. apply run_fifo; [apply L|exact C].
Qed.

Lemma initialApp_loaded : loaded initialApp.
Proof. repeat split. Defined.

(** C2 witness: three items enqueued and drained under [Both]; the
    records appear in the order of the queue, and between the first two
    invocations the first run settles, the timer is set and elapses. *)
Lemma drain_is_serial_and_fifo_witness :
  loaded initialApp
  /\ ids (history (fst (run initialApp drainThree))) = ["A1"; "B2"; "C3"]
  /\ exists before after,
       [Settled adaItem; TimerSet 1500; TimerElapsed; Appended (newEntry Both benItem)]
       = (before ++ Settled adaItem :: after)%list
       /\ ((exists set elapsed,
              after = (set ++ TimerSet 1500 :: elapsed)%list
              /\ In TimerElapsed elapsed)
           \/ (exists stop start m,
                 after = (stop ++ DrainStopped :: start)%list
                 /\ In (DrainStarted m) start)).
Proof.
  destruct (drain_is_serial_and_fifo initialApp drainThree initialApp_loaded)
    as (_ & _ & _ & B & F).
  split; [exact initialApp_loaded|].
  split.
  - exact (F eq_refl).
  - exact (B [DrainStarted Both; Appended (newEntry Both adaItem)]
             adaItem Both
             [Settled adaItem; TimerSet 1500; TimerElapsed;
              Appended (newEntry Both benItem)]
             benItem Both
             [Settled benItem; TimerSet 1500; TimerElapsed;
              Appended (newEntry Both cyItem); Invoked cyItem Both;
              Settled cyItem; DrainStopped]
             eq_refl).
Defined.

(** C9. Every invocation of the orchestrator by the loop carries the mode
    announced when its drain started, and the record appended for the item
    was created for that mode, whatever is selected meanwhile; a drain
    starts with the mode selected at that moment, selecting a mode changes
    nothing else, and a retry uses the mode selected when it is requested. *)
Theorem drain_keeps_the_mode_it_started_with (s : App) (actions : list Action) :
  loaded s ->
  let obs := snd (run s actions) in
  (forall pre item m post,
     obs = (pre ++ Invoked item m :: post)%list ->
     drainMode None pre = Some m
     /\ exists pre', pre = (pre' ++ [Appended (newEntry m item)])%list)
  /\ (forall t,
        isProcessing t = false -> queueRef t <> [] ->
        exists rest, snd (processQueue t) = DrainStarted (selectedMode t) :: rest)
  /\ (forall t m, step t (SelectMode m) = (setSelectedMode t m, []))
  /\ (forall t id entry,
        find (fun h => ProcessedResult.id h =? id) (history t) = Some entry ->
        snd (step t (HandleRetry id))
        = [RetryInvoked (ProcessedResult.input entry) (selectedMode t)]).
Proof.
  intros L obs.
  destruct (run_serial actions s Idle (loaded_idle s L)) as (q' & S & _).
  fold obs in S.
  split; [|split; [|split]].
  - intros pre item m post E. rewrite E in S. split.
    + apply (invoked_with_drain_mode _ _ _ _ _ _ _ S). intros m0; discriminate.
    + destruct (invoked_after_append _ _ _ _ _ _ S) as [[Q _]|H];
        [discriminate|exact H].
  - intros t I Q. unfold processQueue. rewrite I.
    destruct t as [qu hist ip sm qr ts]. simpl in *.
    destruct qr as [|item rest]; [contradiction|]. simpl. eexists. reflexivity.
  - reflexivity.
  - intros t id entry F. simpl. unfold handleRetry. rewrite F. reflexivity.
Qed.

(** C9 witness: [Flash] is selected while the first of three items is in
    flight under [Both]; the third is still invoked with [Both]. *)
Lemma drain_keeps_the_mode_it_started_with_witness :
  selectedMode (fst (run initialApp drainThree)) = Flash
  /\ drainMode None
       [DrainStarted Both; Appended (newEntry Both adaItem); Invoked adaItem Both;
        Settled adaItem; TimerSet 1500; TimerElapsed;
        Appended (newEntry Both benItem); Invoked benItem Both;
        Settled benItem; TimerSet 1500; TimerElapsed;
        Appended (newEntry Both cyItem)]
     = Some Both.
Proof.
  split; [reflexivity|].
  destruct (drain_keeps_the_mode_it_started_with initialApp drainThree
              initialApp_loaded) as (M & _).
  exact (proj1 (M [DrainStarted Both; Appended (newEntry Both adaItem);
                   Invoked adaItem Both; Settled adaItem; TimerSet 1500;
                   TimerElapsed; Appended (newEntry Both benItem);
                   Invoked benItem Both; Settled benItem; TimerSet 1500;
                   TimerElapsed; Appended (newEntry Both cyItem)]
                  cyItem Both [Settled cyItem; DrainStopped] eq_refl)).
Defined.

(** ** Payload and state of a path *)

Lemma completedHasPayload_onRecord (m : Mutation) (h : ProcessedResult.t) :
  completesWithoutPayload m = false ->
  onBothPaths completedHasPayload h ->
  onBothPaths completedHasPayload (onRecord m h).
Proof.
  unfold onBothPaths, completedHasPayload. intros N [F P].
  destruct m as [e|i sm|i t|i [json|] d|i err|i t|i [json|] d|i err|i|i json d|i msg|i mode|];
    try discriminate N; simpl;
    try (unfold resetFor; destruct mode; simpl);
    split;
    first [ assumption
          | intros H; discriminate H
          | intros _ H; discriminate H ].
Qed.

Lemma completedHasPayload_newEntry mode item :
  onBothPaths completedHasPayload (newEntry mode item).
Proof.
  unfold onBothPaths, completedHasPayload.
  destruct mode; simpl; split; intros H; discriminate H.
Qed.

Lemma in_mapRecord id f hist h' :
  In h' (mapRecord id f hist) -> exists h, In h hist /\ (h' = f h \/ h' = h).
Proof.
  unfold mapRecord. intros H. apply in_map_iff in H. destruct H as (h & E & I).
  exists h. split; [exact I|].
  destruct (ProcessedResult.id h =? id); [left|right]; now symmetry.
Qed.

Lemma completedHasPayload_applyMutation (m : Mutation) (hist : list ProcessedResult.t) :
  completesWithoutPayload m = false ->
  match m with
  | Append newEntry => onBothPaths completedHasPayload newEntry
  | _ => True
  end ->
  (forall h, In h hist -> onBothPaths completedHasPayload h) ->
  forall h, In h (applyMutation m hist) -> onBothPaths completedHasPayload h.
Proof.
  intros W N H h' I.
  assert (M : forall id, In h' (mapRecord id (onRecord m) hist) ->
                         onBothPaths completedHasPayload h').
  { intros id J. apply in_mapRecord in J. destruct J as (h & Ih & [->| ->]).
    - apply completedHasPayload_onRecord; [exact W|]. now apply H.
    - now apply H. }
  destruct m; simpl in I; try (now apply (M _ I)).
  - apply in_app_or in I. destruct I as [I|[<-|[]]]; [now apply H|exact N].
  - contradiction.
Qed.

Lemma completedHasPayload_step (s : App) (a : Action) :
  deliversPayloads a = true ->
  (forall h, In h (history s) -> onBothPaths completedHasPayload h) ->
  forall h, In h (history (fst (step s a))) -> onBothPaths completedHasPayload h.
Proof.
  destruct s as [qu hist ip sm qr ts]. simpl. intros D H.
  destruct a as [nd|ni| | |m| |rid|n|n|mu]; simpl; try exact H.
  - intros h [].
  - unfold processQueue. simpl. destruct (ip || _); simpl; [exact H|].
    destruct qr as [|item rest]; simpl; [exact H|].
    intros h I. apply in_app_or in I.
    destruct I as [I|[<-|[]]]; [now apply H|apply completedHasPayload_newEntry].
  - unfold handleRetry. simpl. destruct (find _ hist); simpl; [|exact H].
    now apply (completedHasPayload_applyMutation (RetryReset rid sm)).
  - destruct (nth_error ts n) as [[mode item|mode]|]; simpl; try exact H.
    unfold afterOrchestrator. simpl. destruct (0 <? length qr)%nat; exact H.
  - destruct (nth_error ts n) as [[mode item|mode]|]; simpl; try exact H.
    unfold processNext. simpl. destruct qr as [|item rest]; simpl; [exact H|].
    intros h I. apply in_app_or in I.
    destruct I as [I|[<-|[]]]; [now apply H|apply completedHasPayload_newEntry].
  - destruct (orchestratorMutation mu) eqn:O; simpl; [|exact H].
    simpl in D. apply negb_true_iff in D.
    apply completedHasPayload_applyMutation; [exact D| |exact H].
    destruct mu; try exact I; discriminate.
Qed.

Lemma completedHasPayload_run (actions : list Action) :
  forall s,
    forallb deliversPayloads actions = true ->
    (forall h, In h (history s) -> onBothPaths completedHasPayload h) ->
    forall h, In h (history (fst (run s actions))) ->
              onBothPaths completedHasPayload h.
Proof.
  induction actions as [|a rest IH]; intros s D H; simpl; [exact H|].
  simpl in D. apply andb_prop in D. destruct D as [Da Dr].
  assert (H1 := completedHasPayload_step s a Da H).
  destruct (step s a) as [s1 obs1]. simpl in H1.
  specialize (IH s1 Dr H1). destruct (run s1 rest) as [s2 obs2]. exact IH.
Qed.

Lemma payloadIffCompleted_newEntry mode item :
  onBothPaths payloadIffCompleted (newEntry mode item).
Proof.
  unfold onBothPaths, payloadIffCompleted.
  destruct mode; simpl; split; split; intros H; try discriminate; now destruct H.
Qed.

Lemma payloadIffCompleted_onRecord (m : Mutation) (h : ProcessedResult.t) :
  orchestratorMutation m = true ->
  completesWithoutPayload m = false ->
  onBothPaths payloadIffCompleted h ->
  ~ failsCompletedPath m h ->
  onBothPaths payloadIffCompleted (onRecord m h).
Proof.
  unfold onBothPaths, payloadIffCompleted. intros O W [F P] N.
  destruct m as [e|i sm|i t|i [json|] d|i err|i t|i [json|] d|i err|i|i json d|i msg|i mode|];
    simpl in *; try discriminate; try (split; assumption).
  - split; [|assumption]. split; [reflexivity|discriminate].
  - split; [|assumption]. split; [|discriminate].
    intros H. apply F in H. contradiction.
  - split; [assumption|]. split; [reflexivity|discriminate].
  - split; [assumption|]. split; [|discriminate].
    intros H. apply P in H. contradiction.
Qed.

(** C4, as the code has it. At every state reached, through completion
    callbacks that carry a payload, from a history in which Completed paths
    hold a payload (the empty one, for a start), a path whose state is
    Completed holds a payload. The converse, a payload only on a Completed
    path, holds for a new record and is kept by every update of a run
    except a failure landing on a Completed path; a retry keeps only the
    first direction. *)
Theorem completed_paths_hold_a_payload (s : App) (actions : list Action) :
  (forall h, In h (history s) -> onBothPaths completedHasPayload h) ->
  forallb deliversPayloads actions = true ->
  (forall h, In h (history (fst (run s actions))) ->
             onBothPaths completedHasPayload h)
  /\ (forall mode item, onBothPaths payloadIffCompleted (newEntry mode item))
  /\ (forall m h,
        orchestratorMutation m = true ->
        completesWithoutPayload m = false ->
        onBothPaths payloadIffCompleted h ->
        ~ failsCompletedPath m h ->
        onBothPaths payloadIffCompleted (onRecord m h))
  /\ (forall mode h,
        onBothPaths completedHasPayload h ->
        onBothPaths completedHasPayload (resetFor mode h)).
Proof.
  intros H D. split; [|split; [|split]].
  - now apply completedHasPayload_run.
  - apply payloadIffCompleted_newEntry.
  - apply payloadIffCompleted_onRecord.
  - intros mode h. now apply (completedHasPayload_onRecord (RetryReset "" mode)).
Qed.

(** C4 witness: one item is resolved, retried and resolved again; its fast
    path ends Completed and holds the payload of the second run. *)
Lemma completed_paths_hold_a_payload_witness :
  exists h,
    In h (history (fst (run initialApp retryThenSuccess)))
    /\ ModelResolution.status (ProcessedResult.flash h) = completed
    /\ ModelResolution.output (ProcessedResult.flash h) <> None.
Proof.
  exists (ProcessedResult.mk "A1" adaItem
            (ModelResolution.mk (Some namelessProfile) ["Flash: Rapid Merge Complete."]
               95%float completed (Some adaDocument))
            (initialRes pending) None None).
  assert (I : In (ProcessedResult.mk "A1" adaItem
                    (ModelResolution.mk (Some namelessProfile)
                       ["Flash: Rapid Merge Complete."]
                       95%float completed (Some adaDocument))
                    (initialRes pending) None None)
                (history (fst (run initialApp retryThenSuccess))))
    by (left; reflexivity).
  split; [exact I|]. split; [reflexivity|].
  exact (proj1 (proj1 (completed_paths_hold_a_payload initialApp retryThenSuccess
                         (fun h (J : In h []) => match J with end) eq_refl) _ I)
           eq_refl).
Defined.

(** Without the proviso the first direction is lost as well: a completion
    callback that carries [null] leaves the path Completed without a
    payload. *)
Example null_completion_leaves_no_payload :
  map (fun h => (ModelResolution.status (ProcessedResult.flash h),
                 ModelResolution.output (ProcessedResult.flash h)))
    (history
       (fst (run initialApp
               [ AddManualToQueue adaItem; SelectMode Flash; ProcessQueue;
                 Callback (FlashCompleted "A1" None 80%float) ])))
  = [(completed, None)].
Proof. reflexivity. Qed.

(** C4 as stated fails: after the retry of a resolved record, its fast
    path is Running and still holds the payload of the first run. Before
    the retry the record satisfied the equivalence. *)
Lemma retry_keeps_payload_while_running :
  (forall h, In h (history (fst (run initialApp (removelast retryAfterSuccess)))) ->
             onBothPaths payloadIffCompleted h)
  /\ exists h,
       In h (history (fst (run initialApp retryAfterSuccess)))
       /\ ModelResolution.status (ProcessedResult.flash h) = processing
       /\ ModelResolution.output (ProcessedResult.flash h) = Some adaProfile
       /\ ~ payloadIffCompleted (ProcessedResult.flash h).
Proof.
  split.
  - intros h [<-|[]]. split; split; intros H; try discriminate; try reflexivity.
    now destruct H.
  - eexists. split; [left; reflexivity|]. split; [reflexivity|].
    split; [reflexivity|]. intros [H _].
    assert (E : processing = completed) by (apply H; discriminate).
    discriminate E.
Qed.

(** ** Scenarios of the specification *)

(** The fast path returns a truncated document under [Both]: it ends
    Failed with a "Parse Error" message, the deep path completes, and no
    consolidation is attempted. *)
Example malformed_fast_answer_skips_consolidation :
  let es := executeItemProcessing parseSample malformedFastEnv adaItem Both in
  consolidationAttempts es = 0
  /\ map (fun h =>
            (ModelResolution.status (ProcessedResult.flash h),
             map (String.prefix "Parse Error") (ModelResolution.logs (ProcessedResult.flash h)),
             ModelResolution.status (ProcessedResult.pro h),
             ModelResolution.output (ProcessedResult.pro h),
             ProcessedResult.consolidated h))
       (applyEvents es [newEntry Both adaItem])
     = [(error, [true], completed, Some adaProfile, None)].
Proof. split; vm_compute; reflexivity. Qed.

(** Nothing is exported when no record is selected. *)
Lemma exportData_of_nothing Number_toString JSON_stringify format historyId :
  exportData Number_toString JSON_stringify [] format historyId = None.
Proof.
  unfold exportData. destruct historyId as [id|]; [destruct (truthy id)|]; reflexivity.
Qed.

(** Records stay filed under their item's id. *)
Lemma keyedByItem_step (s : App) (a : Action) :
  (forall h, In h (history s) -> keyedByItem h) ->
  forall h, In h (history (fst (step s a))) -> keyedByItem h.
Proof.
  assert (M : forall hist id m,
             (forall h, In h hist -> keyedByItem h) ->
             forall h, In h (mapRecord id (onRecord m) hist) -> keyedByItem h).
  { intros hist id m H h I. apply in_mapRecord in I.
    destruct I as (h0 & I0 & [-> | ->]); [|now apply H].
    unfold keyedByItem. rewrite id_onRecord, input_onRecord. now apply H. }
  destruct s as [qu hist ip sm qr ts]. simpl. intros H.
  destruct a as [nd|ni| | |m| |rid|n|n|mu]; simpl; try exact H.
  - intros h [].
  - unfold processQueue. simpl. destruct (ip || _); simpl; [exact H|].
    destruct qr as [|item rest]; simpl; [exact H|].
    intros h I. apply in_app_or in I.
    destruct I as [I|[<-|[]]]; [now apply H|reflexivity].
  - unfold handleRetry. simpl. destruct (find _ hist); simpl; [|exact H].
    now apply (M hist rid (RetryReset rid sm)).
  - destruct (nth_error ts n) as [[mode item|mode]|]; simpl; try exact H.
    unfold afterOrchestrator. simpl. destruct (0 <? length qr)%nat; exact H.
  - destruct (nth_error ts n) as [[mode item|mode]|]; simpl; try exact H.
    unfold processNext. simpl. destruct qr as [|item rest]; simpl; [exact H|].
    intros h I. apply in_app_or in I.
    destruct I as [I|[<-|[]]]; [now apply H|reflexivity].
  - destruct (orchestratorMutation mu) eqn:O; simpl; [|exact H].
    destruct mu; try discriminate; simpl; now apply M.
Qed.

Lemma keyedByItem_run (actions : list Action) :
  forall s,
    (forall h, In h (history s) -> keyedByItem h) ->
    forall h, In h (history (fst (run s actions))) -> keyedByItem h.
Proof.
  induction actions as [|a rest IH]; intros s H; simpl; [exact H|].
  assert (H1 := keyedByItem_step s a H).
  destruct (step s a) as [s1 obs1]. simpl in H1.
  specialize (IH s1 H1). destruct (run s1 rest) as [s2 obs2]. exact IH.
Qed.

(** ** Persistence *)

Lemma reread_number (x : number) :
  survives x = true -> reread (JSNumber x) = JSNumber x.
Proof.
  unfold survives, reread. intros H. apply andb_prop in H. destruct H as [F Z].
  apply negb_true_iff in Z. cbn [JSON.stringify]. now rewrite F, Z.
Qed.

Lemma reread_array (elements : list JSValue) :
  (forall e, In e elements -> JSON.stringify e <> None) ->
  reread (JSArray elements) = JSArray (map reread elements).
Proof.
  intros D. unfold reread at 1. cbn [JSON.stringify JSON.parse]. f_equal.
  rewrite map_map. apply map_ext_in. intros e I. unfold reread.
  specialize (D e I). now destruct (JSON.stringify e).
Qed.

Lemma find_key_absent (key : string) (properties : list (string * JSValue)) :
  ~ In key (map fst properties) ->
  find (fun p => fst p =? key) properties = None.
Proof.
  induction properties as [|p ps IH]; [reflexivity|]. cbn. intros N.
  destruct (String.eqb_spec (fst p) key) as [E|_]; [destruct N; now left|].
  apply IH. intros I. apply N. now right.
Qed.

(** Reading a property of a value that was written and read back gives
    what the property held, written and read back. *)
Lemma property_reread (key : string) (properties : list (string * JSValue)) :
  NoDup (map fst properties) ->
  property key (reread (JSObject properties))
  = reread (property key (JSObject properties)).
Proof.
  unfold reread at 1. cbn [JSON.stringify JSON.parse property].
  induction properties as [|[k v] ps IH]; intros U; [reflexivity|].
  inversion U as [|? ? N U']; subst. cbn [flat_map fst snd find].
  destruct (String.eqb_spec k key) as [->|D].
  - cbn [snd]. unfold reread. destruct (JSON.stringify v) as [text|].
    + cbn. now rewrite String.eqb_refl.
    + cbn [app].
      assert (B : find (fun p : string * JSValue => fst p =? key)
                    (map (fun member => (fst member, JSON.parse (snd member)))
                       (flat_map
                          (fun property =>
                             match JSON.stringify (snd property) with
                             | Some text => [(fst property, text)]
                             | None => []
                             end) ps)) = None).
      { apply find_key_absent. intros I. apply N.
        rewrite map_map in I. cbn in I. apply in_map_iff in I.
        destruct I as ([k' t] & <- & I). apply in_flat_map in I.
        destruct I as ([k'' v'] & I & J). cbn in J.
        destruct (JSON.stringify v'); [|destruct J].
        destruct J as [[= <- <-]|[]]. apply in_map_iff. now exists (k'', v'). }
      now rewrite B.
  - destruct (JSON.stringify v) as [text|]; cbn.
    + apply String.eqb_neq in D. rewrite D. now apply IH.
    + now apply IH.
Qed.

Lemma readAll_map {A} (read : JSValue -> option A) (write : A -> JSValue) (l : list A) :
  (forall x, In x l -> read (reread (write x)) = Some x) ->
  readAll read (map reread (map write l)) = Some l.
Proof.
  induction l as [|x l IH]; intros H; [reflexivity|]. cbn.
  rewrite (H x (or_introl eq_refl)). cbn.
  rewrite IH by (intros y I; apply H; now right). reflexivity.
Qed.

Lemma readArray_reread {A} (read : JSValue -> option A) (write : A -> JSValue)
    (l : list A) :
  (forall x, In x l -> JSON.stringify (write x) <> None) ->
  (forall x, In x l -> read (reread (write x)) = Some x) ->
  readArray read (reread (JSArray (map write l))) = Some l.
Proof.
  intros D H. rewrite reread_array.
  - cbn. now apply readAll_map.
  - intros e I. apply in_map_iff in I. destruct I as (x & <- & I). now apply D.
Qed.

Lemma strings_read_back (l : list string) :
  readArray readString (reread (ofStrings l)) = Some l.
Proof.
  apply readArray_reread; intros x _; [discriminate|reflexivity].
Qed.

Ltac distinct_keys :=
  cbn; repeat (constructor; [cbn; intuition discriminate|]); constructor.

Ltac read_property :=
  rewrite property_reread by distinct_keys;
  cbn [property find fst snd String.eqb Ascii.eqb Bool.eqb app optionalProperty option_map].

Lemma customerRecord_reads_back (c : CustomerRecord.t) :
  readCustomerRecord (reread (ofCustomerRecord c)) = Some c.
Proof.
  destruct c as [cid name email phone tier updated].
  unfold readCustomerRecord, ofCustomerRecord. cbn [CustomerRecord.customer_id
    CustomerRecord.name CustomerRecord.email CustomerRecord.phone
    CustomerRecord.current_tier CustomerRecord.last_updated].
  repeat read_property. now destruct phone.
Qed.

Lemma inputData_reads_back (item : InputData.t) :
  itemSurvives item = true ->
  readInputData (reread (ofInputData item)) = Some item.
Proof.
  destruct item as [id c transcript stamp]. unfold itemSurvives. cbn [InputData.timestamp].
  intros S. unfold readInputData, ofInputData. cbn [InputData.id InputData.customerRecord
    InputData.chatTranscript InputData.timestamp].
  repeat read_property.
  rewrite customerRecord_reads_back, (reread_number _ S). reflexivity.
Qed.

Lemma sentiment_reads_back (s : Sentiment) :
  readSentiment (reread (JSString (Sentiment_str s))) = Some s.
Proof. now destruct s. Qed.

Lemma status_reads_back (s : Status) :
  readStatus (reread (JSString (Status_str s))) = Some s.
Proof. now destruct s. Qed.

Lemma mergedProfile_reads_back (p : MergedProfile.t) :
  survives (MergedProfile.confidence_score p) = true ->
  readMergedProfile (reread (ofMergedProfile p)) = Some p.
Proof.
  destruct p as [cid name email phone tier sentiment intent updates confidence insight].
  cbn [MergedProfile.confidence_score]. intros S.
  unfold readMergedProfile, ofMergedProfile. cbn [MergedProfile.customer_id
    MergedProfile.name MergedProfile.email MergedProfile.phone MergedProfile.current_tier
    MergedProfile.latest_sentiment MergedProfile.identified_intent
    MergedProfile.updates_applied MergedProfile.confidence_score
    MergedProfile.reasoning_insight].
  destruct insight as [insight|]; repeat read_property;
    rewrite sentiment_reads_back, strings_read_back, (reread_number _ S); reflexivity.
Qed.

Lemma payload_reads_back (output : Payload) :
  payloadSurvives output = true ->
  readNullable readMergedProfile (reread (ofPayload output)) = Some output.
Proof.
  destruct output as [p|]; [|reflexivity]. cbn [payloadSurvives ofPayload]. intros S.
  assert (R := mergedProfile_reads_back p S).
  unfold readNullable.
  destruct (reread (ofMergedProfile p)) eqn:E; try (now rewrite R).
  discriminate R.
Qed.

Lemma modelResolution_reads_back (r : ModelResolution.t) :
  resolutionSurvives r = true ->
  readModelResolution (reread (ofModelResolution r)) = Some r.
Proof.
  destruct r as [output logs duration status text]. unfold resolutionSurvives.
  cbn [ModelResolution.output ModelResolution.durationMs]. intros S.
  apply andb_prop in S. destruct S as [So Sd].
  unfold readModelResolution, ofModelResolution. cbn [ModelResolution.output
    ModelResolution.logs ModelResolution.durationMs ModelResolution.status
    ModelResolution.thinkingText].
  destruct text as [text|]; repeat read_property;
    rewrite (payload_reads_back _ So), strings_read_back, (reread_number _ Sd),
      status_reads_back; reflexivity.
Qed.

Lemma processedResult_reads_back (h : ProcessedResult.t) :
  recordSurvives h = true ->
  readProcessedResult (reread (ofProcessedResult h)) = Some h.
Proof.
  destruct h as [id input flash pro consolidated summary]. unfold recordSurvives.
  cbn [ProcessedResult.input ProcessedResult.flash ProcessedResult.pro
    ProcessedResult.consolidated]. intros S.
  apply andb_prop in S. destruct S as [S Sc].
  apply andb_prop in S. destruct S as [S Sp].
  apply andb_prop in S. destruct S as [Si Sf].
  unfold readProcessedResult, ofProcessedResult. cbn [ProcessedResult.id
    ProcessedResult.input ProcessedResult.flash ProcessedResult.pro
    ProcessedResult.consolidated ProcessedResult.summary].
  assert (C : readOptional readModelResolution
                (reread match consolidated with
                        | Some c => ofModelResolution c
                        | None => JSUndefined
                        end) = Some consolidated).
  { destruct consolidated as [c|]; [|reflexivity].
    assert (R := modelResolution_reads_back c Sc). unfold readOptional.
    destruct (reread (ofModelResolution c)) eqn:E; try (now rewrite R).
    discriminate R. }
  destruct summary as [summary|]; repeat read_property;
    rewrite (inputData_reads_back _ Si), (modelResolution_reads_back _ Sf),
      (modelResolution_reads_back _ Sp), C; reflexivity.
Qed.

(** C8, as the code has it. A state whose numbers (timestamps, durations
    and confidence scores) are finite and not negative zero is saved as a
    JSON text, and what the load effect reads from that text is the state
    itself: every record with its optional fields ([consolidated],
    [summary], [thinkingText], [reasoning_insight]) set or not set as
    before, payloads that are [null] included. *)
Theorem saved_state_reads_back
    (queue : list InputData.t) (history : list ProcessedResult.t) :
  forallb itemSurvives queue = true ->
  forallb recordSurvives history = true ->
  exists saved,
    savedState queue history = Some saved
    /\ loadedState saved = Some (queue, history).
Proof.
  intros Q H. rewrite forallb_forall in Q, H.
  unfold savedState. destruct (JSON.stringify (ofState queue history)) as [saved|] eqn:E;
    [|discriminate E].
  exists saved. split; [reflexivity|].
  unfold loadedState. cbv zeta.
  replace (JSON.parse saved) with (reread (ofState queue history))
    by (unfold reread; now rewrite E).
  unfold ofState. repeat read_property.
  rewrite (readArray_reread readInputData ofInputData queue);
    [|intros x _; discriminate|intros x I; now apply inputData_reads_back, Q].
  rewrite (readArray_reread readProcessedResult ofProcessedResult history);
    [reflexivity|intros x _; discriminate|].
  intros x I. now apply processedResult_reads_back, H.
Qed.

(** C8 witness: a queued item and three records, one of them resolved and
    consolidated, one new, one with a fast result only. *)
Lemma saved_state_reads_back_witness :
  exists saved,
    savedState [adaItem; benItem] [goldenRecord; newEntry Both benItem; fastOnlyRecord]
    = Some saved
    /\ loadedState saved
       = Some ([adaItem; benItem], [goldenRecord; newEntry Both benItem; fastOnlyRecord]).
Proof.
  exact (saved_state_reads_back [adaItem; benItem]
           [goldenRecord; newEntry Both benItem; fastOnlyRecord] eq_refl eq_refl).
Defined.

(** C8 as stated fails: a confidence answered as [1e999] is held as
    infinity and saved as [null], and the state read back is not the state
    that was saved. *)
Lemma infinite_confidence_is_not_read_back :
  exists saved,
    savedState [] [overconfidentRecord] = Some saved
    /\ property "confidence_score"
         (property "output"
            (property "flash"
               (match property "history" (JSON.parse saved) with
                | JSArray (h :: _) => h
                | _ => JSUndefined
                end)))
       = JSNull
    /\ loadedState saved <> Some ([], [overconfidentRecord]).
Proof.
  destruct (savedState [] [overconfidentRecord]) as [saved|] eqn:E;
    [|vm_compute in E; discriminate E].
  exists saved. split; [reflexivity|].
  vm_compute in E. injection E as <-.
  split; [vm_compute; reflexivity|]. vm_compute. discriminate.
Qed.

(** * Further properties of the code *)

(** ** The streaming calls in detail *)

Lemma append_nil_r (s : string) : s ++ "" = s.
Proof. induction s as [|c s IH]; simpl; [reflexivity|now rewrite IH]. Qed.

Lemma append_assoc (a b c : string) : (a ++ b) ++ c = a ++ (b ++ c).
Proof. induction a as [|x a IH]; simpl; [reflexivity|now rewrite IH]. Qed.

Lemma length_append (a b : string) :
  String.length (a ++ b) = String.length a + String.length b.
Proof. induction a as [|x a IH]; simpl; [reflexivity|now rewrite IH]. Qed.

Lemma prefix_append (a b : string) : String.prefix a (a ++ b) = true.
Proof.
  induction a as [|x a IH]; simpl; [now destruct b|].
  destruct (ascii_dec x x) as [_|N]; [exact IH|now destruct N].
Qed.

Lemma prefix_trans_append (a b s : string) :
  String.prefix (a ++ b) s = true -> String.prefix a s = true.
Proof.
  revert s. induction a as [|x a IH]; intros s; simpl.
  - intros _. now destruct s.
  - destruct s as [|y s]; [discriminate|]. simpl.
    destruct (ascii_dec x y); [apply IH|discriminate].
Qed.

Lemma chunkTexts_cons (chunk : option string) (rest : list (option string)) :
  chunkTexts (chunk :: rest)
  = match chunk with
    | Some text => if truthy text then text :: chunkTexts rest else chunkTexts rest
    | None => chunkTexts rest
    end.
Proof.
  unfold chunkTexts. simpl. destruct chunk as [text|]; [|reflexivity].
  destruct (truthy text); reflexivity.
Qed.

Lemma chunkTexts_truthy (chunks : list (option string)) :
  forall text, In text (chunkTexts chunks) -> truthy text = true.
Proof.
  induction chunks as [|chunk rest IH]; intros text H; [destruct H|].
  rewrite chunkTexts_cons in H. destruct chunk as [t|]; [|now apply IH].
  destruct (truthy t) eqn:T; [|now apply IH].
  destruct H as [<-|H]; [exact T|now apply IH].
Qed.

Lemma truthy_length (s : string) : truthy s = true -> 0 < String.length s.
Proof. destruct s; simpl; [discriminate|lia]. Qed.

Lemma growing_cumulative (texts : list string) :
  forall fullText,
    (forall text, In text texts -> truthy text = true) ->
    growing (cumulative fullText texts).
Proof.
  induction texts as [|a rest IH]; intros fullText T; simpl; [exact I|].
  destruct rest as [|b rest]; [exact I|].
  split.
  - simpl. split; [apply prefix_append|].
    rewrite !length_append.
    assert (0 < String.length b) by (apply truthy_length, T; right; now left). lia.
  - apply IH. intros text H. apply T. now right.
Qed.

(** Whatever the callbacks do, the loop only ever calls [onUpdate]. *)
Lemma consume_only_updates (throws : Call -> option thrown)
    (chunks : list (option string)) :
  forall fullText,
    exists texts r, consume throws fullText chunks = (map OnUpdate texts, r).
Proof.
  induction chunks as [|chunk rest IH]; intros fullText; cbn [consume].
  - now exists [], (inr fullText).
  - destruct chunk as [text|]; [destruct (truthy text)|]; try apply IH.
    unfold bind, invoke.
    destruct (throws (OnUpdate (fullText ++ text))) as [e|].
    + now exists [fullText ++ text], (inl e).
    + destruct (IH (fullText ++ text)) as (texts & r & E). rewrite E.
      now exists ((fullText ++ text) :: texts), r.
Qed.

Section StreamingFacts.

Variable JSON_parse : string -> string + Payload.
Variable throws : Call -> option thrown.
Variables parseMsg faultPrefix faultOther : string.

(** The three ways a call can end once [onError] is known to return. *)
Lemma streamingMerge_tail (remote : StreamRemote) :
  (forall err, throws (OnError err) = None) ->
  exists texts tail,
    streamingMerge JSON_parse parseMsg faultPrefix faultOther remote throws
    = ((map OnUpdate texts ++ tail)%list, inr tt)
    /\ ((exists m, tail = [OnError m])
        \/ (exists json, tail = [OnComplete json])
        \/ (exists json m, tail = [OnComplete json; OnError m])).
Proof.
  intros H. unfold streamingMerge, readStream, lift, throw, ret.
  destruct (getClient (stream_API_KEY remote)) as [e|[]]; cbn [bind tryCatch].
  { unfold invoke. rewrite H. exists [], [OnError (faultMessage faultPrefix faultOther e)].
    split; [reflexivity|]. left. eauto. }
  destruct (generateContentStream remote) as [e|[chunks ending]];
    cbn [bind tryCatch fst snd app].
  { unfold invoke. rewrite H. exists [], [OnError (faultMessage faultPrefix faultOther e)].
    split; [reflexivity|]. left. eauto. }
  destruct (consume_only_updates throws chunks "") as (texts & r & E). rewrite E.
  destruct r as [e|final]; cbn [bind tryCatch fst snd app].
  { unfold invoke. rewrite H. exists texts. eexists. split; [reflexivity|]. left. eauto. }
  destruct ending as [e|]; cbn [bind tryCatch fst snd app].
  { unfold invoke. rewrite H. exists texts. eexists.
    rewrite app_nil_r. split; [reflexivity|]. left. eauto. }
  unfold parseProfile.
  destruct (JSON_parse (cleaned final)) as [msg|json];
    cbn [bind tryCatch fst snd app].
  { unfold invoke. rewrite H. exists texts. eexists.
    rewrite app_nil_r. split; [reflexivity|]. left. eauto. }
  unfold invoke. destruct (throws (OnComplete json)) as [e|];
    cbn [bind tryCatch fst snd app]; rewrite ?H, ?app_nil_r;
    exists texts; eexists; (split; [reflexivity|]); eauto 6.
Qed.

Lemma consume_nothrow (chunks : list (option string)) :
  (forall c, throws c = None) ->
  forall fullText,
    consume throws fullText chunks
    = (map OnUpdate (cumulative fullText (chunkTexts chunks)),
       inr (fullText ++ concatTexts (chunkTexts chunks))).
Proof.
  intros H. induction chunks as [|chunk rest IH]; intros fullText; cbn [consume].
  - simpl. now rewrite append_nil_r.
  - rewrite chunkTexts_cons.
    destruct chunk as [text|]; [destruct (truthy text)|]; try apply IH.
    unfold bind, invoke. rewrite H, IH. simpl. now rewrite append_assoc.
Qed.

(** What a call does when its callbacks return: the whole trace. *)
Lemma streamingMerge_run (remote : StreamRemote) :
  (forall c, throws c = None) ->
  streamingMerge JSON_parse parseMsg faultPrefix faultOther remote throws
  = match getClient (stream_API_KEY remote), generateContentStream remote with
    | inl e, _ | inr _, inl e =>
        ([OnError (faultMessage faultPrefix faultOther e)], inr tt)
    | inr _, inr (chunks, ending) =>
        ((map OnUpdate (cumulative "" (chunkTexts chunks))
          ++ [match ending with
              | Some e => OnError (faultMessage faultPrefix faultOther e)
              | None =>
                  match JSON_parse (cleaned (concatTexts (chunkTexts chunks))) with
                  | inl msg => OnError (parseMsg ++ msg)
                  | inr json => OnComplete json
                  end
              end])%list,
         inr tt)
    end.
Proof.
  intros H. unfold streamingMerge, readStream, lift, throw, ret.
  destruct (getClient (stream_API_KEY remote)) as [e|[]]; cbn [bind tryCatch].
  { unfold invoke. now rewrite H. }
  destruct (generateContentStream remote) as [e|[chunks ending]];
    cbn [bind tryCatch fst snd app].
  { unfold invoke. now rewrite H. }
  rewrite (consume_nothrow chunks H ""). simpl append.
  destruct ending as [e|]; cbn [bind tryCatch fst snd app].
  { unfold invoke. rewrite H. now rewrite app_nil_r. }
  unfold parseProfile.
  destruct (JSON_parse (cleaned (concatTexts (chunkTexts chunks)))) as [msg|json];
    cbn [bind tryCatch fst snd app]; unfold invoke; rewrite H;
    now rewrite ?app_nil_r.
Qed.

End StreamingFacts.

Lemma updateTexts_shape (texts : list string) (tail : list Call) :
  (forall c, In c tail -> terminal c = true) ->
  updateTexts (map OnUpdate texts ++ tail) = texts.
Proof.
  intros T. unfold updateTexts. rewrite flat_map_app.
  replace (flat_map _ tail) with (@nil string).
  - rewrite app_nil_r. induction texts as [|t texts IH]; simpl; [reflexivity|].
    now rewrite IH.
  - induction tail as [|c tail IH]; [reflexivity|]. simpl.
    assert (Tc := T c (or_introl eq_refl)). destruct c; try discriminate;
      apply IH; intros x Hx; apply T; now right.
Qed.

Lemma filter_isOnError_updates (texts : list string) :
  filter isOnError (map OnUpdate texts) = [].
Proof. induction texts; simpl; auto. Qed.

(** X1. As long as [onError] returns, a streaming call returns (its promise
    is not rejected) whatever [onUpdate] and [onComplete] do; [onError] is
    called at most once and the last callback made is a terminal one. *)
Theorem streaming_calls_return_when_onError_returns
    (JSON_parse : string -> string + Payload)
    (throws : Call -> option thrown) (remote : StreamRemote) :
  (forall err, throws (OnError err) = None) ->
  let fast := mergeWithFlash JSON_parse remote throws in
  let deep := mergeWithProStream JSON_parse remote throws in
  (snd fast = inr tt
   /\ length (filter isOnError (fst fast)) <= 1
   /\ exists init c, fst fast = (init ++ [c])%list /\ terminal c = true)
  /\ (snd deep = inr tt
      /\ length (filter isOnError (fst deep)) <= 1
      /\ exists init c, fst deep = (init ++ [c])%list /\ terminal c = true).
Proof.
  intros H fast deep.
  assert (G : forall pm fp fo,
             let r := streamingMerge JSON_parse pm fp fo remote throws in
             snd r = inr tt
             /\ length (filter isOnError (fst r)) <= 1
             /\ exists init c, fst r = (init ++ [c])%list /\ terminal c = true).
  { intros pm fp fo r.
    destruct (streamingMerge_tail JSON_parse throws pm fp fo remote H)
      as (texts & tail & E & T).
    unfold r. rewrite E. simpl. split; [reflexivity|].
    rewrite filter_app, filter_isOnError_updates. simpl.
    destruct T as [(m & ->)|[(json & ->)|(json & m & ->)]]; simpl.
    - split; [lia|]. now exists (map OnUpdate texts), (OnError m).
    - split; [lia|]. now exists (map OnUpdate texts), (OnComplete json).
    - split; [lia|].
      exists (map OnUpdate texts ++ [OnComplete json])%list, (OnError m).
      now rewrite <- app_assoc. }
  split; apply G.
Qed.

(** X1 witness: [onUpdate] throws on its second call; the call still
    returns, and reports the throw through [onError]. *)
Lemma streaming_calls_return_when_onError_returns_witness :
  snd (mergeWithFlash parseSample adaStream secondUpdateThrows) = inr tt
  /\ fst (mergeWithFlash parseSample adaStream secondUpdateThrows)
     = [ OnUpdate "```json"; OnUpdate ("```json" ++ adaDocument);
         OnError "API Error: render failed" ].
Proof.
  split; [|vm_compute; reflexivity].
  exact (proj1 (proj1 (streaming_calls_return_when_onError_returns
                         parseSample secondUpdateThrows adaStream
                         (fun _ => eq_refl)))).
Defined.

(** X2. With callbacks that return, [onUpdate] receives exactly the
    running concatenations of the chunks whose text is not empty, in
    order, each a proper extension of the one before, also when the stream
    faults after them; without a key or with a rejected request it receives
    nothing. *)
Theorem updates_carry_the_cumulative_text
    (JSON_parse : string -> string + Payload)
    (throws : Call -> option thrown) (remote : StreamRemote) :
  (forall c, throws c = None) ->
  let expected :=
    match getClient (stream_API_KEY remote), generateContentStream remote with
    | inr _, inr (chunks, _) => cumulative "" (chunkTexts chunks)
    | _, _ => []
    end in
  updateTexts (fst (mergeWithFlash JSON_parse remote throws)) = expected
  /\ updateTexts (fst (mergeWithProStream JSON_parse remote throws)) = expected
  /\ growing expected.
Proof.
  intros H expected.
  assert (G : forall pm fp fo,
             updateTexts (fst (streamingMerge JSON_parse pm fp fo remote throws))
             = expected).
  { intros pm fp fo. rewrite (streamingMerge_run JSON_parse throws pm fp fo remote H).
    unfold expected.
    destruct (getClient (stream_API_KEY remote)) as [e|u]; [reflexivity|].
    destruct (generateContentStream remote) as [e|[chunks ending]]; [reflexivity|].
    simpl fst. apply updateTexts_shape. intros c [<-|[]].
    destruct ending; [reflexivity|]. now destruct (JSON_parse _). }
  split; [apply G|]. split; [apply G|].
  unfold expected.
  destruct (getClient (stream_API_KEY remote)) as [e|u]; [exact I|].
  destruct (generateContentStream remote) as [e|[chunks ending]]; [exact I|].
  apply growing_cumulative, chunkTexts_truthy.
Qed.

(** X2 witness: the fenced sample answer. *)
Lemma updates_carry_the_cumulative_text_witness :
  updateTexts (fst (mergeWithFlash parseSample adaStream neverThrows))
  = ["```json"; "```json" ++ adaDocument; "```json" ++ adaDocument ++ "```"].
Proof.
  exact (proj1 (updates_carry_the_cumulative_text parseSample neverThrows adaStream
                  (fun _ => eq_refl))).
Defined.

(** X3. With callbacks that return, [onComplete(json)] is called if and
    only if the key is configured, the request is accepted, the stream is
    read to its end without a fault, and the cleaned concatenation of the
    non-empty chunk texts parses to [json]. *)
Theorem onComplete_iff_the_clean_text_parses
    (JSON_parse : string -> string + Payload)
    (throws : Call -> option thrown) (remote : StreamRemote) :
  (forall c, throws c = None) ->
  forall json,
    let parsed :=
      exists chunks,
        streamed remote chunks
        /\ JSON_parse (cleaned (concatTexts (chunkTexts chunks))) = inr json in
    (In (OnComplete json) (fst (mergeWithFlash JSON_parse remote throws)) <-> parsed)
    /\ (In (OnComplete json) (fst (mergeWithProStream JSON_parse remote throws))
        <-> parsed).
Proof.
  intros H json parsed.
  assert (G : forall pm fp fo,
             In (OnComplete json)
               (fst (streamingMerge JSON_parse pm fp fo remote throws)) <-> parsed).
  { intros pm fp fo. rewrite (streamingMerge_run JSON_parse throws pm fp fo remote H).
    unfold parsed, streamed.
    destruct (getClient (stream_API_KEY remote)) as [e|[]].
    { split; [intros [E|[]]; discriminate E|intros (? & (E & _) & _); discriminate E]. }
    destruct (generateContentStream remote) as [e|[chunks ending]].
    { split; [intros [E|[]]; discriminate E|intros (? & (_ & E) & _); discriminate E]. }
    simpl fst. split.
    - intros I. apply in_app_or in I. destruct I as [I|[I|[]]].
      + apply in_map_iff in I. destruct I as (? & E & _). discriminate E.
      + destruct ending as [e|]; [discriminate I|].
        destruct (JSON_parse _) as [msg|j] eqn:P; [discriminate I|].
        injection I as ->. exists chunks. now repeat split.
    - intros (chunks' & (_ & E) & P). injection E as <-. subst ending.
      rewrite P. apply in_or_app. right. now left. }
  split; apply G.
Qed.

(** X3 witness: the fenced sample answer parses to the sample profile. *)
Lemma onComplete_iff_the_clean_text_parses_witness :
  In (OnComplete (Some adaProfile)) (fst (mergeWithFlash parseSample adaStream neverThrows)).
Proof.
  apply (proj1 (onComplete_iff_the_clean_text_parses parseSample neverThrows
                  adaStream (fun _ => eq_refl) (Some adaProfile))).
  exists [Some "```json"; None; Some adaDocument; Some "```"].
  split; [split; reflexivity|vm_compute; reflexivity].
Defined.



(** ** The clean-up before parsing *)

Lemma prefix_nil (s : string) : String.prefix "" s = true.
Proof. now destruct s. Qed.

Lemma fence_inv (s : string) :
  String.prefix "```" s = true -> exists u, s = "```" ++ u.
Proof.
  destruct s as [|a [|b [|c u]]]; cbn [String.prefix];
    repeat match goal with
           | |- context [ascii_dec ?x ?y] =>
               destruct (ascii_dec x y); subst; cbn [String.prefix]
           end; try discriminate.
  intros _. now exists u.
Qed.

Lemma fence_ticks (s : string) : String.prefix "```" s = true -> 3 <= ticks s.
Proof.
  intros H. destruct (fence_inv s H) as (u & ->). simpl. lia.
Qed.

Lemma ticks_fence (s : string) : 3 <= ticks s -> String.prefix "```" s = true.
Proof.
  destruct s as [|a [|b [|c u]]]; simpl;
    repeat match goal with
           | |- context [Ascii.eqb ?x ?y] =>
               destruct (Ascii.eqb_spec x y); subst; simpl
           end; try lia.
  intros _. apply prefix_nil.
Qed.

Lemma removeAll_fence (u : string) :
  removeAll "```" 0 ("```" ++ u) = removeAll "```" 0 u.
Proof. simpl. now rewrite prefix_nil. Qed.

Lemma removeAll_keep (pat : string) (c : ascii) (r : string) :
  String.prefix pat (String c r) = false ->
  removeAll pat 0 (String c r) = String c (removeAll pat 0 r).
Proof. intros H. cbn [removeAll]. now rewrite H. Qed.

Lemma ticks_removeAll (n : nat) :
  forall s, String.length s <= n -> ticks (removeAll "```" 0 s) <= ticks s.
Proof.
  induction n as [|n IH]; intros s L.
  - destruct s; [simpl; lia|simpl in L; lia].
  - destruct s as [|c r]; [simpl; lia|].
    destruct (String.prefix "```" (String c r)) eqn:P.
    + destruct (fence_inv _ P) as (u & E). rewrite E, removeAll_fence.
      assert (Lu : String.length u <= n).
      { rewrite E in L. simpl in L. lia. }
      specialize (IH u Lu). simpl. lia.
    + rewrite removeAll_keep by exact P. simpl in L |- *.
      destruct (Ascii.eqb c "`"); [|lia].
      assert (Lr : String.length r <= n) by lia.
      specialize (IH r Lr). lia.
Qed.

(** After [replace(/```/g, '')] no fence is left. *)
Lemma no_fence_after_removeAll (n : nat) :
  forall s, String.length s <= n -> includes "```" (removeAll "```" 0 s) = false.
Proof.
  induction n as [|n IH]; intros s L.
  - destruct s; [reflexivity|simpl in L; lia].
  - destruct s as [|c r]; [reflexivity|].
    destruct (String.prefix "```" (String c r)) eqn:P.
    + destruct (fence_inv _ P) as (u & E). rewrite E, removeAll_fence.
      apply IH. rewrite E in L. simpl in L. lia.
    + rewrite removeAll_keep by exact P. cbn [includes].
      assert (Lr : String.length r <= n) by (simpl in L; lia).
      rewrite (IH r Lr), orb_false_r.
      destruct (String.prefix "```" (String c (removeAll "```" 0 r))) eqn:Q;
        [|reflexivity].
      apply fence_ticks in Q. simpl in Q.
      assert (T := ticks_removeAll n r Lr).
      assert (3 <= ticks (String c r)) by (simpl; destruct (Ascii.eqb c "`"); lia).
      apply ticks_fence in H. congruence.
Qed.

Lemma includes_trimStart (needle s : string) :
  includes needle (trimStart s) = true -> includes needle s = true.
Proof.
  induction s as [|c r IH]; simpl; [auto|].
  destruct (isWhiteSpace c); [|auto].
  intros H. rewrite (IH H). apply orb_true_r.
Qed.

Lemma prefix_trimEnd (s : string) :
  forall needle,
    String.prefix needle (trimEnd s) = true -> String.prefix needle s = true.
Proof.
  induction s as [|c r IH]; intros needle; cbn [trimEnd]; [auto|].
  destruct (isWhiteSpace c && (trimEnd r =? "")).
  - destruct needle; [reflexivity|discriminate].
  - destruct needle as [|x needle]; [reflexivity|]. cbn [String.prefix].
    destruct (ascii_dec x c); [apply IH|discriminate].
Qed.

Lemma includes_trimEnd (needle s : string) :
  includes needle (trimEnd s) = true -> includes needle s = true.
Proof.
  induction s as [|c r IH]; [auto|].
  intros H. cbn [includes].
  destruct (isWhiteSpace c && (trimEnd r =? "")) eqn:W.
  - simpl in H. rewrite W in H. simpl in H.
    destruct needle; [reflexivity|discriminate].
  - assert (E : trimEnd (String c r) = String c (trimEnd r)) by (simpl; now rewrite W).
    rewrite E in H. cbn [includes] in H. apply orb_prop in H. destruct H as [H|H].
    + rewrite <- E in H. apply prefix_trimEnd in H. now rewrite H.
    + rewrite (IH H). apply orb_true_r.
Qed.

Lemma trimEnd_idempotent (s : string) : trimEnd (trimEnd s) = trimEnd s.
Proof.
  induction s as [|c r IH]; [reflexivity|]. simpl.
  destruct (isWhiteSpace c && (trimEnd r =? "")) eqn:W; [reflexivity|].
  simpl. now rewrite IH, W.
Qed.

Lemma trimStart_clean (s : string) : trimStart (trimStart s) = trimStart s.
Proof.
  induction s as [|c r IH]; [reflexivity|]. simpl.
  destruct (isWhiteSpace c) eqn:W; [exact IH|]. simpl. now rewrite W.
Qed.

Lemma trimStart_trimEnd (s : string) :
  trimStart s = s -> trimStart (trimEnd s) = trimEnd s.
Proof.
  destruct s as [|c r]; [reflexivity|]. simpl.
  destruct (isWhiteSpace c) eqn:W.
  - intros E. exfalso.
    assert (L : forall x, String.length (trimStart x) <= String.length x).
    { induction x as [|y x IHx]; simpl; [lia|]. destruct (isWhiteSpace y); simpl; lia. }
    specialize (L r). rewrite E in L. simpl in L. lia.
  - intros _. simpl. now rewrite W.
Qed.

Lemma trim_idempotent (s : string) : trim (trim s) = trim s.
Proof.
  unfold trim. rewrite (trimStart_trimEnd (trimStart s) (trimStart_clean s)).
  apply trimEnd_idempotent.
Qed.

(** X5. The text handed to [JSON.parse] never contains a code fence and
    never begins or ends with white space, whatever the model returned. *)
Theorem cleaned_text_has_no_fence (text : string) :
  includes "```" (cleaned text) = false
  /\ includes "```json" (cleaned text) = false
  /\ trim (cleaned text) = cleaned text.
Proof.
  assert (F : includes "```" (cleaned text) = false).
  { unfold cleaned, trim.
    destruct (includes "```" (trimEnd (trimStart _))) eqn:I; [|reflexivity].
    apply includes_trimEnd, includes_trimStart in I.
    now rewrite (no_fence_after_removeAll _ _ (le_n _)) in I. }
  split; [exact F|]. split.
  - destruct (includes "```json" (cleaned text)) eqn:I; [|reflexivity].
    assert (G : forall s, includes "```json" s = true -> includes "```" s = true).
    { induction s as [|c r IH]; [discriminate|]. cbn [includes].
      intros H. apply orb_prop in H. destruct H as [H|H].
      - change "```json" with ("```" ++ "json") in H.
        apply prefix_trans_append in H. now rewrite H.
      - rewrite (IH H). apply orb_true_r. }
    apply G in I. congruence.
  - unfold cleaned. apply trim_idempotent.
Qed.

Lemma removeAll_skip (pat a z : string) :
  removeAll pat (String.length a) (a ++ z) = removeAll pat 0 z.
Proof. induction a as [|x a IH]; simpl; [reflexivity|exact IH]. Qed.

Lemma removeAll_match (c : ascii) (a z : string) :
  removeAll (String c a) 0 (String c a ++ z) = removeAll (String c a) 0 z.
Proof.
  change (String c a ++ z) with (String c (a ++ z)). cbn [removeAll].
  change (String c (a ++ z)) with (String c a ++ z).
  rewrite prefix_append.
  replace (String.length (String c a) - 1) with (String.length a) by (simpl; lia).
  apply removeAll_skip.
Qed.

Lemma removeAll_noBacktick (p s z : string) :
  noBacktick s = true ->
  removeAll (String "`" p) 0 (s ++ z) = s ++ removeAll (String "`" p) 0 z.
Proof.
  induction s as [|c r IH]; [reflexivity|]. simpl noBacktick. intros H.
  apply andb_prop in H. destruct H as [C R].
  change (String c r ++ z) with (String c (r ++ z)).
  rewrite removeAll_keep.
  - simpl. now rewrite IH.
  - cbn [String.prefix]. destruct (ascii_dec "`" c) as [<-|]; [discriminate C|reflexivity].
Qed.

Lemma noBacktick_append (a b : string) :
  noBacktick (a ++ b) = noBacktick a && noBacktick b.
Proof. induction a as [|x a IH]; simpl; [reflexivity|]. now rewrite IH, andb_assoc. Qed.

Lemma allWhiteSpace_noBacktick (s : string) :
  allWhiteSpace s = true -> noBacktick s = true.
Proof.
  induction s as [|c r IH]; [reflexivity|]. simpl. intros H.
  apply andb_prop in H. destruct H as [C R]. rewrite (IH R), andb_true_r.
  destruct (Ascii.eqb_spec c "`"); [subst; discriminate C|reflexivity].
Qed.

Lemma trimStart_white (ws s : string) :
  allWhiteSpace ws = true -> trimStart (ws ++ s) = trimStart s.
Proof.
  induction ws as [|c r IH]; [reflexivity|]. simpl. intros H.
  apply andb_prop in H. destruct H as [C R]. rewrite C. now apply IH.
Qed.

Lemma trimEnd_white (ws : string) :
  allWhiteSpace ws = true -> trimEnd ws = "".
Proof.
  induction ws as [|c r IH]; [reflexivity|]. simpl. intros H.
  apply andb_prop in H. destruct H as [C R]. now rewrite C, (IH R).
Qed.

Lemma trimEnd_append_white (s ws : string) :
  allWhiteSpace ws = true -> trimEnd (s ++ ws) = trimEnd s.
Proof.
  intros H. induction s as [|c r IH]; simpl; [now apply trimEnd_white|].
  now rewrite IH.
Qed.

Lemma trim_padded (ws1 doc ws2 : string) :
  allWhiteSpace ws1 = true -> allWhiteSpace ws2 = true ->
  trimStart doc = doc -> trimEnd doc = doc ->
  trim (ws1 ++ doc ++ ws2) = doc.
Proof.
  intros W1 W2 S E. unfold trim. rewrite (trimStart_white _ _ W1).
  destruct doc as [|c r].
  - simpl. rewrite <- (append_nil_r ws2), (trimStart_white _ _ W2). reflexivity.
  - assert (C : isWhiteSpace c = false).
    { destruct (isWhiteSpace c) eqn:C; [|reflexivity]. exfalso.
      simpl in S. rewrite C in S.
      assert (L : forall x, String.length (trimStart x) <= String.length x).
      { induction x as [|y x IHx]; simpl; [lia|]. destruct (isWhiteSpace y); simpl; lia. }
      specialize (L r). rewrite S in L. simpl in L. lia. }
    change (String c r ++ ws2) with (String c (r ++ ws2)).
    cbn [trimStart]. rewrite C.
    change (String c (r ++ ws2)) with (String c r ++ ws2).
    now rewrite (trimEnd_append_white _ _ W2).
Qed.

(** X6. A document without backticks that neither begins nor ends with
    white space comes out of the clean-up unchanged, whether the model sent
    it bare or wrapped in a [```json] fence with white space around it. *)
Theorem cleaned_unwraps_a_fenced_document (ws1 doc ws2 : string) :
  allWhiteSpace ws1 = true -> allWhiteSpace ws2 = true ->
  noBacktick doc = true -> trimStart doc = doc -> trimEnd doc = doc ->
  cleaned ("```json" ++ ws1 ++ doc ++ ws2 ++ "```") = doc
  /\ cleaned doc = doc.
Proof.
  intros W1 W2 B S E.
  assert (Z : noBacktick (ws1 ++ doc ++ ws2) = true).
  { rewrite !noBacktick_append, B, !allWhiteSpace_noBacktick by assumption.
    reflexivity. }
  assert (A : (ws1 ++ doc ++ ws2 ++ "```") = (ws1 ++ doc ++ ws2) ++ "```").
  { now rewrite !append_assoc. }
  unfold cleaned. split.
  - rewrite A, (removeAll_match "`" "``json").
    rewrite (removeAll_noBacktick "``json" _ _ Z).
    change (removeAll "```json" 0 "```") with "```".
    rewrite (removeAll_noBacktick "``" _ _ Z).
    change (removeAll "```" 0 "```") with "".
    rewrite append_nil_r. now apply trim_padded.
  - rewrite <- (append_nil_r doc) at 1.
    rewrite (removeAll_noBacktick "``json" _ _ B). simpl removeAll.
    rewrite (removeAll_noBacktick "``" _ _ B). simpl removeAll.
    rewrite append_nil_r. unfold trim. now rewrite S, E.
Qed.

(** X6 witness: the sample document between a fence and line breaks. *)
Lemma cleaned_unwraps_a_fenced_document_witness :
  cleaned ("```json" ++ newline ++ adaDocument ++ newline ++ "```") = adaDocument.
Proof.
  exact (proj1 (cleaned_unwraps_a_fenced_document newline adaDocument newline
                  eq_refl eq_refl eq_refl eq_refl eq_refl)).
Defined.

(** X7. [summarizeTranscript] always resolves to a text that is not empty
    and has no white space around it: the trimmed answer when that is not
    empty, "No summary available." when it is, and "Summary generation
    failed." on every fault. *)
Theorem summary_is_never_empty (remote : UnaryRemote) :
  truthy (summarizeTranscript remote) = true
  /\ trim (summarizeTranscript remote) = summarizeTranscript remote
  /\ (summaryFaults remote = false ->
      exists text,
        generateContent remote = inr (Some text)
        /\ summarizeTranscript remote
           = if truthy (trim text) then trim text else "No summary available.").
Proof.
  unfold summarizeTranscript, summaryFaults.
  destruct (getClient (unary_API_KEY remote)).
  { repeat split; discriminate. }
  destruct (generateContent remote) as [e|[text|]].
  { repeat split; discriminate. }
  2: { repeat split; discriminate. }
  unfold orElse. destruct (truthy (trim text)) eqn:T.
  - split; [exact T|]. split; [apply trim_idempotent|].
    intros _. exists text. now rewrite T.
  - split; [reflexivity|]. split; [reflexivity|].
    intros _. exists text. now rewrite T.
Qed.

(** ** More on one run of the orchestrator *)

Lemma input_eventOnRecord (e : Event) (h : ProcessedResult.t) :
  ProcessedResult.input (eventOnRecord e h) = ProcessedResult.input h.
Proof.
  destruct e as [m|]; simpl; [|reflexivity].
  destruct (target m); [|reflexivity].
  destruct (ProcessedResult.id h =? s); [apply input_onRecord|reflexivity].
Qed.

Lemma input_recordAfter (es : list Event) :
  forall h, ProcessedResult.input (recordAfter es h) = ProcessedResult.input h.
Proof.
  unfold recordAfter. induction es as [|e es IH]; intros h; simpl; [reflexivity|].
  rewrite IH. apply input_eventOnRecord.
Qed.

Lemma record_ext (a b : ProcessedResult.t) :
  ProcessedResult.id a = ProcessedResult.id b ->
  ProcessedResult.input a = ProcessedResult.input b ->
  ProcessedResult.flash a = ProcessedResult.flash b ->
  ProcessedResult.pro a = ProcessedResult.pro b ->
  ProcessedResult.consolidated a = ProcessedResult.consolidated b ->
  ProcessedResult.summary a = ProcessedResult.summary b ->
  a = b.
Proof. destruct a, b; simpl; congruence. Qed.

Section MoreRunFacts.

Variable JSON_parse : string -> string + Payload.

Lemma run_events env item mode :
  forall e, In e (executeItemProcessing JSON_parse env item mode) -> fromRun e = true.
Proof. intros e H. now apply in_executeItemProcessing in H. Qed.

Lemma run_applies_in_place env item mode hist :
  applyEvents (executeItemProcessing JSON_parse env item mode) hist
  = map (recordAfter (executeItemProcessing JSON_parse env item mode)) hist.
Proof.
  apply applyEvents_inPlace. intros e H. apply fromRun_inPlace.
  now apply (run_events env item mode).
Qed.

Lemma executeItemProcessing_summary env item mode :
  filter writesSummary (executeItemProcessing JSON_parse env item mode)
  = [summaryEvent env item].
Proof.
  unfold executeItemProcessing. apply filter_insertAt_keep; [reflexivity|].
  intros e H. now apply in_mainEvents in H.
Qed.

Lemma flash_of_run env item mode h :
  ProcessedResult.flash (recordAfter (executeItemProcessing JSON_parse env item mode) h)
  = ProcessedResult.flash (recordAfter (flashEvents JSON_parse env item mode) h).
Proof.
  rewrite (part_recordAfter ProcessedResult.flash writesFlash flash_skip flash_cong
             _ h h (run_events env item mode) eq_refl eq_refl).
  now rewrite executeItemProcessing_flash.
Qed.

Lemma pro_of_run env item mode h :
  ProcessedResult.pro (recordAfter (executeItemProcessing JSON_parse env item mode) h)
  = ProcessedResult.pro (recordAfter (proEvents JSON_parse env item mode) h).
Proof.
  rewrite (part_recordAfter ProcessedResult.pro writesPro pro_skip pro_cong
             _ h h (run_events env item mode) eq_refl eq_refl).
  now rewrite executeItemProcessing_pro.
Qed.

Lemma consolidated_of_run env item mode h :
  ProcessedResult.consolidated
    (recordAfter (executeItemProcessing JSON_parse env item mode) h)
  = ProcessedResult.consolidated
      (recordAfter
         (filter writesConsolidated (consolidationEvents JSON_parse env item mode)) h).
Proof.
  rewrite (part_recordAfter ProcessedResult.consolidated writesConsolidated
             consolidated_skip consolidated_cong
             _ h h (run_events env item mode) eq_refl eq_refl).
  now rewrite executeItemProcessing_consolidated.
Qed.

Lemma summary_of_run env item mode h :
  ProcessedResult.summary (recordAfter (executeItemProcessing JSON_parse env item mode) h)
  = ProcessedResult.summary (recordAfter [summaryEvent env item] h).
Proof.
  rewrite (part_recordAfter ProcessedResult.summary writesSummary summary_skip summary_cong
             _ h h (run_events env item mode) eq_refl eq_refl).
  now rewrite executeItemProcessing_summary.
Qed.

End MoreRunFacts.

(** X8. Under the modes [Flash] and [Pro] no consolidation is attempted and
    nothing is written to the path that is not selected nor to the
    [consolidated] field of any record, while the selected path of the
    item's records ends Completed or Failed. *)
Theorem single_mode_runs_one_path_only
    (JSON_parse : string -> string + Payload)
    (env : RunEnv) (item : InputData.t) (hist : list ProcessedResult.t) :
  let fast := applyEvents (executeItemProcessing JSON_parse env item Flash) hist in
  let deep := applyEvents (executeItemProcessing JSON_parse env item Pro) hist in
  (consolidationAttempts (executeItemProcessing JSON_parse env item Flash) = 0
   /\ map ProcessedResult.pro fast = map ProcessedResult.pro hist
   /\ map ProcessedResult.consolidated fast = map ProcessedResult.consolidated hist
   /\ forall h, In h fast -> ProcessedResult.id h = InputData.id item ->
                ended (ProcessedResult.flash h))
  /\ (consolidationAttempts (executeItemProcessing JSON_parse env item Pro) = 0
      /\ map ProcessedResult.flash deep = map ProcessedResult.flash hist
      /\ map ProcessedResult.consolidated deep = map ProcessedResult.consolidated hist
      /\ forall h, In h deep -> ProcessedResult.id h = InputData.id item ->
                   ended (ProcessedResult.pro h)).
Proof.
  intros fast deep. unfold fast, deep. rewrite !run_applies_in_place, !map_map.
  split; (split; [|split; [|split]]).
  - now rewrite executeItemProcessing_attempts.
  - apply map_ext. intros h. now rewrite pro_of_run.
  - apply map_ext. intros h. now rewrite consolidated_of_run.
  - intros h' H I. apply in_map_iff in H. destruct H as (h & <- & _).
    rewrite id_recordAfter in I. rewrite flash_of_run. unfold flashEvents.
    destruct (flashCalls_shape JSON_parse env Flash eq_refl) as (texts & last & E & T).
    rewrite E. unfold ended. rewrite (flash_after_path _ _ _ _ _ I T).
    destruct last; auto.
  - now rewrite executeItemProcessing_attempts.
  - apply map_ext. intros h. now rewrite flash_of_run.
  - apply map_ext. intros h. now rewrite consolidated_of_run.
  - intros h' H I. apply in_map_iff in H. destruct H as (h & <- & _).
    rewrite id_recordAfter in I. rewrite pro_of_run. unfold proEvents.
    destruct (proCalls_shape JSON_parse env Pro eq_refl) as (texts & last & E & T).
    rewrite E. unfold ended. rewrite (pro_after_path _ _ _ _ _ I T).
    destruct last; auto.
Qed.

(** X9. The history a run leaves does not depend on the order in which
    the callbacks of its two paths and of its summary request fire. *)
Theorem run_result_is_independent_of_callback_order
    (JSON_parse : string -> string + Payload)
    (env : RunEnv) (order : list bool) (at_ : nat)
    (item : InputData.t) (mode : ProcessingMode) (hist : list ProcessedResult.t) :
  applyEvents (executeItemProcessing JSON_parse (reschedule env order at_) item mode) hist
  = applyEvents (executeItemProcessing JSON_parse env item mode) hist.
Proof.
  rewrite !run_applies_in_place. apply map_ext. intros h.
  apply record_ext.
  - now rewrite !id_recordAfter.
  - now rewrite !input_recordAfter.
  - now rewrite !flash_of_run.
  - now rewrite !pro_of_run.
  - now rewrite !consolidated_of_run.
  - now rewrite !summary_of_run.
Qed.

(** X10. What a run writes to a path depends on that path's remote call
    and clock only: whatever the other path, the summary request and the
    arbiter do, and in whatever order, the path's part of every record is
    the same. *)
Theorem paths_do_not_affect_each_other
    (JSON_parse : string -> string + Payload)
    (env1 env2 : RunEnv) (item : InputData.t) (mode : ProcessingMode)
    (hist : list ProcessedResult.t) :
  let after1 := applyEvents (executeItemProcessing JSON_parse env1 item mode) hist in
  let after2 := applyEvents (executeItemProcessing JSON_parse env2 item mode) hist in
  (flashRemote env1 = flashRemote env2 -> flashDuration env1 = flashDuration env2 ->
   map ProcessedResult.flash after1 = map ProcessedResult.flash after2)
  /\ (proRemote env1 = proRemote env2 -> proDuration env1 = proDuration env2 ->
      map ProcessedResult.pro after1 = map ProcessedResult.pro after2).
Proof.
  intros after1 after2. unfold after1, after2.
  rewrite !run_applies_in_place, !map_map. split; intros R D; apply map_ext; intros h.
  - rewrite !flash_of_run. unfold flashEvents, flashCalls. now rewrite R, D.
  - rewrite !pro_of_run. unfold proEvents, proCalls. now rewrite R, D.
Qed.

(** X11. A run never adds, removes or reorders records, and never changes
    the id or the stored input of a record. *)
Theorem run_keeps_records_in_place
    (JSON_parse : string -> string + Payload)
    (env : RunEnv) (item : InputData.t) (mode : ProcessingMode)
    (hist : list ProcessedResult.t) :
  let after := applyEvents (executeItemProcessing JSON_parse env item mode) hist in
  length after = length hist
  /\ map ProcessedResult.id after = map ProcessedResult.id hist
  /\ map ProcessedResult.input after = map ProcessedResult.input hist.
Proof.
  intros after. unfold after. rewrite run_applies_in_place.
  split; [apply length_map|]. rewrite !map_map.
  split; apply map_ext; intros h; [apply id_recordAfter|apply input_recordAfter].
Qed.

(** X12. When no record of the history has the item's id (the history was
    cleared while the run was in flight, say), the run leaves the history
    as it is: a cleared record does not come back. *)
Theorem run_without_its_record_changes_nothing
    (JSON_parse : string -> string + Payload)
    (env : RunEnv) (item : InputData.t) (mode : ProcessingMode)
    (hist : list ProcessedResult.t) :
  (forall h, In h hist -> ProcessedResult.id h <> InputData.id item) ->
  applyEvents (executeItemProcessing JSON_parse env item mode) hist = hist.
Proof.
  intros N. rewrite run_applies_in_place. rewrite <- (map_id hist) at 2.
  apply map_ext_in. intros h H.
  apply (recordAfter_other (InputData.id item)).
  - intros e He. apply in_executeItemProcessing in He. destruct e; tauto.
  - apply String.eqb_neq. now apply N.
Qed.

(** X12 witness: the run for one item against the record of another. *)
Lemma run_without_its_record_changes_nothing_witness :
  applyEvents (executeItemProcessing parseSample sampleEnv adaItem Both)
    [newEntry Both benItem]
  = [newEntry Both benItem].
Proof.
  apply (run_without_its_record_changes_nothing parseSample sampleEnv adaItem Both).
  intros h [<-|[]]. discriminate.
Defined.

(** X10 witness: the sample run and the run whose fast answer is
    truncated share the deep path. *)
Lemma paths_do_not_affect_each_other_witness :
  map ProcessedResult.pro
    (applyEvents (executeItemProcessing parseSample sampleEnv adaItem Both)
       [newEntry Both adaItem])
  = map ProcessedResult.pro
      (applyEvents (executeItemProcessing parseSample malformedFastEnv adaItem Both)
         [newEntry Both adaItem]).
Proof.
  exact (proj2 (paths_do_not_affect_each_other parseSample sampleEnv malformedFastEnv
                  adaItem Both [newEntry Both adaItem]) eq_refl eq_refl).
Defined.

(** ** What a path leaves in the record *)

Lemma flash_after_updates (id : string) (d : number) (texts : list string) :
  forall h,
    ProcessedResult.id h = id ->
    let h' := recordAfter (map (flashCallback id d) (map OnUpdate texts)) h in
    ModelResolution.output (ProcessedResult.flash h')
    = ModelResolution.output (ProcessedResult.flash h)
    /\ ModelResolution.thinkingText (ProcessedResult.flash h')
       = match texts with
         | [] => ModelResolution.thinkingText (ProcessedResult.flash h)
         | _ => Some (last texts "")
         end.
Proof.
  induction texts as [|t texts IH]; intros h I; [now split|].
  cbn [map]. change (recordAfter (?e :: ?es) h) with (recordAfter es (eventOnRecord e h)).
  set (h1 := eventOnRecord _ h).
  assert (I1 : ProcessedResult.id h1 = id) by (unfold h1; now rewrite id_eventOnRecord).
  destruct (IH h1 I1) as [O T]. cbv zeta in O, T |- *. rewrite O, T.
  unfold h1. simpl. rewrite I, String.eqb_refl. simpl.
  split; [reflexivity|]. destruct texts; reflexivity.
Qed.

Lemma pro_after_updates (id : string) (d : number) (texts : list string) :
  forall h,
    ProcessedResult.id h = id ->
    let h' := recordAfter (map (proCallback id d) (map OnUpdate texts)) h in
    ModelResolution.output (ProcessedResult.pro h')
    = ModelResolution.output (ProcessedResult.pro h)
    /\ ModelResolution.thinkingText (ProcessedResult.pro h')
       = match texts with
         | [] => ModelResolution.thinkingText (ProcessedResult.pro h)
         | _ => Some (last texts "")
         end.
Proof.
  induction texts as [|t texts IH]; intros h I; [now split|].
  cbn [map]. change (recordAfter (?e :: ?es) h) with (recordAfter es (eventOnRecord e h)).
  set (h1 := eventOnRecord _ h).
  assert (I1 : ProcessedResult.id h1 = id) by (unfold h1; now rewrite id_eventOnRecord).
  destruct (IH h1 I1) as [O T]. cbv zeta in O, T |- *. rewrite O, T.
  unfold h1. simpl. rewrite I, String.eqb_refl. simpl.
  split; [reflexivity|]. destruct texts; reflexivity.
Qed.

(** The payload, the log and the streamed text a path leaves behind. *)
Lemma flash_left_by_path (id : string) (d : number) (texts : list string)
    (last_ : Call) (h : ProcessedResult.t) :
  ProcessedResult.id h = id -> terminal last_ = true ->
  let r := ProcessedResult.flash
             (recordAfter (map (flashCallback id d) (map OnUpdate texts ++ [last_])) h) in
  ModelResolution.output r
  = match last_ with
    | OnComplete json => json
    | _ => ModelResolution.output (ProcessedResult.flash h)
    end
  /\ ModelResolution.logs r
     = match last_ with
       | OnError err => [err]
       | _ => ["Flash: Rapid Merge Complete."]
       end
  /\ ModelResolution.thinkingText r
     = match texts with
       | [] => ModelResolution.thinkingText (ProcessedResult.flash h)
       | _ => Some (last texts "")
       end.
Proof.
  intros I T. rewrite map_app, recordAfter_app.
  destruct (flash_after_updates id d texts h I) as [O X]. cbv zeta in O, X.
  set (h1 := recordAfter (map (flashCallback id d) (map OnUpdate texts)) h) in *.
  assert (E : (ProcessedResult.id h1 =? id) = true).
  { unfold h1. rewrite id_recordAfter, I. apply String.eqb_refl. }
  destruct last_; try discriminate; unfold recordAfter; simpl; rewrite E; simpl;
    rewrite ?O, ?X; repeat split.
Qed.

Lemma pro_left_by_path (id : string) (d : number) (texts : list string)
    (last_ : Call) (h : ProcessedResult.t) :
  ProcessedResult.id h = id -> terminal last_ = true ->
  let r := ProcessedResult.pro
             (recordAfter (map (proCallback id d) (map OnUpdate texts ++ [last_])) h) in
  ModelResolution.output r
  = match last_ with
    | OnComplete json => json
    | _ => ModelResolution.output (ProcessedResult.pro h)
    end
  /\ ModelResolution.logs r
     = match last_ with
       | OnError err => [err]
       | _ => ["Pro: Deep reasoning complete."]
       end
  /\ ModelResolution.thinkingText r
     = match texts with
       | [] => ModelResolution.thinkingText (ProcessedResult.pro h)
       | _ => Some (last texts "")
       end.
Proof.
  intros I T. rewrite map_app, recordAfter_app.
  destruct (pro_after_updates id d texts h I) as [O X]. cbv zeta in O, X.
  set (h1 := recordAfter (map (proCallback id d) (map OnUpdate texts)) h) in *.
  assert (E : (ProcessedResult.id h1 =? id) = true).
  { unfold h1. rewrite id_recordAfter, I. apply String.eqb_refl. }
  destruct last_; try discriminate; unfold recordAfter; simpl; rewrite E; simpl;
    rewrite ?O, ?X; repeat split.
Qed.

Section RetryFacts.

Variable JSON_parse : string -> string + Payload.
Variable env : RunEnv.

Lemma flash_after_retry item mode h :
  ProcessedResult.id h = InputData.id item -> runsFlash mode = true ->
  let r := ProcessedResult.flash
             (recordAfter (executeItemProcessing JSON_parse env item mode)
                (resetFor mode h)) in
  (forall json,
     In (OnComplete json) (flashCalls JSON_parse env mode) ->
     ModelResolution.status r = completed /\ ModelResolution.output r = json)
  /\ (endedFailed (flashCalls JSON_parse env mode) ->
      ModelResolution.status r = error
      /\ ModelResolution.output r = ModelResolution.output (ProcessedResult.flash h)).
Proof.
  intros I R r. unfold r. rewrite flash_of_run. unfold flashEvents.
  destruct (flashCalls_shape JSON_parse env mode R) as (texts & last_ & E & T).
  rewrite E.
  assert (I1 : ProcessedResult.id (resetFor mode h) = InputData.id item) by exact I.
  destruct (flash_left_by_path _ (flashDuration env) texts last_ _ I1 T) as (O & _).
  cbv zeta in O. rewrite O, (flash_after_path _ _ _ _ _ I1 T).
  split.
  - intros json H. apply (in_updates_last texts) in H; [|reflexivity]. now subst.
  - intros (err & H). apply (in_updates_last texts) in H; [|reflexivity]. subst.
    split; [reflexivity|]. simpl. now rewrite R.
Qed.

Lemma pro_after_retry item mode h :
  ProcessedResult.id h = InputData.id item -> runsPro mode = true ->
  let r := ProcessedResult.pro
             (recordAfter (executeItemProcessing JSON_parse env item mode)
                (resetFor mode h)) in
  (forall json,
     In (OnComplete json) (proCalls JSON_parse env mode) ->
     ModelResolution.status r = completed /\ ModelResolution.output r = json)
  /\ (endedFailed (proCalls JSON_parse env mode) ->
      ModelResolution.status r = error
      /\ ModelResolution.output r = ModelResolution.output (ProcessedResult.pro h)).
Proof.
  intros I R r. unfold r. rewrite pro_of_run. unfold proEvents.
  destruct (proCalls_shape JSON_parse env mode R) as (texts & last_ & E & T).
  rewrite E.
  assert (I1 : ProcessedResult.id (resetFor mode h) = InputData.id item) by exact I.
  destruct (pro_left_by_path _ (proDuration env) texts last_ _ I1 T) as (O & _).
  cbv zeta in O. rewrite O, (pro_after_path _ _ _ _ _ I1 T).
  split.
  - intros json H. apply (in_updates_last texts) in H; [|reflexivity]. now subst.
  - intros (err & H). apply (in_updates_last texts) in H; [|reflexivity]. subst.
    split; [reflexivity|]. simpl. now rewrite R.
Qed.

End RetryFacts.

(** X13. A retry followed by its run: on a path of the selected mode, a
    completion replaces the payload of the record; a failure leaves the
    path Failed with the payload of the earlier run still in place. *)
Theorem failed_retry_keeps_the_earlier_payload
    (JSON_parse : string -> string + Payload) (env : RunEnv)
    (s : App) (recordId : string) (entry : ProcessedResult.t) :
  find (fun h => ProcessedResult.id h =? recordId) (history s) = Some entry ->
  InputData.id (ProcessedResult.input entry) = recordId ->
  let mode := selectedMode s in
  let after :=
    applyEvents (executeItemProcessing JSON_parse env (ProcessedResult.input entry) mode)
      (history (fst (handleRetry s recordId))) in
  forall n h,
    nth_error (history s) n = Some h -> ProcessedResult.id h = recordId ->
    exists h',
      nth_error after n = Some h'
      /\ (runsFlash mode = true ->
          (forall json,
             In (OnComplete json) (flashCalls JSON_parse env mode) ->
             ModelResolution.status (ProcessedResult.flash h') = completed
             /\ ModelResolution.output (ProcessedResult.flash h') = json)
          /\ (endedFailed (flashCalls JSON_parse env mode) ->
              ModelResolution.status (ProcessedResult.flash h') = error
              /\ ModelResolution.output (ProcessedResult.flash h')
                 = ModelResolution.output (ProcessedResult.flash h)))
      /\ (runsPro mode = true ->
          (forall json,
             In (OnComplete json) (proCalls JSON_parse env mode) ->
             ModelResolution.status (ProcessedResult.pro h') = completed
             /\ ModelResolution.output (ProcessedResult.pro h') = json)
          /\ (endedFailed (proCalls JSON_parse env mode) ->
              ModelResolution.status (ProcessedResult.pro h') = error
              /\ ModelResolution.output (ProcessedResult.pro h')
                 = ModelResolution.output (ProcessedResult.pro h))).
Proof.
  intros F K mode after n h H I.
  unfold after, handleRetry. rewrite F. simpl history.
  rewrite run_applies_in_place, nth_error_map.
  change (applyMutation (RetryReset recordId (selectedMode s)) (history s))
    with (mapRecord recordId (resetFor mode) (history s)).
  rewrite nth_error_mapRecord, H. simpl. rewrite I, String.eqb_refl.
  eexists. split; [reflexivity|].
  assert (Ih : ProcessedResult.id h = InputData.id (ProcessedResult.input entry))
    by congruence.
  split; intros R.
  - exact (flash_after_retry JSON_parse env _ mode h Ih R).
  - exact (pro_after_retry JSON_parse env _ mode h Ih R).
Qed.

(** X13 witness: a resolved record is retried under [Flash] without a key;
    its fast path ends Failed and still holds the first profile, which the
    CSV export therefore still shows. *)
Lemma failed_retry_keeps_the_earlier_payload_witness :
  exists h',
    nth_error
      (applyEvents (executeItemProcessing parseSample keylessEnv adaItem Flash)
         (history (fst (handleRetry resolvedApp "A1")))) 0 = Some h'
    /\ ModelResolution.status (ProcessedResult.flash h') = error
    /\ ModelResolution.output (ProcessedResult.flash h') = Some adaProfile
    /\ effectiveOutput h' = Some adaProfile.
Proof.
  destruct (failed_retry_keeps_the_earlier_payload parseSample keylessEnv
              resolvedApp "A1" fastOnlyRecord eq_refl eq_refl 0 fastOnlyRecord
              eq_refl eq_refl) as (h' & N & Fl & _).
  destruct (Fl eq_refl) as (_ & Failed).
  destruct Failed as [S O].
  { eexists. left. reflexivity. }
  exists h'. split; [exact N|]. split; [exact S|]. split; [exact O|].
  vm_compute in N. injection N as <-. reflexivity.
Defined.

(** ** The log terminal *)

Lemma no_bracket_after_stripTags (s : string) :
  forall inTag, includes "<" (stripTags inTag s) = false.
Proof.
  induction s as [|c r IH]; intros inTag; [now destruct inTag|].
  cbn [stripTags]. destruct inTag; [apply IH|].
  destruct (Ascii.eqb_spec c "<") as [->|N]; [apply IH|].
  cbn [includes String.prefix]. rewrite IH.
  destruct (ascii_dec "<" c) as [E|_]; [now destruct N|reflexivity].
Qed.

Lemma stripTags_without_bracket (s : string) :
  includes "<" s = false -> stripTags false s = s.
Proof.
  induction s as [|c r IH]; [reflexivity|].
  cbn [includes String.prefix stripTags]. intros H.
  apply orb_false_elim in H. destruct H as [P I].
  destruct (Ascii.eqb_spec c "<") as [->|N].
  - destruct (ascii_dec "<" "<") as [_|E]; [|now destruct E].
    now rewrite prefix_nil in P.
  - now rewrite (IH I).
Qed.

(** X14. The text the terminal displays never contains a [<]: every tag,
    closed or left open, is dropped; a text without [<] is displayed as it
    is, and stripping twice changes nothing more. *)
Theorem displayed_stream_has_no_tag (text : string) :
  includes "<" (stripTags false text) = false
  /\ (includes "<" text = false -> stripTags false text = text)
  /\ stripTags false (stripTags false text) = stripTags false text.
Proof.
  split; [apply no_bracket_after_stripTags|]. split.
  - apply stripTags_without_bracket.
  - apply stripTags_without_bracket, no_bracket_after_stripTags.
Qed.

Lemma truthy_append (a b : string) : truthy b = true -> truthy (a ++ b) = true.
Proof. destruct a; [auto|reflexivity]. Qed.

Lemma cumulative_truthy (texts : list string) :
  forall fullText,
    (forall t, In t texts -> truthy t = true) ->
    forall t, In t (cumulative fullText texts) -> truthy t = true.
Proof.
  induction texts as [|a rest IH]; intros fullText T t H; [destruct H|].
  destruct H as [<-|H].
  - apply truthy_append, T. now left.
  - apply (IH (fullText ++ a)); [|exact H]. intros x Hx. apply T. now right.
Qed.

Lemma streamingMerge_detail JSON_parse pm fp fo remote :
  exists updates last_,
    fst (streamingMerge JSON_parse pm fp fo remote neverThrows)
    = (map OnUpdate updates ++ [last_])%list
    /\ terminal last_ = true
    /\ (forall t, In t updates -> truthy t = true).
Proof.
  rewrite (streamingMerge_run JSON_parse neverThrows pm fp fo remote (fun _ => eq_refl)).
  destruct (getClient (stream_API_KEY remote)) as [e|u].
  { exists [], (OnError (faultMessage fp fo e)). repeat split. intros t []. }
  destruct (generateContentStream remote) as [e|[chunks ending]].
  { exists [], (OnError (faultMessage fp fo e)). repeat split. intros t []. }
  eexists. eexists. split; [reflexivity|]. split.
  - destruct ending; [reflexivity|]. now destruct (JSON_parse _).
  - apply cumulative_truthy, chunkTexts_truthy.
Qed.

Lemma last_in {A} (l : list A) (d : A) : l <> [] -> In (last l d) l.
Proof.
  induction l as [|a l IH]; [congruence|]. intros _.
  destruct l as [|b l]; [now left|]. right. apply IH. discriminate.
Qed.

(** X15. Once a path has streamed some text, its terminal goes on showing
    that text (stripped of tags) after the path has ended: the dot keeps
    pulsing, the idle marker is off, and the single line the path logged on
    completion or failure is not listed. *)
Theorem terminal_keeps_showing_the_stream
    (JSON_parse : string -> string + Payload)
    (env : RunEnv) (item : InputData.t) (mode : ProcessingMode)
    (hist : list ProcessedResult.t) :
  let after := applyEvents (executeItemProcessing JSON_parse env item mode) hist in
  (runsFlash mode = true ->
   updateTexts (flashCalls JSON_parse env mode) <> [] ->
   forall h, In h after -> ProcessedResult.id h = InputData.id item ->
     body (flashTerminal h)
     = StreamBody (stripTags false (last (updateTexts (flashCalls JSON_parse env mode)) ""))
     /\ pulsing (flashTerminal h) = true
     /\ idle (flashTerminal h) = false
     /\ length (ModelResolution.logs (ProcessedResult.flash h)) = 1)
  /\ (runsPro mode = true ->
      updateTexts (proCalls JSON_parse env mode) <> [] ->
      forall h, In h after -> ProcessedResult.id h = InputData.id item ->
        body (proTerminal h)
        = StreamBody (stripTags false (last (updateTexts (proCalls JSON_parse env mode)) ""))
        /\ pulsing (proTerminal h) = true
        /\ idle (proTerminal h) = false
        /\ length (ModelResolution.logs (ProcessedResult.pro h)) = 1).
Proof.
  intros after. unfold after. rewrite run_applies_in_place. split.
  - intros R U h' H I. apply in_map_iff in H. destruct H as (h & <- & _).
    rewrite id_recordAfter in I.
    unfold flashTerminal. rewrite flash_of_run. unfold flashEvents.
    revert U. unfold flashCalls, mergeWithFlash. rewrite R.
    destruct (streamingMerge_detail JSON_parse
                "Parse Error: Output was not valid JSON. "
                "API Error: " "Unknown network error occurred." (flashRemote env))
      as (updates & last_ & E & T & Tr).
    rewrite E, updateTexts_shape
      by (intros c [<-|[]]; exact T).
    intros U.
    destruct (flash_left_by_path _ (flashDuration env) updates last_ h I T)
      as (_ & L & X).
    cbv zeta in L, X. unfold LogTerminal. rewrite L, X.
    assert (Tl : truthy (last updates "") = true) by (apply Tr, last_in, U).
    destruct updates as [|u0 us]; [congruence|]. rewrite Tl. simpl.
    repeat split; try (now destruct last_); try (now rewrite andb_false_r).
  - intros R U h' H I. apply in_map_iff in H. destruct H as (h & <- & _).
    rewrite id_recordAfter in I.
    unfold proTerminal. rewrite pro_of_run. unfold proEvents.
    revert U. unfold proCalls, mergeWithProStream. rewrite R.
    destruct (streamingMerge_detail JSON_parse
                "Structure Error: Deep reasoning failed to produce expected schema. "
                "Pro Engine Fault: "
                "An unexpected error occurred in the reasoning phase." (proRemote env))
      as (updates & last_ & E & T & Tr).
    rewrite E, updateTexts_shape
      by (intros c [<-|[]]; exact T).
    intros U.
    destruct (pro_left_by_path _ (proDuration env) updates last_ h I T)
      as (_ & L & X).
    cbv zeta in L, X. unfold LogTerminal. rewrite L, X.
    assert (Tl : truthy (last updates "") = true) by (apply Tr, last_in, U).
    destruct updates as [|u0 us]; [congruence|]. rewrite Tl. simpl.
    repeat split; try (now destruct last_); try (now rewrite andb_false_r).
Qed.

(** X15 witness: after the sample run the fast terminal still shows the
    fenced answer. *)
Lemma terminal_keeps_showing_the_stream_witness :
  Forall
    (fun h =>
       body (flashTerminal h) = StreamBody ("```json" ++ adaDocument ++ "```")
       /\ pulsing (flashTerminal h) = true
       /\ idle (flashTerminal h) = false)
    (applyEvents (executeItemProcessing parseSample sampleEnv adaItem Both)
       [newEntry Both adaItem]).
Proof.
  apply Forall_forall. intros h H.
  destruct (proj1 (terminal_keeps_showing_the_stream parseSample sampleEnv adaItem
                     Both [newEntry Both adaItem]) eq_refl) with (h := h)
    as (B & P & D & _).
  - vm_compute. discriminate.
  - exact H.
  - vm_compute in H. destruct H as [<-|[]]. reflexivity.
  - split; [|split; assumption]. rewrite B. vm_compute. reflexivity.
Defined.

(** ** The drain loop to its end *)

Lemma settleAll_drains (q : list InputData.t) :
  forall s m item,
    isProcessing s = true -> tasks s = [AwaitOrchestrator m item] ->
    queueRef s = q -> queue s = q ->
    fst (run s (settleAll (S (length q))))
    = Build_App [] (history s ++ map (newEntry m) q) false (selectedMode s) [] []
    /\ invocations (snd (run s (settleAll (S (length q)))))
       = map (fun it => (it, m)) q.
Proof.
  induction q as [|a rest IH]; intros [qu hist ip sm qr ts] m item; simpl;
    intros -> -> -> ->.
  - rewrite app_nil_r. split; reflexivity.
  - change (match length rest with
            | 0 => [OrchestratorSettled 0]
            | S _ => OrchestratorSettled 0 :: TimerFired 0 :: settleAll (length rest)
            end)
      with (settleAll (S (length rest))).
    specialize (IH (Build_App rest (hist ++ [newEntry m a]) true sm rest
                      [AwaitOrchestrator m a]) m a eq_refl eq_refl eq_refl eq_refl).
    cbn [history selectedMode] in IH. destruct IH as [IH1 IH2].
    unfold afterOrchestrator, processNext, setTasks, setQueues, setHistory,
      setIsProcessing, removeNth. cbn.
    change (match length rest with
            | 0 => [OrchestratorSettled 0]
            | S _ => OrchestratorSettled 0 :: TimerFired 0 :: settleAll (length rest)
            end)
      with (settleAll (S (length rest))).
    destruct (run _ (settleAll (S (length rest)))) as [s2 obs2].
    cbn [fst snd] in IH1, IH2 |- *. subst s2. rewrite <- app_assoc. cbn.
    fold (invocations obs2). rewrite IH2. split; reflexivity.
Qed.

(** X16. A drain started on a loaded, non-empty queue runs until the queue
    is empty and then clears the processing flag: every queued item, and
    every item added while the first one is in flight, gets a record and one
    orchestrator call, in queue order and with the mode selected when the
    drain started, also when another mode is selected meanwhile. *)
Theorem drain_runs_until_the_queue_is_empty
    (s : App) (more : list InputData.t) (later : ProcessingMode) :
  loaded s -> queue s <> [] ->
  let all := (queue s ++ more)%list in
  let r := run s (ProcessQueue :: SelectMode later :: AddToQueue more
                    :: settleAll (length all)) in
  queue (fst r) = [] /\ queueRef (fst r) = []
  /\ isProcessing (fst r) = false /\ tasks (fst r) = []
  /\ selectedMode (fst r) = later
  /\ history (fst r) = (history s ++ map (newEntry (selectedMode s)) all)%list
  /\ invocations (snd r) = map (fun item => (item, selectedMode s)) all.
Proof.
  destruct s as [qu hist ip sm qr ts]. unfold loaded. cbn [queue history
    isProcessing selectedMode queueRef tasks]. intros (-> & -> & ->) N.
  destruct qu as [|a rest]; [congruence|]. cbv zeta.
  cbn [app length].
  destruct (settleAll_drains (rest ++ more)
              (Build_App (rest ++ more) (hist ++ [newEntry sm a]) true later
                 (rest ++ more) [AwaitOrchestrator sm a]) sm a
              eq_refl eq_refl eq_refl eq_refl) as [E1 E2].
  cbn [history selectedMode] in E1.
  remember (settleAll (S (length (rest ++ more)))) as sched eqn:Hs. clear Hs.
  cbn [run step]. unfold processQueue. cbn [isProcessing queueRef length Nat.eqb orb
    selectedMode].
  unfold processNext, setIsProcessing, setTasks, setQueues, setHistory,
    setSelectedMode, addToQueue. cbn.
  destruct (run _ sched) as [s2 obs2].
  cbn [fst snd] in E1, E2 |- *. subst s2. cbn. rewrite <- app_assoc. cbn.
  fold (invocations obs2). rewrite E2. repeat split.
Qed.

(** X16 witness: two queued items, a third added and the mode switched
    while the first is in flight. *)
Lemma drain_runs_until_the_queue_is_empty_witness :
  isProcessing
    (fst (run twoQueued
            (ProcessQueue :: SelectMode Flash :: AddToQueue [cyItem] :: settleAll 3)))
  = false
  /\ history
       (fst (run twoQueued
               (ProcessQueue :: SelectMode Flash :: AddToQueue [cyItem] :: settleAll 3)))
     = [newEntry Both adaItem; newEntry Both benItem; newEntry Both cyItem]
  /\ invocations
       (snd (run twoQueued
               (ProcessQueue :: SelectMode Flash :: AddToQueue [cyItem] :: settleAll 3)))
     = [(adaItem, Both); (benItem, Both); (cyItem, Both)].
Proof.
  destruct (drain_runs_until_the_queue_is_empty twoQueued [cyItem] Flash)
    as (_ & _ & P & _ & _ & H & I).
  - repeat split.
  - discriminate.
  - split; [exact P|]. split; [exact H|exact I].
Defined.

Lemma quiet_keeps_the_loop_suspended (acts : list Action) :
  forall s t,
    forallb quiet acts = true ->
    isProcessing s = true -> tasks s = [t] -> queueRef s = [] -> queue s = [] ->
    let r := run s acts in
    isProcessing (fst r) = true /\ tasks (fst r) = [t]
    /\ queueRef (fst r) = [] /\ queue (fst r) = []
    /\ invocations (snd r) = [] /\ appended (snd r) = [].
Proof.
  induction acts as [|a rest IH]; intros s t Q P T R U; cbn [run].
  - cbv zeta. cbn. repeat split; assumption.
  - cbn [forallb] in Q. apply andb_prop in Q. destruct Q as [Qa Qr].
    assert (S1 : isProcessing (fst (step s a)) = true
                 /\ tasks (fst (step s a)) = [t]
                 /\ queueRef (fst (step s a)) = [] /\ queue (fst (step s a)) = []
                 /\ invocations (snd (step s a)) = []
                 /\ appended (snd (step s a)) = []).
    { destruct s as [qu hist ip sm qr ts]. cbn in P, T, R, U. subst.
      destruct a as [nd|ni| | |m| |rid|n|n|mu]; try discriminate Qa; cbn;
        try (repeat split; reflexivity).
      - unfold handleRetry. cbn. destruct (find _ hist); cbn; repeat split.
      - destruct (orchestratorMutation mu); cbn; repeat split. }
    destruct (step s a) as [s1 obs1]. cbn [fst snd] in S1.
    destruct S1 as (P1 & T1 & R1 & U1 & I1 & A1).
    specialize (IH s1 t Qr P1 T1 R1 U1). cbv zeta in IH |- *.
    destruct (run s1 rest) as [s2 obs2]. cbn [fst snd] in IH |- *.
    destruct IH as (P2 & T2 & R2 & U2 & I2 & A2).
    unfold invocations, appended in *. rewrite !flat_map_app, I1, I2, A1, A2.
    repeat split; assumption.
Qed.

(** X17. Clearing the queue ends the drain at its next resumption: as long
    as nothing is added meanwhile, whatever else happens (mode changes,
    further presses of the start button, retries, callbacks, clearing the
    history), the loop appends no record and invokes the orchestrator for no
    further item, and when its pending continuation resumes it stops and
    clears the processing flag. *)
Theorem clearing_the_queue_ends_the_drain
    (s : App) (t : Task) (acts : list Action) :
  isProcessing s = true -> tasks s = [t] -> forallb quiet acts = true ->
  let r := run s (ClearQueue :: acts ++ [resumption t])%list in
  isProcessing (fst r) = false /\ tasks (fst r) = []
  /\ queue (fst r) = [] /\ queueRef (fst r) = []
  /\ invocations (snd r) = [] /\ appended (snd r) = []
  /\ In DrainStopped (snd r).
Proof.
  intros P T Q. cbv zeta.
  assert (E : forall l1 l2 s0,
             run s0 (l1 ++ l2)%list
             = (fst (run (fst (run s0 l1)) l2),
                (snd (run s0 l1) ++ snd (run (fst (run s0 l1)) l2))%list)).
  { induction l1 as [|a l1 IH]; intros l2 s0; cbn [run app].
    - cbn. now destruct (run s0 l2).
    - destruct (step s0 a) as [s1 o1]. rewrite IH.
      destruct (run s1 l1) as [s2 o2]. cbn. now rewrite app_assoc. }
  cbn [run step]. rewrite E.
  destruct (quiet_keeps_the_loop_suspended acts (clearQueue s) t Q)
    as (P1 & T1 & R1 & U1 & I1 & A1); try (destruct s; cbn in *; congruence).
  cbv zeta in P1, T1, R1, U1, I1, A1.
  destruct (run (clearQueue s) acts) as [[qu hist ip sm qr ts] obs1].
  cbn [fst snd] in *. cbn in P1, T1, R1, U1. subst.
  unfold invocations, appended in *. cbn [app].
  destruct t as [m item|m]; cbn; rewrite !flat_map_app, I1, A1; cbn;
    repeat split; apply in_or_app; right; cbn; auto.
Qed.

(** X17 witness: the queue is cleared while the first of three items is in
    flight; the other two are never processed. *)
Lemma clearing_the_queue_ends_the_drain_witness :
  isProcessing
    (fst (run midDrain
            [ClearQueue; ProcessQueue; Callback (FlashFailed "A1" "API Error: 503");
             OrchestratorSettled 0]))
  = false
  /\ invocations
       (snd (run midDrain
               [ClearQueue; ProcessQueue; Callback (FlashFailed "A1" "API Error: 503");
                OrchestratorSettled 0]))
     = [].
Proof.
  destruct (clearing_the_queue_ends_the_drain midDrain
              (AwaitOrchestrator Both adaItem)
              [ProcessQueue; Callback (FlashFailed "A1" "API Error: 503")]
              eq_refl eq_refl eq_refl) as (P & _ & _ & _ & I & _).
  split; [exact P|exact I].
Defined.

(** ** Export: which records, which file *)

Lemma filter_nil_iff {A} (f : A -> bool) (l : list A) :
  filter f l = [] <-> forall x, In x l -> f x = false.
Proof.
  induction l as [|a l IH]; cbn; [tauto|].
  destruct (f a) eqn:E.
  - split; [discriminate|]. intros H. rewrite (H a (or_introl eq_refl)) in E.
    discriminate.
  - rewrite IH. split; [intros H x [<-|I]; auto|intros H x I; auto].
Qed.

(** X18. Asked for one record, [exportData] offers a file exactly when the
    history holds a record with that id, names it after the id, and fills it
    with every record of that id in history order; asked with an empty id
    it behaves as when asked for everything, which offers a file named
    [all] exactly when the history is not empty. The CSV file has a header
    line followed by one row per selected record. *)
Theorem export_selects_records_by_id
    (Number_toString : number -> string)
    (JSON_stringify : list ProcessedResult.t -> string)
    (history : list ProcessedResult.t) (format : Format) (id : string) :
  let export := exportData Number_toString JSON_stringify history format in
  let selected := filter (fun h => ProcessedResult.id h =? id) history in
  let extension := match format with JsonFormat => ".json" | CsvFormat => ".csv" end in
  (truthy id = true ->
   (export (Some id) = None <-> forall h, In h history -> ProcessedResult.id h <> id)
   /\ (forall file, export (Some id) = Some file ->
         fst (fst file) = "resolution_lab_export_" ++ id ++ extension
         /\ snd file
            = match format with
              | JsonFormat => JSON_stringify selected
              | CsvFormat =>
                  String.concat newline
                    (String.concat "," headers :: map (csvRow Number_toString) selected)
              end))
  /\ export (Some "") = export None
  /\ (export None = None <-> history = [])
  /\ (forall file, export None = Some file ->
        fst (fst file) = "resolution_lab_export_all" ++ extension
        /\ snd file
           = match format with
             | JsonFormat => JSON_stringify history
             | CsvFormat =>
                 String.concat newline
                   (String.concat "," headers :: map (csvRow Number_toString) history)
             end).
Proof.
  cbv zeta. split; [|split; [|split]].
  - intros T. unfold exportData. rewrite T. split.
    + destruct (filter _ history) eqn:F.
      * split; [intros _|reflexivity]. intros h I E.
        assert (G := proj1 (filter_nil_iff _ _) F h I). cbn in G.
        apply String.eqb_neq in G. contradiction.
      * split; [discriminate|]. intros H. exfalso.
        assert (I : In t (filter (fun h => ProcessedResult.id h =? id) history))
          by (rewrite F; now left).
        apply filter_In in I. destruct I as [I E]. apply String.eqb_eq in E.
        exact (H t I E).
    + intros file. destruct (filter _ history) eqn:F; [discriminate|].
      intros [= <-]. destruct format; cbn; rewrite ?append_assoc; split; reflexivity.
  - reflexivity.
  - unfold exportData. destruct history; [tauto|]. split; discriminate.
  - intros file. unfold exportData. destruct history as [|h hs]; [discriminate|].
    intros [= <-]. destruct format; split; reflexivity.
Qed.

(** X18 witness: the sample history holds no record filed under "Z9", and
    one under "A1". *)
Lemma export_selects_records_by_id_witness :
  exportData (fun _ => "0") (fun _ => "[]") (history sampleApp) CsvFormat (Some "Z9")
  = None
  /\ exportData (fun _ => "0") (fun _ => "[]") (history sampleApp) CsvFormat (Some "A1")
     <> None.
Proof.
  destruct (export_selects_records_by_id (fun _ => "0") (fun _ => "[]")
              (history sampleApp) CsvFormat "Z9") as [H _].
  destruct (export_selects_records_by_id (fun _ => "0") (fun _ => "[]")
              (history sampleApp) CsvFormat "A1") as [H1 _].
  split.
  - apply (proj1 (H eq_refl)). intros h I. vm_compute in I.
    destruct I as [<-|[<-|[]]]; discriminate.
  - intros E. apply (proj1 (proj1 (H1 eq_refl)) E (newEntry Both adaItem)).
    + now left.
    + reflexivity.
Defined.

(** ** The identity card *)

Lemma includes_empty (hay : string) : includes "" hay = true.
Proof. destruct hay; reflexivity. Qed.

Lemma lowerUnit_idempotent (c : ascii) : lowerUnit (lowerUnit c) = lowerUnit c.
Proof. destruct c as [[] [] [] [] [] [] [] []]; vm_compute; reflexivity. Qed.

Lemma toLowerCase_idempotent (s : string) :
  toLowerCase (toLowerCase s) = toLowerCase s.
Proof.
  induction s as [|c s IH]; [reflexivity|]. cbn [toLowerCase].
  now rewrite lowerUnit_idempotent, IH.
Qed.

Lemma prefix_iff (n h : string) :
  String.prefix n h = true <-> exists post, h = n ++ post.
Proof.
  split.
  - revert h. induction n as [|c n IH]; intros h H.
    + exists h. reflexivity.
    + destruct h as [|d h]; [discriminate|]. cbn [String.prefix] in H.
      destruct (ascii_dec c d) as [->|]; [|discriminate].
      destruct (IH h H) as (post & ->). exists post. reflexivity.
  - intros (post & ->). apply prefix_append.
Qed.

Lemma includes_iff (n h : string) :
  includes n h = true <-> exists pre post, h = pre ++ n ++ post.
Proof.
  split.
  - induction h as [|c h IH]; cbn [includes]; intros H.
    + apply prefix_iff in H. destruct H as (post & E). exists "", post. exact E.
    + apply orb_prop in H. destruct H as [H|H].
      * apply prefix_iff in H. destruct H as (post & E). exists "", post. exact E.
      * destruct (IH H) as (pre & post & ->). exists (String c pre), post. reflexivity.
  - intros (pre & post & ->). induction pre as [|c pre IH].
    + cbn [append]. destruct (n ++ post) eqn:E.
      * cbn [includes]. rewrite <- E. apply prefix_append.
      * cbn [includes]. rewrite <- E, prefix_append. reflexivity.
    + cbn [append includes]. rewrite IH. apply orb_true_r.
Qed.

(** X19. On the identity card, a field is marked as patched exactly when
    the lower-cased text of some applied update contains the lower-cased
    field name, so the case of either does not matter; the status dot is
    lit exactly when the footer reports at least one delta, hence whenever
    any field is marked. *)
Theorem card_marks_fields_named_in_updates (data : MergedProfile.t) :
  let view := identityView data in
  (forall field,
     isUpdated data field = true
     <-> exists update pre post,
           In update (MergedProfile.updates_applied data)
           /\ toLowerCase update = pre ++ toLowerCase field ++ post)
  /\ (forall field, isUpdated data (toLowerCase field) = isUpdated data field)
  /\ (statusLit view = true <-> indicator view <> NoStateChanges)
  /\ (statusLit view = true <-> MergedProfile.updates_applied data <> [])
  /\ (forall field, isUpdated data field = true -> statusLit view = true).
Proof.
  cbv zeta.
  assert (L : isUpdated data "" = true <-> MergedProfile.updates_applied data <> []).
  { unfold isUpdated. destruct (MergedProfile.updates_applied data) as [|u us].
    - cbn. split; [discriminate|congruence].
    - cbn [existsb toLowerCase]. rewrite includes_empty. cbn.
      split; [discriminate|reflexivity]. }
  assert (C : forall field,
             isUpdated data field = true
             <-> exists update pre post,
                   In update (MergedProfile.updates_applied data)
                   /\ toLowerCase update = pre ++ toLowerCase field ++ post).
  { intros field. unfold isUpdated. rewrite existsb_exists. split.
    - intros (u & I & H). apply includes_iff in H. destruct H as (pre & post & E).
      exists u, pre, post. split; assumption.
    - intros (u & pre & post & I & E). exists u. split; [exact I|].
      apply includes_iff. exists pre, post. exact E. }
  split; [exact C|]. split; [|split; [|split]].
  - intros field. unfold isUpdated. now rewrite toLowerCase_idempotent.
  - cbn [statusLit indicator identityView]. rewrite L.
    destruct (MergedProfile.updates_applied data); cbn; split; congruence.
  - exact L.
  - intros field H. cbn [statusLit identityView]. apply L.
    apply C in H. destruct H as (u & _ & _ & I & _). intros E. rewrite E in I.
    destruct I.
Qed.

(** ** What the panes of a record show after a run *)




(** A fast answer of [null]: the fast pane shows the empty placeholder on a
    Completed path. *)
Example null_answer_shows_the_placeholder :
  map (fun h => (ModelResolution.status (ProcessedResult.flash h), flashPane h))
    (applyEvents (executeItemProcessing parseSample nullFastEnv adaItem Both)
       [newEntry Both adaItem])
  = [(completed, Build_Pane false (CardPanel AwaitingIdentity))].
Proof. vm_compute. reflexivity. Qed.



(** ** The filtered and sorted queue *)

Lemma SFcompare_Lt_swap (a b : SpecFloat.spec_float) :
  SpecFloat.SFcompare a b = Some Lt -> SpecFloat.SFcompare b a = Some Gt.
Proof.
  destruct a as [sa|sa| |sa ma ea], b as [sb|sb| |sb mb eb]; cbn;
    try discriminate; try (destruct sa; try destruct sb; cbn; congruence).
  destruct sa, sb; try congruence;
    rewrite (BinInt.Z.compare_antisym ea eb);
    destruct (BinInt.Z.compare ea eb); cbn; try congruence;
    rewrite !BinPos.Pos.compare_cont_spec; cbn;
    rewrite (BinPos.Pos.compare_antisym ma mb);
    destruct (BinPos.Pos.compare ma mb); cbn; congruence.
Qed.

Lemma float_ltb_asym (x y : float) :
  PrimFloat.ltb x y = true -> PrimFloat.ltb y x = false.
Proof.
  rewrite !FloatAxioms.ltb_spec. unfold SpecFloat.SFltb.
  destruct (SpecFloat.SFcompare (Prim2SF x) (Prim2SF y)) as [[]|] eqn:E;
    try discriminate.
  now rewrite (SFcompare_Lt_swap _ _ E).
Qed.

Lemma string_ltb_asym (x y : string) : String.ltb x y = true -> String.ltb y x = false.
Proof.
  unfold String.ltb. rewrite (String.compare_antisym x y).
  destruct (String.compare y x); cbn; congruence.
Qed.

Lemma keyLt_asym (a b : SortKey) : keyLt a b = true -> keyLt b a = false.
Proof.
  destruct a, b; cbn; try reflexivity;
    [apply string_ltb_asym|apply float_ltb_asym].
Qed.

Lemma comparator_Gt_swap f o a b :
  comparator f o a b = Gt -> comparator f o b a = Lt.
Proof.
  unfold comparator. cbv zeta.
  destruct (keyLt (sortKey f a) (sortKey f b)) eqn:L.
  - rewrite (keyLt_asym _ _ L). destruct o; congruence.
  - destruct (keyLt (sortKey f b) (sortKey f a)); destruct o; congruence.
Qed.

Lemma insertSorted_perm {A} (cmp : A -> A -> comparison) (x : A) (l : list A) :
  Permutation (insertSorted cmp x l) (x :: l).
Proof.
  induction l as [|y l IH]; cbn; [reflexivity|].
  destruct (cmp x y); try reflexivity.
  rewrite IH. apply perm_swap.
Qed.

Lemma Array_sort_perm {A} (cmp : A -> A -> comparison) (l : list A) :
  Permutation (Array_sort cmp l) l.
Proof.
  induction l as [|x l IH]; cbn; [reflexivity|].
  rewrite insertSorted_perm. now constructor.
Qed.

Lemma insertSorted_sorted {A} (cmp : A -> A -> comparison) (x : A) (l : list A) :
  (forall a b, cmp a b = Gt -> cmp b a <> Gt) ->
  Sorted (fun a b => cmp a b <> Gt) l ->
  Sorted (fun a b => cmp a b <> Gt) (insertSorted cmp x l).
Proof.
  intros W S. induction S as [|y l S IH H]; cbn.
  - repeat constructor.
  - destruct (cmp x y) eqn:E.
    + repeat constructor; try assumption. congruence.
    + repeat constructor; try assumption. congruence.
    + constructor; [exact IH|].
      destruct H as [|z l H]; cbn.
      * constructor. now apply W.
      * destruct (cmp x z); constructor; try assumption; now apply W.
Qed.

Lemma Array_sort_sorted {A} (cmp : A -> A -> comparison) (l : list A) :
  (forall a b, cmp a b = Gt -> cmp b a <> Gt) ->
  Sorted (fun a b => cmp a b <> Gt) (Array_sort cmp l).
Proof.
  intros W. induction l as [|x l IH]; cbn; [constructor|].
  now apply insertSorted_sorted.
Qed.

Lemma insertSorted_stable {A} (cmp : A -> A -> comparison) (P : A -> bool)
    (x : A) (l : list A) :
  (forall y, In y l -> P x = true -> P y = true -> cmp x y = Eq) ->
  filter P (insertSorted cmp x l) = filter P (x :: l).
Proof.
  induction l as [|y l IH]; intros T; [reflexivity|]. cbn [insertSorted].
  destruct (cmp x y) eqn:E; try reflexivity.
  cbn [filter]. rewrite IH by (intros z I; apply T; now right). cbn [filter].
  destruct (P x) eqn:Px, (P y) eqn:Py; try reflexivity.
  rewrite (T y (or_introl eq_refl) eq_refl Py) in E. discriminate.
Qed.

Lemma Array_sort_stable {A} (cmp : A -> A -> comparison) (P : A -> bool) (l : list A) :
  (forall a b, P a = true -> P b = true -> cmp a b = Eq) ->
  filter P (Array_sort cmp l) = filter P l.
Proof.
  intros T. induction l as [|x l IH]; [reflexivity|]. cbn [Array_sort fold_right].
  rewrite insertSorted_stable by (intros y _; apply T). cbn [filter].
  fold (Array_sort cmp l). now rewrite IH.
Qed.

(** X22. The queue as listed holds exactly the queued items of the chosen
    tier (all of them under 'All'), each as often as it is queued; no item
    of the list compares greater than its successor under the chosen field
    and direction; and items that compare equal (same lower-cased name,
    same id, same timestamp) stay in queue order, in both directions. *)
Theorem listed_queue_is_the_sorted_selection
    (queue : list InputData.t) (filterTier : string)
    (sortField : SortField) (sortOrder : SortOrder) :
  let listed := filteredQueue queue filterTier sortField sortOrder in
  Permutation listed (filter (tierShown filterTier) queue)
  /\ (forall item,
        In item listed
        <-> In item queue
            /\ (filterTier = "All"
                \/ CustomerRecord.current_tier (InputData.customerRecord item)
                   = filterTier))
  /\ Sorted (inOrder sortField sortOrder) listed
  /\ (forall ties : InputData.t -> bool,
        (forall a b, ties a = true -> ties b = true ->
                     comparator sortField sortOrder a b = Eq) ->
        filter ties listed = filter ties (filter (tierShown filterTier) queue)).
Proof.
  cbv zeta. unfold filteredQueue.
  assert (P := Array_sort_perm (comparator sortField sortOrder)
                 (filter (tierShown filterTier) queue)).
  split; [exact P|]. split; [|split].
  - intros item. split.
    + intros I. apply (Permutation_in _ P) in I. apply filter_In in I.
      destruct I as [I T]. split; [exact I|]. unfold tierShown in T.
      apply orb_prop in T. destruct T as [T|T]; apply String.eqb_eq in T; auto.
    + intros [I T]. apply (Permutation_in _ (Permutation_sym P)).
      apply filter_In. split; [exact I|]. unfold tierShown.
      destruct T as [->| ->]; [reflexivity|]. rewrite String.eqb_refl.
      apply orb_true_r.
  - apply Array_sort_sorted. intros a b G. rewrite (comparator_Gt_swap _ _ _ _ G).
    discriminate.
  - intros ties T. now apply Array_sort_stable.
Qed.

(** ** The gateway without a key, and the arbiter call *)

Lemma getClient_keyMissing (k : option string) :
  keyMissing k = true ->
  getClient k
  = inl (ErrorObj "API Key not found. Please ensure your environment is configured.").
Proof.
  destruct k as [k|]; cbn; [|reflexivity]. destruct (truthy k); [discriminate|reflexivity].
Qed.

Lemma getClient_ok (k : option string) :
  keyMissing k = false -> getClient k = inr tt.
Proof.
  destruct k as [k|]; cbn; [|discriminate]. destruct (truthy k); [reflexivity|discriminate].
Qed.

(** X23. Without an API key no request is made and every call of the
    gateway fails in its own way: the two streaming calls make one callback,
    [onError], with the key message behind their own prefix (whatever the
    callbacks do); the summary resolves to its failure text; the arbiter
    call throws the key error to its caller. *)
Theorem without_a_key_every_call_fails
    (JSON_parse : string -> string + Payload)
    (throws : Call -> option thrown) (stream : StreamRemote) (unary : UnaryRemote) :
  keyMissing (stream_API_KEY stream) = true ->
  keyMissing (unary_API_KEY unary) = true ->
  fst (mergeWithFlash JSON_parse stream throws)
  = [OnError "API Error: API Key not found. Please ensure your environment is configured."]
  /\ fst (mergeWithProStream JSON_parse stream throws)
     = [OnError
          "Pro Engine Fault: API Key not found. Please ensure your environment is configured."]
  /\ summarizeTranscript unary = "Summary generation failed."
  /\ consolidateResults JSON_parse unary
     = inl (ErrorObj "API Key not found. Please ensure your environment is configured.").
Proof.
  intros S U.
  unfold mergeWithFlash, mergeWithProStream, streamingMerge, readStream,
    summarizeTranscript, consolidateResults, lift, invoke.
  rewrite (getClient_keyMissing _ S), (getClient_keyMissing _ U).
  cbn [bind tryCatch fst snd app].
  split; [|split; [|split]]; try reflexivity; now destruct (throws _).
Qed.

(** X23 witness: the key is the empty string. *)
Lemma without_a_key_every_call_fails_witness :
  fst (mergeWithFlash parseSample (Build_StreamRemote (Some "") (inr ([], None)))
         secondUpdateThrows)
  = [OnError "API Error: API Key not found. Please ensure your environment is configured."]
  /\ summarizeTranscript (Build_UnaryRemote None (inr (Some "A summary.")))
     = "Summary generation failed.".
Proof.
  destruct (without_a_key_every_call_fails parseSample secondUpdateThrows
              (Build_StreamRemote (Some "") (inr ([], None)))
              (Build_UnaryRemote None (inr (Some "A summary.")))
              eq_refl eq_refl) as (F & _ & S & _).
  split; [exact F|exact S].
Defined.

(** X24. The arbiter call returns a profile exactly when the key is
    configured, the request is answered with a text, and that text, cleaned
    of code fences and surrounding white space, parses to the profile. It
    throws something that is not an [Error] (so that the record's log falls
    back to "Arbiter failed.") exactly when the key is configured and the
    request itself is rejected with such a value. *)
Theorem arbiter_returns_iff_the_clean_answer_parses
    (JSON_parse : string -> string + Payload) (remote : UnaryRemote) :
  (forall json,
     consolidateResults JSON_parse remote = inr json
     <-> keyMissing (unary_API_KEY remote) = false
         /\ exists text,
              generateContent remote = inr (Some text)
              /\ JSON_parse (cleaned text) = inr json)
  /\ (consolidateResults JSON_parse remote = inl NonError
      <-> keyMissing (unary_API_KEY remote) = false
          /\ generateContent remote = inl NonError).
Proof.
  unfold consolidateResults, parseProfile, TypeError_undefined.
  destruct (keyMissing (unary_API_KEY remote)) eqn:K.
  - rewrite (getClient_keyMissing _ K). split.
    + intros json. split; [discriminate|]. intros [E _]. discriminate.
    + split; [discriminate|]. intros [E _]. discriminate.
  - rewrite (getClient_ok _ K).
    destruct (generateContent remote) as [e|[text|]]; split.
    + intros json. split; [discriminate|]. intros (_ & text & E & _). discriminate.
    + split; [intros [= ->]; auto|]. intros (_ & [= ->]). reflexivity.
    + intros json. split.
      * destruct (JSON_parse (cleaned text)) eqn:P; [discriminate|].
        intros [= ->]. split; [reflexivity|]. exists text. now split.
      * intros (_ & t & [= <-] & P). now rewrite P.
    + split; [|intros (_ & E); discriminate].
      destruct (JSON_parse (cleaned text)); discriminate.
    + intros json. split; [discriminate|]. intros (_ & text & E & _). discriminate.
    + split; [discriminate|]. intros (_ & E). discriminate.
Qed.
